(** * Verification of selected components: folly [Range], fizz ECH
      [Encryption], HHVM [ProfData]

    Shallow embedding of
    - [third-party/folly/src/folly/Range.h]
        (the searches [qfind], [find], [rfind], [find_first_of] and
        [contains]; [replaceAt] and [replaceAll]; the windows and
        predicates [subpiece], [advance], [subtract], [startsWith],
        [endsWith], [equals], [removePrefix], [removeSuffix];
        [split_step]; [compare]),
    - [third-party/fizz/src/fizz/protocol/ech/Encryption.cpp]
        (negotiation, padding, compression and expansion of the outer
        extensions, encryption and decryption of the inner hello, the
        acceptance confirmation of a ServerHello and of a
        HelloRetryRequest, GREASE pre-shared keys),
    - [hphp/runtime/vm/jit/prof-data.cpp]
        ([proflogueTransId], [maybeResetCounters] under any interleaving
        of threads, and the registry of profiling translations).

    Conventions.  A range [[b_, e_)] is the list of its elements; the
    iterator [b_ + k] is position [k] of that list.  [std::string::npos]
    is [None] in results of type [option nat]: every index the search
    functions produce is bounded by the size of the range they search.
    Where the source computes on an arbitrary [size_t] argument the 64-bit
    wrap-around is written out ([Z] or [N] modulo [2^64]). *)

From Stdlib Require Import ZArith Lia.
From Stdlib Require Import String Ascii.
From stdpp Require Import base decidable option list numbers strings gmap.
From Equations Require Import Equations.
From Equations.Prop Require Import Logic.

#[local] Set Warnings "-clear-no-such-hyp".

(* ===================================================================== *)
(** * folly/Range.h                                                       *)
(* ===================================================================== *)

Module Range.

Section search.
Context {A : Type}.

(** The comparator [Comp eq] of [qfind]. *)
Variable comp : A -> A -> bool.

(** The inner loop of [qfind] (Range.h:1491-1496):
<<
    while (!eq(i[nsize_1], lastNeedle)) {
      if (++i == iEnd) { return std::string::npos; }
    }
>>
    [Some i'] is the position the loop leaves in [i]; [None] is the
    [return npos].  [iEnd] is [haystack.size() - nsize_1], so the read
    [i[nsize_1]] is inside the haystack exactly when [i < iEnd], which
    the enclosing [while (i < iEnd)] guarantees on entry. *)
Equations? scanLast (haystack : list A) (nsize_1 : nat) (lastNeedle : A)
    (i : nat) : option nat by wf (length haystack - i) lt :=
  scanLast haystack nsize_1 lastNeedle i
    with inspect (haystack !! (i + nsize_1)) := {
    | exist _ None _ => None
    | exist _ (Some c) Hc =>
        if comp c lastNeedle then Some i
        else if decide (S i = length haystack - nsize_1) then None
        else scanLast haystack nsize_1 lastNeedle (S i) }.
Proof. apply lookup_lt_Some in Hc. lia. Qed.

(** The "pedestrian" comparison (Range.h:1499-1518), without the skip:
<<
    for (size_t j = 0;;) {
      assert(j < nsize);
      if (!eq(i[j], needle[j])) { ... break; }
      if (++j == nsize) { return size_t(i - haystack.begin()); }
    }
>>
    [true] is the [return], [false] the [break]. *)
Equations? matchFrom (haystack needle : list A) (i j : nat) : bool
    by wf (length needle - j) lt :=
  matchFrom haystack needle i j with inspect (needle !! j) := {
    | exist _ None _ => false
    | exist _ (Some y) Hy with haystack !! (i + j) := {
        | None => false
        | Some x =>
            if comp x y
            then if decide (S j = length needle) then true
                 else matchFrom haystack needle i (S j)
            else false } }.
Proof. apply lookup_lt_Some in Hy. lia. Qed.

(** The lazily computed skip value (Range.h:1505-1510):
<<
    skip = 1;
    while (skip <= nsize_1 && !eq(needle[nsize_1 - skip], lastNeedle)) {
      ++skip;
    }
>> *)
Equations? skipLoop (needle : list A) (nsize_1 : nat) (lastNeedle : A)
    (skip : nat) : nat by wf (S nsize_1 - skip) lt :=
  skipLoop needle nsize_1 lastNeedle skip with decide (skip <= nsize_1) := {
    | right _ => skip
    | left _ with needle !! (nsize_1 - skip) := {
        | None => skip
        | Some c =>
            if comp c lastNeedle then skip
            else skipLoop needle nsize_1 lastNeedle (S skip) } }.
Proof. lia. Qed.

(** [if (skip == 0) { skip = 1; while ... }]. *)
Definition lazySkip (needle : list A) (nsize_1 : nat) (lastNeedle : A)
    (skip : nat) : nat :=
  if decide (skip = 0) then skipLoop needle nsize_1 lastNeedle 1 else skip.

Lemma scanLast_range haystack nsize_1 lastNeedle i i1 :
  scanLast haystack nsize_1 lastNeedle i = Some i1 ->
  i <= i1 /\ i1 + nsize_1 < length haystack.
Proof.
  funelim (scanLast haystack nsize_1 lastNeedle i); try discriminate.
  destruct (comp c lastNeedle).
  - intros [= <-]. pose proof (lookup_lt_Some _ _ _ Hc). lia.
  - destruct (decide _); [discriminate|].
    intros Hs. apply H in Hs; [lia|done].
Qed.

Lemma skipLoop_ge needle nsize_1 lastNeedle skip :
  skip <= skipLoop needle nsize_1 lastNeedle skip.
Proof.
  funelim (skipLoop needle nsize_1 lastNeedle skip); try lia.
  destruct (comp c lastNeedle); lia.
Qed.

Lemma lazySkip_pos needle nsize_1 lastNeedle skip :
  0 < lazySkip needle nsize_1 lastNeedle skip.
Proof.
  unfold lazySkip. destruct (decide _); [|lia].
  pose proof (skipLoop_ge needle nsize_1 lastNeedle 1). lia.
Qed.

(** The outer loop of [qfind] (Range.h:1489-1527), on the loop state
    [(i, skip)]:
<<
    while (i < iEnd) {
      <scanLast>
      <matchFrom; on mismatch: i += skip; break>
    }
    return std::string::npos;
>> *)
Equations? qfind_loop (haystack needle : list A) (nsize_1 : nat)
    (lastNeedle : A) (i skip : nat) : option nat
    by wf (length haystack - i) lt :=
  qfind_loop haystack needle nsize_1 lastNeedle i skip
    with decide (i < length haystack - nsize_1) := {
    | right _ => None
    | left _ with inspect (scanLast haystack nsize_1 lastNeedle i) := {
        | exist _ None _ => None
        | exist _ (Some i1) Hscan =>
            if matchFrom haystack needle i1 0 then Some i1
            else qfind_loop haystack needle nsize_1 lastNeedle
                   (i1 + lazySkip needle nsize_1 lastNeedle skip)
                   (lazySkip needle nsize_1 lastNeedle skip) } }.
Proof.
  apply scanLast_range in Hscan.
  pose proof (lazySkip_pos needle nsize_1 lastNeedle skip). lia.
Qed.

(** [qfind] (Range.h:1475-1529). *)
Definition qfind (haystack needle : list A) : option nat :=
  let nsize := length needle in
  if decide (length haystack < nsize) then None
  else if decide (nsize = 0) then Some 0
  else
    let nsize_1 := nsize - 1 in
    match needle !! nsize_1 with
    | None => None
    | Some lastNeedle => qfind_loop haystack needle nsize_1 lastNeedle 0 0
    end.

End search.

(** ** Correctness of the search loops, for a comparator that decides
    equality *)
Section search_correct.
Context {A : Type}.
Variable comp : A -> A -> bool.
Hypothesis comp_eq : forall x y, comp x y = true <-> x = y.

(** The needle occurs in the haystack at position [i]. *)
Definition occurs_at (h n : list A) (i : nat) : Prop :=
  forall j y, n !! j = Some y -> h !! (i + j) = Some y.

Lemma comp_false x y : comp x y = false <-> x <> y.
Proof. rewrite <- comp_eq. by destruct (comp x y). Qed.

Lemma occurs_at_bound h n i j y :
  occurs_at h n i -> n !! j = Some y -> i + j < length h.
Proof. intros Ho Hj. by apply lookup_lt_Some with y, Ho. Qed.

Lemma matchFrom_true h n i j :
  matchFrom comp h n i j = true <->
  j < length n /\
  forall k y, j <= k -> n !! k = Some y -> h !! (i + k) = Some y.
Proof.
  funelim (matchFrom comp h n i j).
  - clear H. split; [done|]. intros [Hlt _].
    apply lookup_lt_is_Some_2 in Hlt as [z Hz]. congruence.
  - clear H0 Heqcall. pose proof (lookup_lt_Some _ _ _ Hy) as Hlt.
    destruct (comp x y) eqn:Hxy.
    + apply comp_eq in Hxy as ->.
      destruct (decide (S j = length needle)) as [Hj|Hj].
      * split; [intros _|done]. split; [done|]. intros k z Hk Hz.
        pose proof (lookup_lt_Some _ _ _ Hz).
        assert (k = j) as -> by lia. congruence.
      * rewrite (H Hj). split.
        -- intros [_ Hall]. split; [done|]. intros k z Hk Hz.
           destruct (decide (k = j)) as [->|]; [congruence|].
           apply Hall; [lia|done].
        -- intros [_ Hall]. split; [lia|]. intros k z Hk Hz.
           apply Hall; [lia|done].
    + apply comp_false in Hxy. split; [done|]. intros [_ Hall].
      specialize (Hall j y (le_n _) Hy). congruence.
  - clear H. split; [done|]. intros [_ Hall].
    specialize (Hall j y (le_n _) Hy). congruence.
Qed.

Lemma matchFrom_occurs h n i :
  n <> [] -> matchFrom comp h n i 0 = true <-> occurs_at h n i.
Proof.
  intros Hn. rewrite matchFrom_true. unfold occurs_at. split.
  - intros [_ Hall] j y Hj. apply Hall; [lia|done].
  - intros Ho. split; [destruct n; simpl; [done|lia]|].
    intros k y _ Hk. by apply Ho.
Qed.

Lemma scanLast_Some haystack nsize_1 lastNeedle i i1 :
  scanLast comp haystack nsize_1 lastNeedle i = Some i1 ->
  haystack !! (i1 + nsize_1) = Some lastNeedle /\
  forall k, i <= k < i1 -> haystack !! (k + nsize_1) <> Some lastNeedle.
Proof.
  funelim (scanLast comp haystack nsize_1 lastNeedle i); try done.
  clear H0 Heqcall. destruct (comp c lastNeedle) eqn:Hc'.
  - apply comp_eq in Hc' as ->. intros [= <-]. split; [done|lia].
  - apply comp_false in Hc'. destruct (decide _) as [|Hne]; [done|].
    intros Hs. destruct (H Hne _ Hs) as [Hl Hmin]. split; [done|].
    intros k Hk. destruct (decide (k = i)) as [->|]; [congruence|].
    apply Hmin. lia.
Qed.

Lemma scanLast_None haystack nsize_1 lastNeedle i :
  scanLast comp haystack nsize_1 lastNeedle i = None ->
  forall k, i <= k -> haystack !! (k + nsize_1) <> Some lastNeedle.
Proof.
  funelim (scanLast comp haystack nsize_1 lastNeedle i).
  - clear H0 Heqcall. destruct (comp c lastNeedle) eqn:Hc'; [done|].
    apply comp_false in Hc'. pose proof (lookup_lt_Some _ _ _ Hc) as Hlt.
    destruct (decide _) as [Hend|Hne].
    + intros _ k Hk. destruct (decide (k = i)) as [->|]; [congruence|].
      rewrite (proj2 (lookup_ge_None haystack (k + nsize_1))); [done|lia].
    + intros Hs k Hk. destruct (decide (k = i)) as [->|]; [congruence|].
      apply (H Hne Hs). lia.
  - clear H Heqcall. intros _ k Hk. apply lookup_ge_None_1 in e.
    rewrite (proj2 (lookup_ge_None haystack (k + nsize_1))); [done|lia].
Qed.

(** What [skipLoop] establishes about the positions it walked over. *)
Lemma skipLoop_spec needle nsize_1 lastNeedle skip :
  skip <= S nsize_1 ->
  skipLoop comp needle nsize_1 lastNeedle skip <= S nsize_1 /\
  forall k, skip <= k < skipLoop comp needle nsize_1 lastNeedle skip ->
    needle !! (nsize_1 - k) <> Some lastNeedle.
Proof.
  funelim (skipLoop comp needle nsize_1 lastNeedle skip); intros Hle;
    try (split; [lia|intros k Hk; lia]).
  clear Heqcall. destruct (comp c lastNeedle) eqn:Hc'.
  - split; [lia|]. intros k Hk. lia.
  - apply comp_false in Hc'. destruct H as [Hb Hall]; [lia|].
    split; [done|]. intros k Hk.
    destruct (decide (k = skip)) as [->|]; [congruence|].
    apply Hall. lia.
Qed.

(** The loop invariant on [skip]: zero (not computed yet) or a distance
    that jumps over no position where the last element could match. *)
Definition skip_ok (needle : list A) (nsize_1 : nat) (l : A) (skip : nat) :=
  skip <= S nsize_1 /\
  forall k, 0 < k < skip -> needle !! (nsize_1 - k) <> Some l.

Lemma lazySkip_ok needle nsize_1 l skip :
  skip_ok needle nsize_1 l skip ->
  skip_ok needle nsize_1 l (lazySkip comp needle nsize_1 l skip).
Proof.
  intros Hok. unfold lazySkip. destruct (decide _); [|done].
  destruct (skipLoop_spec needle nsize_1 l 1) as [Hb Hall]; [lia|].
  split; [done|]. intros k Hk. apply Hall. lia.
Qed.

(** The Boyer-Moore argument: after a mismatch at [i1] whose last element
    matched, no occurrence starts strictly between [i1] and [i1 + skip]. *)
Lemma skip_sound h needle nsize_1 l skip i1 k :
  length needle = S nsize_1 ->
  skip_ok needle nsize_1 l skip ->
  h !! (i1 + nsize_1) = Some l ->
  0 < k < skip ->
  ~ occurs_at h needle (i1 + k).
Proof.
  intros Hlen [Hb Hall] Hl Hk Ho.
  destruct (lookup_lt_is_Some_2 needle (nsize_1 - k)) as [y Hy]; [lia|].
  specialize (Ho _ _ Hy).
  replace (i1 + k + (nsize_1 - k)) with (i1 + nsize_1) in Ho by lia.
  apply (Hall k Hk). congruence.
Qed.

Lemma qfind_loop_spec haystack needle nsize_1 lastNeedle i skip :
  length needle = S nsize_1 ->
  needle !! nsize_1 = Some lastNeedle ->
  skip_ok needle nsize_1 lastNeedle skip ->
  (forall k, k < i -> ~ occurs_at haystack needle k) ->
  match qfind_loop comp haystack needle nsize_1 lastNeedle i skip with
  | Some r =>
      occurs_at haystack needle r /\
      forall k, k < r -> ~ occurs_at haystack needle k
  | None => forall k, ~ occurs_at haystack needle k
  end.
Proof.
  funelim (qfind_loop comp haystack needle nsize_1 lastNeedle i skip);
    intros Hlen Hlast Hok Hbelow;
    assert (needle <> []) as Hne by (by destruct needle).
  - (* i >= iEnd *)
    intros k Ho. destruct (decide (k < i)) as [|Hge]; [by eapply Hbelow|].
    pose proof (occurs_at_bound _ _ _ _ _ Ho Hlast). lia.
  - clear Heqcall Heq H0.
    destruct (scanLast_Some _ _ _ _ _ Hscan) as [Hl Hmin].
    assert (forall k, k < i1 -> ~ occurs_at haystack needle k) as Hbelow1.
    { intros k Hk Ho. destruct (decide (k < i)) as [|Hge]; [by eapply Hbelow|].
      apply (Hmin k); [lia|]. by apply Ho. }
    destruct (matchFrom comp haystack needle i1 0) eqn:Hm.
    + apply matchFrom_occurs in Hm; done.
    + apply H; [done|done|by apply lazySkip_ok|].
      intros k Hk Ho.
      destruct (decide (k < i1)) as [|Hge1]; [by eapply Hbelow1|].
      destruct (decide (k = i1)) as [->|Hne1].
      * apply matchFrom_occurs in Ho; [congruence|done].
      * replace k with (i1 + (k - i1)) in Ho by lia.
        refine (skip_sound _ _ _ _ _ _ _ Hlen (lazySkip_ok _ _ _ _ Hok)
                  Hl _ Ho). lia.
  - (* the scan for the last element ran to the end *)
    intros k Ho. destruct (decide (k < i)) as [|Hge]; [by eapply Hbelow|].
    apply (scanLast_None _ _ _ _ e k); [lia|]. by apply Ho.
Qed.

(** [qfind] returns the least position of an occurrence, and [npos]
    exactly when there is none. *)
Lemma qfind_spec h needle :
  match qfind comp h needle with
  | Some r => occurs_at h needle r /\ forall k, k < r -> ~ occurs_at h needle k
  | None => forall k, ~ occurs_at h needle k
  end.
Proof.
  unfold qfind. destruct (decide (length h < length needle)) as [Hlt|Hge].
  - intros k Ho. destruct needle as [|y needle] using rev_ind; [simpl in Hlt; lia|].
    rewrite length_app in Hlt. simpl in Hlt.
    assert ((needle ++ [y]) !! length needle = Some y) as Hy
      by (by rewrite lookup_app_r, Nat.sub_diag).
    pose proof (occurs_at_bound _ _ _ _ _ Ho Hy). lia.
  - destruct (decide (length needle = 0)) as [H0|Hpos].
    + split; [|lia]. intros j y Hj. apply lookup_lt_Some in Hj. lia.
    + destruct (needle !! (length needle - 1)) as [l|] eqn:Hl.
      * apply qfind_loop_spec; [lia|done| |lia].
        split; [lia|]. intros k Hk. lia.
      * apply lookup_ge_None in Hl. lia.
Qed.

End search_correct.

Section find.
Context {A : Type} `{EqDecision A}.

(** [std::equal_to<value_type>], the default comparator. *)
Definition equal_to (x y : A) : bool := bool_decide (x = y).

(** [Range::subpiece(first)] with the default [length = npos]
    (Range.h:822-828); [None] is the [std::out_of_range] it throws. *)
Definition subpiece (r : list A) (first : nat) : option (list A) :=
  if decide (length r < first) then None else Some (drop first r).

(** [Range::find(const_range_type str)] (Range.h:865-867). *)
Definition find (r str : list A) : option nat := qfind equal_to r str.

(** [Range::find(const_range_type str, size_t pos)] (Range.h:869-875). *)
Definition find_pos (r str : list A) (pos : nat) : option nat :=
  if decide (length r < pos) then None
  else
    match subpiece r pos with
    | None => None
    | Some sub =>
        match qfind equal_to sub str with
        | None => None
        | Some ret => Some (ret + pos)
        end
    end.

(** ** The naive scan [find] is compared with

    Follows the specification's words: try every start position from
    left to right and return the first one at which the needle is read
    off the haystack. *)
Fixpoint starts_with (h n : list A) {struct n} : bool :=
  match n, h with
  | [], _ => true
  | y :: n', x :: h' => bool_decide (x = y) && starts_with h' n'
  | _ :: _, [] => false
  end.

Fixpoint naive_find (h n : list A) : option nat :=
  if starts_with h n then Some 0
  else match h with
       | [] => None
       | _ :: h' => S <$> naive_find h' n
       end.

Lemma starts_with_occurs (h n : list A) :
  starts_with h n = true <-> occurs_at h n 0.
Proof.
  unfold occurs_at. revert h; induction n as [|y n IH]; intros h; simpl.
  - split; [intros _ j z Hj; by rewrite lookup_nil in Hj | done].
  - destruct h as [|x h].
    + split; [done|]. intros Ho. by specialize (Ho 0 y eq_refl).
    + rewrite andb_true_iff, bool_decide_eq_true, IH. split.
      * intros [-> Ho] [|j] z Hj; simpl in *; [done|]. by apply Ho.
      * intros Ho. split.
        -- specialize (Ho 0 y eq_refl). by injection Ho.
        -- intros j z Hj. by apply (Ho (S j)).
Qed.

Lemma occurs_at_S (x : A) (h n : list A) i :
  occurs_at (x :: h) n (S i) <-> occurs_at h n i.
Proof. unfold occurs_at. split; intros Ho j y Hj; by apply (Ho j y). Qed.

(** [naive_find] returns the least position of an occurrence. *)
Lemma naive_find_Some (h n : list A) i :
  naive_find h n = Some i ->
  occurs_at h n i /\ forall k, k < i -> ~ occurs_at h n k.
Proof.
  revert i; induction h as [|x h IH]; intros i; simpl.
  - destruct (starts_with [] n) eqn:Hs; [|done].
    intros [= <-]. split; [by apply starts_with_occurs|lia].
  - destruct (starts_with (x :: h) n) eqn:Hs.
    + intros [= <-]. split; [by apply starts_with_occurs|lia].
    + destruct (naive_find h n) as [i'|] eqn:Hn; [|done].
      intros [= <-]. destruct (IH i' eq_refl) as [Ho Hmin]. split.
      * by apply occurs_at_S.
      * intros [|k] Hk.
        -- rewrite <- starts_with_occurs. by rewrite Hs.
        -- rewrite occurs_at_S. apply Hmin. lia.
Qed.

Lemma naive_find_None (h n : list A) :
  naive_find h n = None -> forall k, ~ occurs_at h n k.
Proof.
  induction h as [|x h IH]; simpl.
  - destruct (starts_with [] n) eqn:Hs; [done|]. intros _ k Ho.
    assert (occurs_at [] n 0) as Ho0.
    { intros j y Hj. specialize (Ho j y Hj). by rewrite lookup_nil in Ho. }
    apply starts_with_occurs in Ho0. by rewrite Hs in Ho0.
  - destruct (starts_with (x :: h) n) eqn:Hs; [done|].
    destruct (naive_find h n) as [i'|] eqn:Hn; [done|].
    intros _ [|k].
    + rewrite <- starts_with_occurs. by rewrite Hs.
    + rewrite occurs_at_S. by apply IH.
Qed.

Lemma equal_to_eq (x y : A) : equal_to x y = true <-> x = y.
Proof. apply bool_decide_eq_true. Qed.

Lemma find_spec (haystack needle : list A) :
  match find haystack needle with
  | Some r =>
      occurs_at haystack needle r /\
      forall k, k < r -> ~ occurs_at haystack needle k
  | None => forall k, ~ occurs_at haystack needle k
  end.
Proof. apply qfind_spec, equal_to_eq. Qed.

Lemma find_naive_find (haystack needle : list A) :
  find haystack needle = naive_find haystack needle.
Proof.
  pose proof (find_spec haystack needle) as Hq.
  destruct (find haystack needle) as [r|] eqn:Hf;
    destruct (naive_find haystack needle) as [r'|] eqn:Hn; [|exfalso..|done].
  - destruct Hq as [Ho Hmin].
    destruct (naive_find_Some _ _ _ Hn) as [Ho' Hmin'].
    destruct (Nat.lt_trichotomy r r') as [Hlt|[->|Hlt]]; [|done|].
    + by destruct (Hmin' r).
    + by destruct (Hmin r').
  - destruct Hq as [Ho _]. by destruct (naive_find_None _ _ Hn r).
  - destruct (naive_find_Some _ _ _ Hn) as [Ho' _]. by destruct (Hq r').
Qed.

(** C7.  For every haystack and needle, [find(sub)] (the Boyer-Moore
    flavoured [qfind] with the default comparator) returns the index the
    naive left-to-right scan returns; for the empty needle it returns 0,
    and for a needle longer than the haystack it returns [npos]. *)
Theorem find_agrees_with_naive_scan (haystack needle : list A) :
  find haystack needle = naive_find haystack needle
  /\ find haystack [] = Some 0
  /\ (length haystack < length needle -> find haystack needle = None).
Proof.
  split; [apply find_naive_find|]. split; [done|].
  intros Hlt. unfold find, qfind. by rewrite decide_True.
Qed.

End find.

(** ** Mutation helpers on writable ranges *)

(** What a call on a writable range does: return a value, throw, or
    leave the range with a write (undefined behaviour in C++). *)
Inductive exn : Type := out_of_range | invalid_argument.

Inductive outcome (T : Type) : Type :=
| Returns (v : T)
| Throws (e : exn)
| WriteOutsideRange.
Arguments Returns {T} v.
Arguments Throws {T} e.
Arguments WriteOutsideRange {T}.

(** [size_t] addition: 64 bits, wrapping. *)
Definition size_add (a b : N) : N := ((a + b) mod 2 ^ 64)%N.

Section mutate.
Context {A : Type} `{EqDecision A}.

(** [std::copy(first, last, d_first)] with [d_first = begin() + d]:
    element after element, each write checked against the range.  [None]
    when a write falls outside [[begin(), end())]. *)
Fixpoint std_copy (src r : list A) (d : N) : option (list A) :=
  match src with
  | [] => Some r
  | x :: src' =>
      if decide (d < N.of_nat (length r))%N
      then std_copy src' (<[N.to_nat d := x]> r) (d + 1)%N
      else None
  end.

(** [Range::replaceAt] (Range.h:1087-1095).  The result pairs the
    returned [bool] with the contents of the range afterwards. *)
Definition replaceAt (r : list A) (pos : N) (replacement : list A)
    : outcome (bool * list A) :=
  if decide (N.of_nat (length r)
             < size_add pos (N.of_nat (length replacement)))%N
  then Returns (false, r)
  else match std_copy replacement r pos with
       | Some r' => Returns (true, r')
       | None => WriteOutsideRange
       end.

Lemma std_copy_length src r d r' :
  std_copy src r d = Some r' -> length r' = length r.
Proof.
  revert r d; induction src as [|x src IH]; intros r d; simpl.
  - by intros [= <-].
  - destruct (decide _); [|done]. intros Hc%IH.
    by rewrite length_insert in Hc.
Qed.

(** Inside the range [std_copy] overwrites exactly the window
    [[d, d + |src|)]. *)
Lemma std_copy_fits src r d :
  d + length src <= length r ->
  std_copy src r (N.of_nat d) =
    Some (take d r ++ src ++ drop (d + length src) r).
Proof.
  revert r d; induction src as [|x src IH]; intros r d Hfit; simpl in *.
  - by rewrite Nat.add_0_r, take_drop.
  - destruct (decide _) as [_|Hge]; [|lia].
    rewrite Nat2N.id.
    replace (N.of_nat d + 1)%N with (N.of_nat (S d)) by lia.
    rewrite IH by (rewrite length_insert; lia). f_equal.
    rewrite insert_take_drop by lia.
    assert (length (take d r) = d) as Hd by (rewrite length_take_le; lia).
    replace (S d + length src) with (d + S (length src)) by lia.
    replace (take (S d)) with (take (A:=A) (d + 1))
      by (f_equal; lia).
    rewrite (take_app_add' (take d r) _ d 1 (eq_sym Hd)).
    rewrite (drop_app_add' (take d r) _ d _ (eq_sym Hd)).
    simpl. rewrite take_0, drop_drop, <- app_assoc. simpl.
    by rewrite Nat.add_succ_r.
Qed.

(** The contents the specification describes: the window
    [[pos, pos + |x|)] of [r] overwritten with [x]. *)
Definition overwrite (r : list A) (pos : nat) (x : list A) : list A :=
  take pos r ++ x ++ drop (pos + length x) r.

Lemma overwrite_length r pos x :
  pos + length x <= length r -> length (overwrite r pos x) = length r.
Proof.
  intros Hfit. unfold overwrite.
  rewrite !length_app, length_take_le, length_drop by lia. lia.
Qed.

Lemma overwrite_lookup r pos x i :
  pos + length x <= length r ->
  overwrite r pos x !! i =
    if decide (pos <= i < pos + length x) then x !! (i - pos) else r !! i.
Proof.
  intros Hfit. unfold overwrite.
  assert (length (take pos r) = pos) as Hp by (rewrite length_take_le; lia).
  destruct (decide (i < pos)) as [Hlt|Hge].
  - rewrite lookup_app_l, lookup_take_lt by lia.
    destruct (decide _); [lia|done].
  - rewrite lookup_app_r, Hp by lia.
    destruct (decide (i - pos < length x)) as [Hin|Hout].
    + rewrite lookup_app_l by lia. destruct (decide _); [done|lia].
    + rewrite lookup_app_r, lookup_drop by lia.
      destruct (decide _); [lia|]. f_equal. lia.
Qed.

(** [replaceAt] when [pos + replacement.size()] does not wrap. *)
Lemma replaceAt_no_wrap r pos replacement :
  (pos + N.of_nat (length replacement) < 2 ^ 64)%N ->
  replaceAt r pos replacement =
    if decide (N.of_nat (length r) < pos + N.of_nat (length replacement))%N
    then Returns (false, r)
    else Returns (true, overwrite r (N.to_nat pos) replacement).
Proof.
  intros Hno. unfold replaceAt, size_add. rewrite N.mod_small by done.
  destruct (decide _) as [|Hfit]; [done|].
  rewrite <- (N2Nat.id pos) at 1. by rewrite std_copy_fits by lia.
Qed.

Lemma replaceAt_length r pos replacement b r' :
  replaceAt r pos replacement = Returns (b, r') -> length r' = length r.
Proof.
  unfold replaceAt. destruct (decide _); [by intros [= _ <-]|].
  destruct (std_copy _ _ _) as [r''|] eqn:Hc; [|done].
  intros [= _ <-]. by eapply std_copy_length.
Qed.

Lemma find_pos_range (r str : list A) pos found :
  find_pos r str pos = Some found -> pos <= length r.
Proof. unfold find_pos. destruct (decide _); [done|lia]. Qed.

(** The loop of [Range::replaceAll] (Range.h:1121-1128), on the state
    [(contents, pos, num_replaced)]:
<<
    while ((found = find(source, pos)) != std::string::npos) {
      replaceAt(found, dest);
      pos += source.size();
      ++num_replaced;
    }
>>
    The loop is entered with a non-empty [source] only ([Hsrc]): the
    guards before it return or throw otherwise. *)
Equations? replaceAll_loop (source dest : list A)
    (Hsrc : length source <> 0) (r : list A) (pos num_replaced : nat)
    : outcome (nat * list A) by wf (S (length r) - pos) lt :=
  replaceAll_loop source dest Hsrc r pos num_replaced
    with inspect (find_pos r source pos) := {
    | exist _ None _ => Returns (num_replaced, r)
    | exist _ (Some found) Hfound
        with inspect (replaceAt r (N.of_nat found) dest) := {
        | exist _ (Returns (_, r')) Hrep =>
            replaceAll_loop source dest Hsrc r'
              (pos + length source) (S num_replaced)
        | exist _ (Throws e) _ => Throws e
        | exist _ WriteOutsideRange _ => WriteOutsideRange } }.
Proof.
  apply replaceAt_length in Hrep. apply find_pos_range in Hfound. lia.
Qed.

(** [Range::replaceAll] (Range.h:1111-1131): the number of replacements
    it returns, paired with the contents of the range afterwards. *)
Definition replaceAll (r source dest : list A) : outcome (nat * list A) :=
  match decide (length source = length dest) with
  | right _ => Throws invalid_argument
  | left Hsize =>
      match decide (length dest = 0) with
      | left _ => Returns (0, r)
      | right Hdest =>
          replaceAll_loop source dest
            (eq_ind_r (fun n => n <> 0) Hdest Hsize) r 0 0
      end
  end.

(** ** The replacement the specification describes

    Follows the specification's words: the occurrences of [source] are
    taken from left to right without overlap (the search resumes right
    after the occurrence just rewritten), each is rewritten to [dest], and
    the result counts them. *)
Equations? seq_replace (source dest : list A) (Hsrc : length source <> 0)
    (r : list A) : nat * list A by wf (length r) lt :=
  seq_replace source dest Hsrc r with inspect (naive_find r source) := {
    | exist _ None _ => (0, r)
    | exist _ (Some k) Hk =>
        (S (seq_replace source dest Hsrc (drop (k + length source) r)).1,
         take k r ++ dest ++
         (seq_replace source dest Hsrc (drop (k + length source) r)).2) }.
Proof.
  all: apply naive_find_Some in Hk as [Ho _];
    destruct source as [|y source]; [done|];
    pose proof (occurs_at_bound _ _ _ 0 y Ho eq_refl);
    rewrite length_drop; simpl; lia.
Qed.

Definition replaceAll_spec (r source dest : list A)
    : outcome (nat * list A) :=
  match decide (length source = length dest) with
  | right _ => Throws invalid_argument
  | left Hsize =>
      match decide (length dest = 0) with
      | left _ => Returns (0, r)
      | right Hdest =>
          Returns (seq_replace source dest
                     (eq_ind_r (fun n => n <> 0) Hdest Hsize) r)
      end
  end.

(** *** [replaceAll] stays inside the range and returns *)

Lemma find_pos_Some (r str : list A) pos found :
  str <> [] ->
  find_pos r str pos = Some found ->
  pos <= found /\ found + length str <= length r.
Proof.
  intros Hstr. unfold find_pos, subpiece.
  destruct (decide _) as [|Hpos]; [done|].
  pose proof (find_spec (drop pos r) str) as Hq. unfold find in Hq.
  destruct (qfind equal_to (drop pos r) str) as [ret|]; [|done].
  intros [= <-]. destruct Hq as [Ho _]. split; [lia|].
  destruct str as [|y str] using rev_ind; [done|].
  assert ((str ++ [y]) !! length str = Some y) as Hy
    by (by rewrite lookup_app_r, Nat.sub_diag).
  pose proof (occurs_at_bound _ _ _ _ _ Ho Hy) as Hb.
  rewrite length_drop in Hb. rewrite length_app. simpl. lia.
Qed.

Lemma replaceAll_loop_returns source dest Hsrc r pos num_replaced :
  length source = length dest ->
  (N.of_nat (length r) < 2 ^ 64)%N ->
  exists n r',
    replaceAll_loop source dest Hsrc r pos num_replaced = Returns (n, r')
    /\ length r' = length r /\ num_replaced <= n.
Proof.
  funelim (replaceAll_loop source dest Hsrc r pos num_replaced);
    intros Hsize Hr; clear Heqcall.
  - eauto.
  - pose proof (replaceAt_length _ _ _ _ _ Hrep) as Hlen.
    destruct (H Hsize) as (n & r'' & Hloop & Hlen' & Hn); [by rewrite Hlen|].
    exists n, r''. split; [done|]. split; [congruence|lia].
  - exfalso. clear H H0.
    apply find_pos_Some in Hfound as [_ Hfit]; [|by destruct source].
    rewrite replaceAt_no_wrap in e1 by lia. by destruct (decide _).
  - exfalso. clear H H0.
    apply find_pos_Some in Hfound as [_ Hfit]; [|by destruct source].
    rewrite replaceAt_no_wrap in e by lia. by destruct (decide _).
Qed.

(** [replaceAt] as its doc comment describes it, when
    [pos + replacement.size()] does not exceed [size_t]: it returns
    [false] and leaves the range as it is exactly when the replacement
    does not fit, and otherwise returns [true] having overwritten the
    window [[pos, pos + |x|)] and nothing else. *)
Theorem replaceAt_contract r pos x :
  (pos + N.of_nat (length x) < 2 ^ 64)%N ->
  (replaceAt r pos x = Returns (false, r)
   <-> (N.of_nat (length r) < pos + N.of_nat (length x))%N)
  /\ ((pos + N.of_nat (length x) <= N.of_nat (length r))%N ->
      exists r',
        replaceAt r pos x = Returns (true, r')
        /\ length r' = length r
        /\ forall i,
             r' !! i =
               if decide (N.to_nat pos <= i < N.to_nat pos + length x)
               then x !! (i - N.to_nat pos) else r !! i).
Proof.
  intros Hno. rewrite replaceAt_no_wrap by done. split.
  - destruct (decide _) as [Hlt|Hfit]; [done|]. split; [done|lia].
  - intros Hfit. rewrite decide_False by lia.
    exists (overwrite r (N.to_nat pos) x). split; [done|].
    split; [apply overwrite_length; lia|].
    intros i. apply overwrite_lookup. lia.
Qed.

(** [replaceAll] throws [std::invalid_argument] when the sizes differ;
    otherwise it returns, having kept the size of the range (and the
    range itself when [source] and [dest] are empty). *)
Theorem replaceAll_returns r source dest :
  (N.of_nat (length r) < 2 ^ 64)%N ->
  (length source <> length dest ->
   replaceAll r source dest = Throws invalid_argument)
  /\ (length source = length dest ->
      exists n r',
        replaceAll r source dest = Returns (n, r')
        /\ length r' = length r
        /\ (dest = [] -> n = 0 /\ r' = r)).
Proof.
  intros Hr. unfold replaceAll. split.
  - intros Hne. by destruct (decide _).
  - intros Hsize. destruct (decide _) as [Hsize'|]; [|done].
    destruct (decide (length dest = 0)) as [Hdest|Hdest].
    + by exists 0, r.
    + destruct (replaceAll_loop_returns source dest
                  (eq_ind_r (fun n => n <> 0) Hdest Hsize') r 0 0 Hsize Hr)
        as (n & r' & -> & Hlen & _).
      exists n, r'. split; [done|]. split; [done|].
      intros ->. done.
Qed.

End mutate.

(** ** Prefixes, suffixes and destructive splitting *)

Section views.
Context {A : Type} `{EqDecision A}.

(** [Range::subpiece(first, length)] (Range.h:822-828): the window is
    [std::min(length, size() - first)] long; [None] is the
    [std::out_of_range] it throws. *)
Definition subpiece_length (r : list A) (first len : nat)
    : option (list A) :=
  if decide (length r < first) then None
  else Some (take (len `min` (length r - first)) (drop first r)).

(** [operator==] (Range.h:1353-1373): equal sizes, then the elements one
    by one ([memcmp] for integral elements). *)
Definition range_eq (lhs rhs : list A) : bool :=
  if decide (length lhs <> length rhs) then false
  else forallb (fun p => bool_decide (p.1 = p.2)) (zip lhs rhs).

(** [Range::startsWith(const const_range_type&)] (Range.h:968-971). *)
Definition startsWith (r other : list A) : outcome bool :=
  if decide (length other <= length r)
  then match subpiece_length r 0 (length other) with
       | Some trunc => Returns (range_eq trunc other)
       | None => Throws out_of_range
       end
  else Returns false.

(** [Range::endsWith(const const_range_type&)] (Range.h:1001-1004). *)
Definition endsWith (r other : list A) : outcome bool :=
  if decide (length other <= length r)
  then match subpiece r (length r - length other) with
       | Some trunc => Returns (range_eq trunc other)
       | None => Throws out_of_range
       end
  else Returns false.

(** [Range::removePrefix] and [Range::removeSuffix] (Range.h:1055-1068):
    the returned [bool] paired with the range afterwards
    ([b_ += prefix.size()], [e_ -= suffix.size()]). *)
Definition removePrefix (r prefix : list A) : outcome (bool * list A) :=
  match startsWith r prefix with
  | Returns true => Returns (true, drop (length prefix) r)
  | Returns false => Returns (false, r)
  | Throws e => Throws e
  | WriteOutsideRange => WriteOutsideRange
  end.

Definition removeSuffix (r suffix : list A) : outcome (bool * list A) :=
  match endsWith r suffix with
  | Returns true => Returns (true, take (length r - length suffix) r)
  | Returns false => Returns (false, r)
  | Throws e => Throws e
  | WriteOutsideRange => WriteOutsideRange
  end.

(** [std::find(first, last, value)]: the position of the first element
    equal to [value], the position of [last] when there is none. *)
Fixpoint std_find (l : list A) (value : A) : nat :=
  match l with
  | [] => 0
  | x :: l' => if decide (x = value) then 0 else S (std_find l' value)
  end.

(** [qfind(haystack, needle)] for one element (Range.h:1573-1579; the
    specialization for characters calls [memchr]), and
    [Range::find(const value_type&)] (Range.h:901). *)
Definition qfind_value (haystack : list A) (needle : A) : option nat :=
  let pos := std_find haystack needle in
  if decide (pos = length haystack) then None else Some pos.

Definition find_value (r : list A) (c : A) : option nat := qfind_value r c.

(** [Range::split_step(const value_type&)] (Range.h:1162-1169): the
    range it returns, paired with the range afterwards. *)
Definition split_step (r : list A) (delimiter : A) : list A * list A :=
  let i := find_value r delimiter in
  let n := match i with None => length r | Some i => i end in
  let result := take n r in
  (result, if decide (n = length r) then [] else drop (S n) r).

(** [Range::split_step(Range)] (Range.h:1171-1180). *)
Definition split_step_range (r delimiter : list A) : list A * list A :=
  let i := find r delimiter in
  let n := match i with None => length r | Some i => i end in
  let result := take n r in
  (result,
   if decide (n = length r) then [] else drop (n + length delimiter) r).

Lemma zip_eq (lhs rhs : list A) :
  length lhs = length rhs ->
  forallb (fun p => bool_decide (p.1 = p.2)) (zip lhs rhs) = true
  <-> lhs = rhs.
Proof.
  revert rhs; induction lhs as [|x lhs IH]; intros [|y rhs] Hlen;
    simpl in *; try done.
  rewrite andb_true_iff, bool_decide_eq_true, IH by lia.
  split; [by intros [-> ->]|by intros [= -> ->]].
Qed.

Lemma range_eq_true (lhs rhs : list A) : range_eq lhs rhs = true <-> lhs = rhs.
Proof.
  unfold range_eq. destruct (decide _) as [Hne|Heq].
  - split; [done|]. by intros ->.
  - apply zip_eq. by destruct (decide (length lhs = length rhs)).
Qed.

Lemma range_eq_decide (lhs rhs : list A) :
  range_eq lhs rhs = bool_decide (lhs = rhs).
Proof.
  destruct (range_eq lhs rhs) eqn:Heq; symmetry.
  - by apply bool_decide_eq_true_2, range_eq_true.
  - apply bool_decide_eq_false_2. intros Hl%range_eq_true. congruence.
Qed.

Lemma std_find_le (l : list A) value : std_find l value <= length l.
Proof. induction l as [|x l IH]; simpl; [done|]. destruct (decide _); lia. Qed.

Lemma std_find_before (l : list A) value :
  value ∉ take (std_find l value) l.
Proof.
  induction l as [|x l IH]; simpl; [by apply not_elem_of_nil|].
  destruct (decide _) as [|Hne]; simpl; [by apply not_elem_of_nil|].
  apply not_elem_of_cons. split; [congruence|done].
Qed.

Lemma std_find_at (l : list A) value :
  std_find l value < length l -> l !! std_find l value = Some value.
Proof.
  induction l as [|x l IH]; simpl; [lia|].
  destruct (decide _) as [->|Hne]; simpl; [done|]. intros Hlt. apply IH. lia.
Qed.

Lemma find_pos_0 (r str : list A) : find_pos r str 0 = find r str.
Proof.
  unfold find_pos, subpiece, find. rewrite !decide_False by lia.
  rewrite drop_0. destruct (qfind _ _ _); [by rewrite Nat.add_0_r|done].
Qed.

Lemma startsWith_decides (r other : list A) :
  startsWith r other = Returns (bool_decide (other `prefix_of` r)).
Proof.
  unfold startsWith, subpiece_length.
  destruct (decide (length other <= length r)) as [Hle|Hgt].
  - rewrite decide_False by lia. f_equal.
    rewrite Nat.sub_0_r, Nat.min_l, drop_0 by lia.
    rewrite range_eq_decide. apply bool_decide_ext. split.
    + intros <-. apply prefix_take.
    + intros [k ->]. by rewrite take_app_length.
  - f_equal. symmetry. apply bool_decide_eq_false_2.
    intros Hp%prefix_length. lia.
Qed.

Lemma endsWith_decides (r other : list A) :
  endsWith r other = Returns (bool_decide (other `suffix_of` r)).
Proof.
  unfold endsWith, subpiece.
  destruct (decide (length other <= length r)) as [Hle|Hgt].
  - rewrite decide_False by lia. f_equal.
    rewrite range_eq_decide. apply bool_decide_ext. split.
    + intros <-. apply suffix_drop.
    + intros [k ->]. rewrite length_app.
      replace (length k + length other - length other) with (length k)
        by lia.
      by rewrite drop_app_length.
  - f_equal. symmetry. apply bool_decide_eq_false_2.
    intros Hp%suffix_length. lia.
Qed.

Lemma occurs_at_take_drop (h n : list A) i :
  occurs_at h n i -> take (length n) (drop i h) = n.
Proof.
  intros Ho. apply list_eq. intros j.
  destruct (decide (j < length n)) as [Hlt|Hge].
  - rewrite lookup_take_lt, lookup_drop by lia.
    destruct (lookup_lt_is_Some_2 n j Hlt) as [y Hy]. rewrite Hy.
    by apply Ho.
  - rewrite lookup_take_ge by lia. symmetry. apply lookup_ge_None_2. lia.
Qed.

(** [startsWith] and [endsWith] return, and agree with prefix and suffix
    equality. *)
Theorem startsWith_endsWith_agree (r other : list A) :
  startsWith r other = Returns (bool_decide (other `prefix_of` r))
  /\ endsWith r other = Returns (bool_decide (other `suffix_of` r)).
Proof. split; [apply startsWith_decides|apply endsWith_decides]. Qed.

(** [removePrefix] returns [true] and drops the prefix when the range
    starts with it, and returns [false] and leaves the range as it is
    otherwise; likewise [removeSuffix]. *)
Theorem removePrefix_removeSuffix_spec (r x : list A) :
  (removePrefix r x
   = Returns (if decide (x `prefix_of` r)
              then (true, drop (length x) r) else (false, r))
   /\ (x `prefix_of` r -> r = x ++ drop (length x) r))
  /\ (removeSuffix r x
      = Returns (if decide (x `suffix_of` r)
                 then (true, take (length r - length x) r) else (false, r))
      /\ (x `suffix_of` r -> r = take (length r - length x) r ++ x)).
Proof.
  unfold removePrefix, removeSuffix.
  rewrite startsWith_decides, endsWith_decides. split; split.
  - destruct (decide _); [by rewrite bool_decide_eq_true_2
                         |by rewrite bool_decide_eq_false_2].
  - intros [k ->]. by rewrite drop_app_length.
  - destruct (decide _); [by rewrite bool_decide_eq_true_2
                         |by rewrite bool_decide_eq_false_2].
  - intros [k ->]. rewrite length_app.
    replace (length k + length x - length x) with (length k) by lia.
    by rewrite take_app_length.
Qed.

(** [split_step] on an element: the range returned is the part before
    the first delimiter and the range continues right after it; without
    a delimiter the whole range is returned and the range is left
    empty. *)
Theorem split_step_spec (r : list A) (delimiter : A) :
  (delimiter ∉ (split_step r delimiter).1)
  /\ match find_value r delimiter with
     | Some i =>
         length (split_step r delimiter).1 = i
         /\ r = (split_step r delimiter).1
                ++ delimiter :: (split_step r delimiter).2
     | None => (delimiter ∉ r) /\ split_step r delimiter = (r, [])
     end.
Proof.
  unfold split_step, find_value, qfind_value. simpl.
  pose proof (std_find_le r delimiter) as Hle.
  pose proof (std_find_before r delimiter) as Hbefore.
  pose proof (std_find_at r delimiter) as Hat.
  destruct (decide (std_find r delimiter = length r)) as [Hend|Hin].
  - rewrite decide_True by done. rewrite Hend in Hbefore.
    rewrite take_ge in * by lia. done.
  - rewrite decide_False by done. split; [done|].
    split; [rewrite length_take_le; lia|].
    symmetry. apply take_drop_middle, Hat. lia.
Qed.

(** [split_step] on a delimiter range, likewise. *)
Theorem split_step_range_spec (r delimiter : list A) :
  match find r delimiter with
  | Some i =>
      length (split_step_range r delimiter).1 = i
      /\ r = (split_step_range r delimiter).1 ++ delimiter
             ++ (split_step_range r delimiter).2
  | None => split_step_range r delimiter = (r, [])
  end.
Proof.
  unfold split_step_range.
  pose proof (find_spec r delimiter) as Hspec.
  pose proof (find_pos_Some r delimiter 0) as Hpos.
  rewrite find_pos_0 in Hpos.
  destruct (find r delimiter) as [i|] eqn:Hfind; simpl.
  - destruct Hspec as [Ho _].
    destruct delimiter as [|y delimiter].
    + assert (i = 0) as -> by (unfold find, qfind in Hfind; by simplify_eq/=).
      rewrite take_0. split; [done|].
      destruct (decide _) as [Hr|_]; simpl; [by destruct r|].
      by rewrite drop_0.
    + destruct (Hpos i) as [_ Hfit]; [done|done|].
      simpl in Hfit.
      rewrite decide_False by lia. split; [rewrite length_take_le; lia|].
      rewrite <- (take_drop i r) at 1. f_equal.
      rewrite <- (take_drop (length (y :: delimiter)) (drop i r)) at 1.
      by rewrite (occurs_at_take_drop _ _ _ Ho), drop_drop.
  - rewrite decide_True by done. by rewrite take_ge.
Qed.

End views.

(** ** Ordering *)

Section ordering.
Local Open Scope Z_scope.

(** [range_traits_fbck_::compare] (Range.h:212-226), the element by
    element comparison, on integer elements:
<<
    while (c--) {
      if (ai < bi) return -1;
      if (bi < ai) return +1;
    }
    return 0;
>> *)
Fixpoint traits_compare (a b : list Z) (c : nat) : Z :=
  match c, a, b with
  | S c, ai :: a, bi :: b =>
      if ai <? bi then -1
      else if bi <? ai then 1
      else traits_compare a b c
  | _, _, _ => 0
  end.

(** The sign of [osize - tsize], computed in [size_t]:
    [(static_cast<int>((osize - tsize) >> 63) << 1) - 1]. *)
Definition size_sign (tsize osize : Z) : Z :=
  Z.shiftl (Z.shiftr ((osize - tsize) mod 2 ^ 64) 63) 1 - 1.

(** [Range::compare] (Range.h:765-778). *)
Definition compare (t o : list Z) : Z :=
  let tsize := Z.of_nat (length t) in
  let osize := Z.of_nat (length o) in
  let msize := (length t `min` length o)%nat in
  let r := traits_compare t o msize in
  if (r =? 0) && negb (tsize =? osize) then size_sign tsize osize else r.

(** The lexicographic order. *)
Fixpoint lex_lt (a b : list Z) : Prop :=
  match a, b with
  | _, [] => False
  | [], _ :: _ => True
  | x :: a, y :: b => x < y \/ (x = y /\ lex_lt a b)
  end.

Lemma lex_lt_trans a b c : lex_lt a b -> lex_lt b c -> lex_lt a c.
Proof.
  revert b c; induction a as [|x a IH]; intros [|y b] [|z c]; simpl;
    try done.
  intros [Hxy|[-> Hab]] [Hyz|[-> Hbc]]; [left; lia|by left|by left|].
  right. split; [done|]. by eapply IH.
Qed.

Lemma lex_lt_irrefl a : ~ lex_lt a a.
Proof.
  induction a as [|x a IH]; simpl; [tauto|]. intros [?|[_ ?]]; [lia|done].
Qed.

Lemma size_sign_spec tsize osize :
  0 <= tsize < 2 ^ 63 -> 0 <= osize < 2 ^ 63 -> tsize <> osize ->
  size_sign tsize osize = if osize <? tsize then 1 else -1.
Proof.
  intros Ht Ho Hne. unfold size_sign.
  rewrite Z.shiftl_mul_pow2, Z.shiftr_div_pow2 by lia.
  destruct (Z.ltb_spec osize tsize) as [Hlt|Hge].
  - replace ((osize - tsize) mod 2 ^ 64) with (2 ^ 64 + osize - tsize)
      by (apply Z.mod_unique with (q := -1); lia).
    replace ((2 ^ 64 + osize - tsize) / 2 ^ 63) with 1
      by (apply Z.div_unique with (r := 2 ^ 63 + osize - tsize); lia).
    done.
  - rewrite Z.mod_small by lia. rewrite Z.div_small by lia. done.
Qed.

Lemma compare_nil_l b :
  Z.of_nat (length b) < 2 ^ 63 ->
  compare [] b = if decide (b = []) then 0 else -1.
Proof.
  intros Hb. unfold compare. cbn [length Nat.min traits_compare].
  destruct b as [|y b]; [done|]. rewrite decide_False by done.
  cbn [length] in *.
  destruct (Z.eqb_spec (Z.of_nat 0) (Z.of_nat (S (length b)))) as [Heq|Hne];
    [lia|].
  change (0 =? 0) with true. cbn [andb negb].
  rewrite size_sign_spec by lia.
  destruct (Z.ltb_spec (Z.of_nat (S (length b))) (Z.of_nat 0)); [lia|done].
Qed.

Lemma compare_nil_r a :
  Z.of_nat (length a) < 2 ^ 63 ->
  compare a [] = if decide (a = []) then 0 else 1.
Proof.
  intros Ha. unfold compare. rewrite Nat.min_0_r.
  cbn [length traits_compare].
  destruct a as [|x a]; [done|]. rewrite decide_False by done.
  cbn [length] in *.
  destruct (Z.eqb_spec (Z.of_nat (S (length a))) (Z.of_nat 0)) as [Heq|Hne];
    [lia|].
  change (0 =? 0) with true. cbn [andb negb].
  rewrite size_sign_spec by lia.
  destruct (Z.ltb_spec (Z.of_nat 0) (Z.of_nat (S (length a)))); [done|lia].
Qed.

Lemma compare_cons x a y b :
  compare (x :: a) (y :: b) =
    if x <? y then -1 else if y <? x then 1 else compare a b.
Proof.
  unfold compare. simpl length. rewrite Nat.min_comm. simpl Nat.min.
  rewrite Nat.min_comm. simpl traits_compare.
  destruct (x <? y); [done|]. destruct (y <? x); [done|].
  replace (Z.of_nat (S (length a)) =? Z.of_nat (S (length b)))
    with (Z.of_nat (length a) =? Z.of_nat (length b))
    by (destruct (Z.eqb_spec (Z.of_nat (length a)) (Z.of_nat (length b)));
        symmetry; [apply Z.eqb_eq|apply Z.eqb_neq]; lia).
  unfold size_sign.
  replace (Z.of_nat (S (length b)) - Z.of_nat (S (length a)))
    with (Z.of_nat (length b) - Z.of_nat (length a)) by lia.
  done.
Qed.

Lemma compare_lt a b :
  Z.of_nat (length a) < 2 ^ 63 -> Z.of_nat (length b) < 2 ^ 63 ->
  compare a b < 0 <-> lex_lt a b.
Proof.
  revert b; induction a as [|x a IH]; intros [|y b] Ha Hb.
  - rewrite compare_nil_l by done. simpl. lia.
  - rewrite compare_nil_l, decide_False by done. simpl. lia.
  - rewrite compare_nil_r, decide_False by done. simpl. lia.
  - rewrite compare_cons. cbn [lex_lt length] in *.
    destruct (Z.ltb_spec x y); [split; [by left|lia]|].
    destruct (Z.ltb_spec y x); [split; [lia|intros [?|[? _]]; lia]|].
    rewrite IH by lia. split; [intros ?; right; split; [lia|done]|].
    intros [?|[_ ?]]; [lia|done].
Qed.

Lemma compare_eq a b :
  Z.of_nat (length a) < 2 ^ 63 -> Z.of_nat (length b) < 2 ^ 63 ->
  compare a b = 0 <-> a = b.
Proof.
  revert b; induction a as [|x a IH]; intros [|y b] Ha Hb.
  - by rewrite compare_nil_l.
  - rewrite compare_nil_l, decide_False by done. split; [lia|done].
  - rewrite compare_nil_r, decide_False by done. split; [lia|done].
  - rewrite compare_cons. cbn [length] in *.
    destruct (Z.ltb_spec x y); [split; [lia|intros [= ? ?]; lia]|].
    destruct (Z.ltb_spec y x); [split; [lia|intros [= ? ?]; lia]|].
    rewrite IH by lia. split; [intros ->; f_equal; lia|by intros [= _ ->]].
Qed.

Lemma compare_opp a b :
  Z.of_nat (length a) < 2 ^ 63 -> Z.of_nat (length b) < 2 ^ 63 ->
  compare b a = - compare a b.
Proof.
  revert b; induction a as [|x a IH]; intros [|y b] Ha Hb.
  - by rewrite compare_nil_l.
  - by rewrite compare_nil_l, compare_nil_r, !decide_False.
  - by rewrite compare_nil_l, compare_nil_r, !decide_False.
  - rewrite !compare_cons. cbn [length] in *.
    destruct (Z.ltb_spec x y), (Z.ltb_spec y x); try done; try lia.
    apply IH; lia.
Qed.

(** [compare], with the element by element traits, on ranges that are
    shorter than [2^63]: it is antisymmetric ([compare(b, a)] is the
    opposite of [compare(a, b)]), it is 0 on equal ranges only, it is
    negative exactly below in the lexicographic order, and it is
    transitive. *)
Theorem compare_is_an_order a b c :
  Z.of_nat (length a) < 2 ^ 63 -> Z.of_nat (length b) < 2 ^ 63 ->
  Z.of_nat (length c) < 2 ^ 63 ->
  compare b a = - compare a b
  /\ (compare a b = 0 <-> a = b)
  /\ (compare a b < 0 <-> lex_lt a b)
  /\ (compare a b < 0 -> compare b c < 0 -> compare a c < 0).
Proof.
  intros Ha Hb Hc. split; [by apply compare_opp|].
  split; [by apply compare_eq|]. split; [by apply compare_lt|].
  rewrite !compare_lt by done. apply lex_lt_trans.
Qed.

End ordering.

(** ** Searching for an element, backwards, and for one of several *)

Section searching.
Context {A : Type} `{EqDecision A}.

(** [Range::find(const value_type& c, size_t pos)] (Range.h:907-913),
    around [qfind] for one element. *)
Definition find_value_pos (r : list A) (c : A) (pos : nat) : option nat :=
  if decide (length r < pos) then None
  else
    match subpiece r pos with
    | None => None
    | Some sub =>
        match qfind_value sub c with
        | None => None
        | Some ret => Some (ret + pos)
        end
    end.

(** [Range::contains] (Range.h:952-958), for a subrange and for an
    element: [find(other) != std::string::npos]. *)
Definition contains (r other : list A) : bool :=
  match find r other with Some _ => true | None => false end.

Definition contains_value (r : list A) (other : A) : bool :=
  match find_value r other with Some _ => true | None => false end.

(** [rfind(haystack, needle)] (Range.h:1581-1591):
<<
    for (auto i = haystack.size(); i-- > 0;) {
      if (haystack[i] == needle) { return i; }
    }
    return std::string::npos;
>>
    [i] is the value of the loop variable before the test [i-- > 0]. *)
Fixpoint rfind_loop (haystack : list A) (needle : A) (i : nat)
    : option nat :=
  match i with
  | 0 => None
  | S i =>
      match haystack !! i with
      | Some x =>
          if decide (x = needle) then Some i
          else rfind_loop haystack needle i
      | None => None
      end
  end.

Definition rfind (haystack : list A) (needle : A) : option nat :=
  rfind_loop haystack needle (length haystack).





Lemma occurs_at_drop (r str : list A) pos j :
  occurs_at (drop pos r) str j <-> occurs_at r str (pos + j).
Proof.
  unfold occurs_at. split; intros Ho k y Hk.
  - rewrite <- Nat.add_assoc, <- lookup_drop. by apply Ho.
  - rewrite lookup_drop, Nat.add_assoc. by apply Ho.
Qed.

Lemma occurs_at_infix (r str : list A) i :
  occurs_at r str i ->
  r = take i r ++ str ++ drop (i + length str) r.
Proof.
  intros Ho.
  rewrite <- (take_drop i r) at 1. f_equal.
  rewrite <- (take_drop (length str) (drop i r)) at 1.
  by rewrite (occurs_at_take_drop _ _ _ Ho), drop_drop.
Qed.

Lemma infix_occurs_at (p str s : list A) :
  occurs_at (p ++ str ++ s) str (length p).
Proof.
  intros j y Hj. rewrite lookup_app_r by lia.
  replace (length p + j - length p) with j by lia.
  by apply lookup_app_l_Some.
Qed.

Lemma rfind_loop_spec (haystack : list A) needle i :
  i <= length haystack ->
  match rfind_loop haystack needle i with
  | Some k =>
      k < i /\ haystack !! k = Some needle
      /\ forall j, k < j < i -> haystack !! j <> Some needle
  | None => forall j, j < i -> haystack !! j <> Some needle
  end.
Proof.
  induction i as [|i IH]; simpl; intros Hi; [lia|].
  destruct (haystack !! i) as [x|] eqn:Hx.
  - destruct (decide (x = needle)) as [->|Hne].
    + split; [lia|]. split; [done|lia].
    + specialize (IH ltac:(lia)).
      destruct (rfind_loop haystack needle i) as [k|].
      * destruct IH as (Hk & Hat & Hafter). split; [lia|]. split; [done|].
        intros j Hj. destruct (decide (j = i)) as [->|]; [congruence|].
        apply Hafter. lia.
      * intros j Hj. destruct (decide (j = i)) as [->|]; [congruence|].
        apply IH. lia.
  - apply lookup_ge_None in Hx. lia.
Qed.



Lemma std_find_lookup (l : list A) value k :
  k < std_find l value -> l !! k <> Some value.
Proof.
  intros Hk Hat. apply (std_find_before l value).
  apply list_elem_of_lookup. exists k. by rewrite lookup_take_lt.
Qed.

(** [find(str, pos)] returns the first position at or after [pos] at
    which [str] occurs, and [npos] when [pos] is past the end or there
    is no such position. *)
Theorem find_pos_first_occurrence (r str : list A) pos :
  match find_pos r str pos with
  | Some i =>
      pos <= i /\ occurs_at r str i
      /\ forall k, pos <= k < i -> ~ occurs_at r str k
  | None => length r < pos \/ forall k, pos <= k -> ~ occurs_at r str k
  end.
Proof.
  unfold find_pos, subpiece.
  destruct (decide (length r < pos)) as [Hpast|Hin]; [by left|].
  pose proof (find_spec (drop pos r) str) as Hq. unfold find in Hq.
  destruct (qfind equal_to (drop pos r) str) as [ret|].
  - destruct Hq as [Ho Hmin]. split; [lia|]. split.
    + rewrite Nat.add_comm. by apply occurs_at_drop.
    + intros k Hk Hok. apply (Hmin (k - pos)); [lia|].
      apply occurs_at_drop. by replace (pos + (k - pos)) with k by lia.
  - right. intros k Hk Hok. apply (Hq (k - pos)).
    apply occurs_at_drop. by replace (pos + (k - pos)) with k by lia.
Qed.

(** [find(c, pos)] returns the first position at or after [pos] that
    holds [c], and [npos] when there is none. *)
Theorem find_value_pos_first (r : list A) c pos :
  match find_value_pos r c pos with
  | Some i =>
      pos <= i /\ r !! i = Some c
      /\ forall k, pos <= k < i -> r !! k <> Some c
  | None => forall k, pos <= k -> r !! k <> Some c
  end.
Proof.
  unfold find_value_pos, subpiece, qfind_value.
  destruct (decide (length r < pos)) as [Hpast|Hin].
  { intros k Hk. rewrite lookup_ge_None_2 by lia. done. }
  pose proof (std_find_le (drop pos r) c) as Hle.
  destruct (decide _) as [Hend|Hfound].
  - intros k Hk Hat.
    apply (std_find_lookup (drop pos r) c (k - pos)).
    + rewrite Hend, length_drop. apply lookup_lt_Some in Hat. lia.
    + rewrite lookup_drop. by replace (pos + (k - pos)) with k by lia.
  - split; [lia|]. split.
    + rewrite Nat.add_comm, <- lookup_drop. apply std_find_at. lia.
    + intros k Hk Hat.
      apply (std_find_lookup (drop pos r) c (k - pos)); [lia|].
      rewrite lookup_drop. by replace (pos + (k - pos)) with k by lia.
Qed.

(** [contains(other)] holds exactly when [other] is a contiguous part of
    the range, and [contains(c)] exactly when [c] is an element of it. *)
Theorem contains_spec (r other : list A) (c : A) :
  (contains r other = true <-> exists p s, r = p ++ other ++ s)
  /\ (contains_value r c = true <-> c ∈ r).
Proof.
  split.
  - unfold contains. pose proof (find_spec r other) as Hq.
    destruct (find r other) as [i|].
    + split; [intros _|done]. destruct Hq as [Ho _].
      exists (take i r), (drop (i + length other) r).
      by apply occurs_at_infix.
    + split; [done|]. intros (p & s & ->).
      destruct (Hq (length p)). apply infix_occurs_at.
  - unfold contains_value, find_value, qfind_value.
    pose proof (std_find_le r c) as Hle.
    pose proof (std_find_before r c) as Hbefore.
    destruct (decide _) as [Hend|Hfound].
    + rewrite Hend, take_ge in Hbefore by lia. done.
    + split; [intros _|done].
      apply list_elem_of_lookup. exists (std_find r c).
      apply std_find_at. lia.
Qed.

(** [rfind(haystack, needle)] returns the last position that holds
    [needle], and [npos] exactly when [needle] is not in the haystack. *)
Theorem rfind_last_position (haystack : list A) needle :
  match rfind haystack needle with
  | Some i =>
      haystack !! i = Some needle
      /\ forall j, i < j -> haystack !! j <> Some needle
  | None => needle ∉ haystack
  end.
Proof.
  unfold rfind.
  pose proof (rfind_loop_spec haystack needle (length haystack)
                ltac:(done)) as Hspec.
  destruct (rfind_loop haystack needle (length haystack)) as [i|].
  - destruct Hspec as (Hi & Hat & Hafter). split; [done|].
    intros j Hj. destruct (decide (j < length haystack)).
    + apply Hafter. lia.
    + by rewrite lookup_ge_None_2 by lia.
  - intros (j & Hj)%list_elem_of_lookup.
    apply (Hspec j); [by eapply lookup_lt_Some|done].
Qed.


End searching.

(** ** Windows *)

Section windows.
Context {A : Type}.

(** [Range::advance] and [Range::subtract] (Range.h:805-817): the range
    afterwards. *)
Definition advance (r : list A) (n : nat) : outcome (list A) :=
  if decide (length r < n) then Throws out_of_range
  else Returns (drop n r).

Definition subtract (r : list A) (n : nat) : outcome (list A) :=
  if decide (length r < n) then Throws out_of_range
  else Returns (take (length r - n) r).

(** The constructor [Range(str, startFrom, size)] from a string or a
    container (Range.h:325-338, 389-405): [None] is the
    [std::out_of_range] it throws. *)
Definition Range_from (str : list A) (startFrom size : nat)
    : option (list A) :=
  if decide (length str < startFrom) then None
  else if decide (length str - startFrom < size)
       then Some (drop startFrom str)
       else Some (take size (drop startFrom str)).

Definition then_ {S T : Type} (m : outcome S) (f : S -> outcome T)
    : outcome T :=
  match m with
  | Returns v => f v
  | Throws e => Throws e
  | WriteOutsideRange => WriteOutsideRange
  end.

(** The constructor from a container with a start and a size builds the
    window [subpiece] returns, and [subpiece(a)] of [subpiece(b)] is
    [subpiece(a + b)]; each throws exactly when the start is past the
    end. *)
Theorem subpiece_windows (r : list A) (a b len : nat) :
  Range_from r a len = subpiece_length r a len
  /\ (subpiece r a ≫= fun s => subpiece s b) = subpiece r (a + b)
  /\ (is_Some (subpiece r a) <-> a <= length r).
Proof.
  split; [|split].
  - unfold Range_from, subpiece_length.
    destruct (decide (length r < a)); [done|].
    destruct (decide (length r - a < len)).
    + rewrite Nat.min_r by lia. rewrite take_ge; [done|].
      rewrite length_drop. lia.
    + by rewrite Nat.min_l by lia.
  - unfold subpiece. destruct (decide (length r < a)); simpl.
    + by rewrite decide_True by lia.
    + rewrite length_drop.
      destruct (decide (length r - a < b)).
      * by rewrite decide_True by lia.
      * rewrite decide_False by lia. by rewrite drop_drop.
  - unfold subpiece. destruct (decide (length r < a)).
    + split; [by intros [? ?]|lia].
    + split; [lia|by eexists].
Qed.

(** [advance(n)] and [subtract(m)] commute: in either order they leave
    the [size - n - m] elements from position [n], and throw
    [std::out_of_range] exactly when [n + m] exceeds the size. *)
Theorem advance_subtract_commute (r : list A) (n m : nat) :
  then_ (advance r n) (fun s => subtract s m)
  = (if decide (n + m <= length r)
     then Returns (take (length r - n - m) (drop n r))
     else Throws out_of_range)
  /\ then_ (subtract r m) (fun s => advance s n)
     = then_ (advance r n) (fun s => subtract s m).
Proof.
  assert (then_ (advance r n) (fun s => subtract s m)
          = if decide (n + m <= length r)
            then Returns (take (length r - n - m) (drop n r))
            else Throws out_of_range) as Hleft.
  { unfold advance, subtract.
    destruct (decide (length r < n)); simpl.
    - by rewrite decide_False by lia.
    - rewrite length_drop. destruct (decide (length r - n < m)).
      + by rewrite decide_False by lia.
      + by rewrite decide_True by lia. }
  split; [done|]. rewrite Hleft. unfold advance, subtract.
  destruct (decide (length r < m)); simpl.
  - by rewrite decide_False by lia.
  - rewrite length_take_le by lia.
    destruct (decide (length r - m < n)).
    + by rewrite decide_False by lia.
    + rewrite decide_True by lia. f_equal.
      rewrite take_drop_commute. do 2 f_equal. lia.
Qed.

End windows.

(** ** Comparison with a predicate, and ASCII case *)

Section predicates.
Context {A : Type}.

(** [std::equal(first1, last1, first2, p)]: the elements of the first
    range against those at the same positions from [first2]. *)
Definition std_equal (p : A -> A -> bool) (l1 l2 : list A) : bool :=
  forallb (fun xy => p xy.1 xy.2) (zip l1 l2).

(** [Range::startsWith], [Range::endsWith] and [Range::equals] with a
    comparator (Range.h:976-984, 1007-1015, 1017-1021); [None] is the
    [std::out_of_range] of [subpiece]. *)
Definition startsWith_comp (r other : list A) (eq : A -> A -> bool)
    : option bool :=
  if decide (length r < length other) then Some false
  else trunc ← subpiece_length r 0 (length other);
       Some (std_equal eq trunc other).

Definition endsWith_comp (r other : list A) (eq : A -> A -> bool)
    : option bool :=
  if decide (length r < length other) then Some false
  else trunc ← subpiece r (length r - length other);
       Some (std_equal eq trunc other).

Definition equals_comp (r other : list A) (eq : A -> A -> bool) : bool :=
  bool_decide (length r = length other) && std_equal eq r other.

End predicates.

Section ascii_case.
Local Open Scope Z_scope.

(** [AsciiCaseInsensitive] (Range.h:1559-1571), on the 8-bit patterns of
    the two characters (only [== 0], [!= 32] and the bounds ['a'] and
    ['z'] are tested, so the signedness of [char] does not matter):
<<
    char k = lhs ^ rhs;
    if (k == 0) return true;
    if (k != 32) return false;
    k = lhs | rhs;
    return (k >= 'a' && k <= 'z');
>> *)
Definition AsciiCaseInsensitive (lhs rhs : Z) : bool :=
  let k := Z.lxor lhs rhs in
  if k =? 0 then true
  else if negb (k =? 32) then false
  else let k := Z.lor lhs rhs in (97 <=? k) && (k <=? 122).

(** The lower-case form of an ASCII character. *)
Definition ascii_tolower (c : Z) : Z :=
  if (65 <=? c) && (c <=? 90) then c + 32 else c.

Definition is_char (c : Z) : Prop := 0 <= c < 256.

(** The two facts that are checked character by character: what
    flipping bit 5 does to a letter, and the comparison of a character
    with its flipped form. *)
Lemma flip_case_table :
  forallb (fun x =>
    Bool.eqb (AsciiCaseInsensitive x (Z.lxor x 32))
             (ascii_tolower x =? ascii_tolower (Z.lxor x 32))
    && (if (65 <=? x) && (x <=? 90) then Z.lxor x 32 =? x + 32 else true)
    && (if (97 <=? x) && (x <=? 122) then Z.lxor x 32 =? x - 32 else true))
    (seqZ 0 256)
  = true.
Proof. vm_compute. reflexivity. Qed.

Lemma flip_case x :
  is_char x ->
  AsciiCaseInsensitive x (Z.lxor x 32)
  = (ascii_tolower x =? ascii_tolower (Z.lxor x 32))
  /\ (65 <= x <= 90 -> Z.lxor x 32 = x + 32)
  /\ (97 <= x <= 122 -> Z.lxor x 32 = x - 32).
Proof.
  unfold is_char. intros Hx. pose proof flip_case_table as Htable.
  rewrite forallb_forall in Htable.
  assert (x ∈ seqZ 0 256) as Hin by (apply elem_of_seqZ; lia).
  apply list_elem_of_In, Htable in Hin.
  apply andb_true_iff in Hin as [[Heq%Bool.eqb_prop Hup]%andb_true_iff Hlow].
  split; [done|]. split.
  - intros Hr. rewrite (proj2 (Z.leb_le _ _)), (proj2 (Z.leb_le _ _)) in Hup
      by lia. by apply Z.eqb_eq.
  - intros Hr. rewrite (proj2 (Z.leb_le _ _)), (proj2 (Z.leb_le _ _)) in Hlow
      by lia. by apply Z.eqb_eq.
Qed.

Lemma AsciiCaseInsensitive_lower x y :
  is_char x -> is_char y ->
  AsciiCaseInsensitive x y = (ascii_tolower x =? ascii_tolower y).
Proof.
  intros Hx Hy. destruct (flip_case x Hx) as (Hflip & Hup & Hlow).
  destruct (decide (y = x)) as [->|Hne].
  { unfold AsciiCaseInsensitive. cbv zeta.
    by rewrite Z.lxor_nilpotent, !Z.eqb_refl. }
  destruct (decide (y = Z.lxor x 32)) as [->|Hneflip]; [done|].
  assert (AsciiCaseInsensitive x y = false) as ->.
  { unfold AsciiCaseInsensitive.
    destruct (Z.eqb_spec (Z.lxor x y) 0) as [H0|_].
    { apply Z.lxor_eq in H0. congruence. }
    destruct (Z.eqb_spec (Z.lxor x y) 32) as [H32|_]; [|done].
    destruct Hneflip.
    by rewrite <- H32, <- Z.lxor_assoc, Z.lxor_nilpotent, Z.lxor_0_l. }
  symmetry. apply Z.eqb_neq. unfold is_char, ascii_tolower in *.
  destruct (Z.leb_spec 65 x), (Z.leb_spec x 90), (Z.leb_spec 65 y),
    (Z.leb_spec y 90); simpl; lia.
Qed.

Lemma std_equal_lower (l1 l2 : list Z) :
  Forall is_char l1 -> Forall is_char l2 -> length l1 = length l2 ->
  std_equal AsciiCaseInsensitive l1 l2 = true
  <-> ascii_tolower <$> l1 = ascii_tolower <$> l2.
Proof.
  unfold std_equal. intros H1. revert l2.
  induction H1 as [|x l1 Hx H1 IH]; intros [|y l2] H2 Hlen;
    simpl in Hlen; try done.
  apply Forall_cons in H2 as [Hy H2].
  specialize (IH l2 H2 ltac:(lia)).
  rewrite !fmap_cons. cbn [zip zip_with forallb fst snd].
  rewrite andb_true_iff, AsciiCaseInsensitive_lower, Z.eqb_eq by done.
  split.
  - intros [-> Heq%IH]. by f_equal.
  - intros [= Hxy Heq]. split; [done|]. by apply IH.
Qed.

(** With [AsciiCaseInsensitive], [equals], [startsWith] and [endsWith]
    compare the lower-case forms of ASCII strings: equality, prefix and
    suffix up to the case of the letters. *)
Theorem case_insensitive_comparison (r other : list Z) :
  Forall is_char r -> Forall is_char other ->
  equals_comp r other AsciiCaseInsensitive
  = bool_decide (ascii_tolower <$> r = ascii_tolower <$> other)
  /\ startsWith_comp r other AsciiCaseInsensitive
     = Some (bool_decide
               ((ascii_tolower <$> other) `prefix_of` (ascii_tolower <$> r)))
  /\ endsWith_comp r other AsciiCaseInsensitive
     = Some (bool_decide
               ((ascii_tolower <$> other) `suffix_of` (ascii_tolower <$> r))).
Proof.
  intros Hr Ho.
  assert (forall (b : bool) (P : Prop) `{!Decision P},
            (b = true <-> P) -> b = bool_decide P) as Hdec.
  { intros b P ? Hb. destruct b; symmetry.
    - by apply bool_decide_eq_true_2, Hb.
    - apply bool_decide_eq_false_2. intros HP%Hb. done. }
  split; [|split].
  - unfold equals_comp. apply Hdec.
    rewrite andb_true_iff, bool_decide_eq_true. split.
    + intros [Hlen Heq]. by apply std_equal_lower.
    + intros Heq.
      assert (length r = length other) as Hlen
        by (by rewrite <- (length_fmap ascii_tolower r), Heq, length_fmap).
      split; [done|]. by apply std_equal_lower.
  - unfold startsWith_comp, subpiece_length.
    destruct (decide (length r < length other)%nat) as [Hlt|Hge].
    + f_equal. symmetry. apply bool_decide_eq_false_2.
      intros Hp%prefix_length. rewrite !length_fmap in Hp. lia.
    + rewrite decide_False by lia. simpl. f_equal.
      rewrite Nat.sub_0_r, Nat.min_l, drop_0 by lia. apply Hdec.
      rewrite std_equal_lower;
        [|by apply Forall_take|done|rewrite length_take_le; lia].
      rewrite fmap_take. split.
      * intros <-. apply prefix_take.
      * intros [k Hk]. rewrite Hk, <- (length_fmap ascii_tolower other).
        by rewrite take_app_length.
  - unfold endsWith_comp, subpiece.
    destruct (decide (length r < length other)%nat) as [Hlt|Hge].
    + f_equal. symmetry. apply bool_decide_eq_false_2.
      intros Hp%suffix_length. rewrite !length_fmap in Hp. lia.
    + rewrite decide_False by lia. simpl. f_equal. apply Hdec.
      rewrite std_equal_lower;
        [|by apply Forall_drop|done|rewrite length_drop; lia].
      rewrite fmap_drop. split.
      * intros <-. apply suffix_drop.
      * intros [k Hk]. rewrite Hk.
        assert (length r = length k + length other)%nat as Hlen.
        { rewrite <- (length_fmap ascii_tolower r), Hk, length_app.
          by rewrite length_fmap. }
        replace (length r - length other)%nat with (length k) by lia.
        by rewrite drop_app_length.
Qed.

End ascii_case.

(** ** Character ranges ([StringPiece], [MutableStringPiece]) *)

Definition chars (s : string) : list ascii := list_ascii_of_string s.

(** The examples of the doc comments of [replaceAt] and [replaceAll]. *)
Example replaceAt_doc_example :
  replaceAt (chars "buffer") 2 (chars "tt") = Returns (true, chars "butter")
  /\ replaceAt (chars "butter") 5 (chars "rr")
     = Returns (false, chars "butter").
Proof. split; reflexivity. Qed.

Example replaceAll_doc_example :
  replaceAll (chars "aaaaaaa") (chars "aa") (chars "ba")
    = Returns (3, chars "bababaa")
  /\ replaceAll (chars "buffer") (chars "ff") (chars "tt")
     = Returns (1, chars "butter").
Proof. split; reflexivity. Qed.

Lemma replaceAt_contract_witness :
  (replaceAt (chars "butter") 5 (chars "rr") = Returns (false, chars "butter")
   <-> (N.of_nat (length (chars "butter"))
        < 5 + N.of_nat (length (chars "rr")))%N)
  /\ ((2 + N.of_nat (length (chars "tt"))
       <= N.of_nat (length (chars "buffer")))%N ->
      exists r',
        replaceAt (chars "buffer") 2 (chars "tt") = Returns (true, r')
        /\ length r' = length (chars "buffer")
        /\ forall i,
             r' !! i =
               if decide (N.to_nat 2 <= i < N.to_nat 2 + length (chars "tt"))
               then chars "tt" !! (i - N.to_nat 2) else chars "buffer" !! i).
Proof.
  split.
  - apply (replaceAt_contract (chars "butter") 5 (chars "rr")).
    vm_compute. reflexivity.
  - apply (replaceAt_contract (chars "buffer") 2 (chars "tt")).
    vm_compute. reflexivity.
Defined.

Lemma replaceAll_returns_witness :
  exists n r',
    replaceAll (chars "aaaaaaa") (chars "aa") (chars "ba") = Returns (n, r')
    /\ length r' = length (chars "aaaaaaa")
    /\ (chars "ba" = [] -> n = 0 /\ r' = chars "aaaaaaa").
Proof.
  apply (replaceAll_returns (chars "aaaaaaa") (chars "aa") (chars "ba")).
  - vm_compute. reflexivity.
  - reflexivity.
Defined.

Lemma case_insensitive_comparison_witness :
  let r := [67; 111; 110; 84; 69; 78; 116]%Z in
  let other := [99; 79; 78]%Z in
  Forall is_char r /\ Forall is_char other
  /\ startsWith_comp r other AsciiCaseInsensitive = Some true
  /\ (equals_comp r other AsciiCaseInsensitive
      = bool_decide (ascii_tolower <$> r = ascii_tolower <$> other)
      /\ startsWith_comp r other AsciiCaseInsensitive
         = Some (bool_decide
                   ((ascii_tolower <$> other)
                      `prefix_of` (ascii_tolower <$> r)))
      /\ endsWith_comp r other AsciiCaseInsensitive
         = Some (bool_decide
                   ((ascii_tolower <$> other)
                      `suffix_of` (ascii_tolower <$> r)))).
Proof.
  intros r other.
  assert (Hr : Forall is_char r)
    by (repeat constructor; unfold is_char; lia).
  assert (Ho : Forall is_char other)
    by (repeat constructor; unfold is_char; lia).
  split; [exact Hr|]. split; [exact Ho|]. split; [reflexivity|].
  exact (case_insensitive_comparison r other Hr Ho).
Defined.

Lemma compare_is_an_order_witness :
  (compare [1; 2; 3] [1; 2] = 1
   /\ compare [1; 2] [1; 2; 3] = - compare [1; 2; 3] [1; 2]
   /\ (compare [1; 2] [1; 2; 3] < 0 -> compare [1; 2; 3] [1; 3] < 0 ->
       compare [1; 2] [1; 3] < 0))%Z.
Proof.
  destruct (compare_is_an_order [1; 2] [1; 2; 3] [1; 3])%Z
    as (_ & _ & _ & Htrans); [done..|].
  destruct (compare_is_an_order [1; 2; 3] [1; 2] [1; 3])%Z
    as (Hopp & _); [done..|].
  split; [reflexivity|]. split; [exact Hopp|exact Htrans].
Defined.

(** [split_step] applied again and again to ["a,b,,c"]. *)
Example split_step_tokens :
  split_step (chars "a,b,,c") ","%char = (chars "a", chars "b,,c")
  /\ split_step (chars "b,,c") ","%char = (chars "b", chars ",c")
  /\ split_step (chars ",c") ","%char = (chars "", chars "c")
  /\ split_step (chars "c") ","%char = (chars "c", chars "")
  /\ split_step (chars "") ","%char = (chars "", chars "").
Proof. repeat split; reflexivity. Qed.

(** The example of the doc comment of [split_step]. *)
Example split_step_doc_example :
  split_step (chars "sample string for split_next") " "%char
  = (chars "sample", chars "string for split_next")
  /\ split_step_range (chars "key: value") (chars ": ")
     = (chars "key", chars "value").
Proof. split; reflexivity. Qed.

Example removePrefix_examples :
  removePrefix (chars "folly::Range") (chars "folly::")
  = Returns (true, chars "Range")
  /\ removePrefix (chars "folly::Range") (chars "std::")
     = Returns (false, chars "folly::Range")
  /\ removeSuffix (chars "Range.h") (chars ".h") = Returns (true, chars "Range")
  /\ startsWith (chars "ab") (chars "abc") = Returns false.
Proof. repeat split; reflexivity. Qed.

(** C7, at a haystack and needles of characters. *)
Lemma find_agrees_with_naive_scan_witness :
  find (chars "abcabcabd") (chars "abcabd")
    = naive_find (chars "abcabcabd") (chars "abcabd")
  /\ find (chars "abc") (chars "abcabd") = None.
Proof.
  destruct (find_agrees_with_naive_scan (chars "abcabcabd") (chars "abcabd"))
    as (Heq & _ & _).
  destruct (find_agrees_with_naive_scan (chars "abc") (chars "abcabd"))
    as (_ & _ & Hlong).
  split; [exact Heq|]. apply Hlong. simpl. lia.
Defined.

(** C6 (the code departs from the claim).  [replaceAll] advances [pos] by
    [source.size()] from the previous [pos], not from the match it just
    rewrote, so the next search can start inside or before the rewritten
    text.  On ["xxbba"] with ["ba" -> "ab"] the only occurrence is at 3;
    the code rewrites it, searches again from 2, finds the ["ba"] that the
    rewrite created at 2 and rewrites that too: it returns 2 and leaves
    ["xxabb"], where the left-to-right replacement of non-overlapping
    occurrences returns 1 and leaves ["xxbab"].  With [source = dest = "a"]
    on ["xxa"] it counts the one occurrence three times. *)
Theorem replaceAll_rescans_rewritten_text :
  replaceAll (chars "xxbba") (chars "ba") (chars "ab")
    = Returns (2, chars "xxabb")
  /\ replaceAll_spec (chars "xxbba") (chars "ba") (chars "ab")
     = Returns (1, chars "xxbab")
  /\ replaceAll (chars "xxa") (chars "a") (chars "a")
     = Returns (3, chars "xxa")
  /\ replaceAll_spec (chars "xxa") (chars "a") (chars "a")
     = Returns (1, chars "xxa").
Proof. repeat split; reflexivity. Qed.

(** C8 (the code departs from the claim).  [pos + replacement.size()] is
    computed in [size_t] and wraps: for [pos = npos = 2^64 - 1] and a
    one-element replacement it is 0, the size check passes, and
    [std::copy] writes to [begin() + pos], outside the range.  The call
    does not return [false] although [pos + |x| > |r|]. *)
Theorem replaceAt_wraps_at_npos :
  replaceAt (chars "b") (2 ^ 64 - 1) (chars "a") = WriteOutsideRange
  /\ (N.of_nat (length (chars "b"))
      < (2 ^ 64 - 1) + N.of_nat (length (chars "a")))%N
  /\ size_add (2 ^ 64 - 1) (N.of_nat (length (chars "a"))) = 0%N.
Proof. repeat split; reflexivity. Qed.

Example find_examples :
  find (chars "hello world") (chars "o w") = Some 4
  /\ find (chars "abcabcabd") (chars "abcabd") = Some 3
  /\ find (chars "hel") (chars "hello") = None
  /\ find_pos (chars "abcabcabd") (chars "abc") 1 = Some 3.
Proof. repeat split; reflexivity. Qed.

End Range.

(* ===================================================================== *)
(** * hphp/runtime/vm/jit/prof-data.cpp                                   *)
(* ===================================================================== *)

Module ProfData.

Local Open Scope Z_scope.

Definition TransID := Z.
Definition FuncId := Z.

(** [kInvalidTransID]. *)
Definition kInvalidTransID : TransID := -1.

(** Conversions between [int] and [uint32_t]. *)
Definition to_uint32 (z : Z) : Z := z mod 2 ^ 32.
Definition to_int32 (z : Z) : Z := (z + 2 ^ 31) mod 2 ^ 32 - 2 ^ 31.
Definition is_int32 (z : Z) : Prop := - 2 ^ 31 <= z < 2 ^ 31.

(** What [proflogueTransId] reads of a [Func]. *)
Record Func : Type := {
  getFuncId : FuncId;
  numNonVariadicParams : Z
}.

(** [PrologueID{func, nargs}], the key of [m_proflogueDB]. *)
Definition PrologueID : Type := (FuncId * Z)%type.

Section proflogue.

(** [Func::numNonVariadicParams] is declared in func.h, which is not among
    the sources.  [params_unsigned] says whether its result type is
    unsigned ([uint32_t]) or [int]: it decides how [nArgs > numParams]
    converts its operands and in which type [numParams + 1] is computed. *)
Variable params_unsigned : bool.

Definition args_exceed (nArgs numParams : Z) : bool :=
  if params_unsigned then numParams <? to_uint32 nArgs
  else numParams <? nArgs.

Definition clamped (numParams : Z) : Z :=
  if params_unsigned then to_int32 (to_uint32 (numParams + 1))
  else to_int32 (numParams + 1).

(** The key [proflogueTransId] looks up (prof-data.cpp:101-106). *)
Definition proflogueKey (func : Func) (nArgs : Z) : PrologueID :=
  let numParams := numNonVariadicParams func in
  let nArgs := if args_exceed nArgs numParams then clamped numParams
               else nArgs in
  (getFuncId func, nArgs).

(** [ProfData::proflogueTransId] (prof-data.cpp:100-109);
    [folly::get_default] is the lookup with a default. *)
Definition proflogueTransId (m_proflogueDB : gmap PrologueID TransID)
    (func : Func) (nArgs : Z) : TransID :=
  default kInvalidTransID (m_proflogueDB !! proflogueKey func nArgs).

Lemma to_int32_id z : is_int32 z -> to_int32 z = z.
Proof.
  unfold is_int32, to_int32. intros Hz. rewrite Z.mod_small; lia.
Qed.

Lemma to_uint32_id z : 0 <= z < 2 ^ 32 -> to_uint32 z = z.
Proof. unfold to_uint32. intros Hz. by rewrite Z.mod_small. Qed.

(** Every over-saturated argument count is looked up under the key of
    [numParams + 1]. *)
Lemma proflogueKey_clamps func nArgs :
  is_int32 nArgs ->
  0 <= numNonVariadicParams func ->
  numNonVariadicParams func < nArgs ->
  proflogueKey func nArgs = (getFuncId func, numNonVariadicParams func + 1).
Proof.
  unfold is_int32. intros Hint Hpos Hgt.
  unfold proflogueKey, args_exceed, clamped. destruct params_unsigned.
  - rewrite (to_uint32_id nArgs) by lia.
    rewrite (proj2 (Z.ltb_lt _ _)) by done.
    rewrite to_uint32_id by lia. by rewrite to_int32_id by (unfold is_int32; lia).
  - rewrite (proj2 (Z.ltb_lt _ _)) by done.
    by rewrite to_int32_id by (unfold is_int32; lia).
Qed.

(** C10.  For every function and every [int] argument count greater than
    the function's number of non-variadic parameters,
    [proflogueTransId(func, nArgs)] is
    [proflogueTransId(func, numNonVariadicParams + 1)]: the two lookups use
    the same key, so all over-saturated counts share one prologue
    record. *)
Theorem proflogueTransId_oversaturated m_proflogueDB func nArgs :
  is_int32 nArgs ->
  0 <= numNonVariadicParams func ->
  numNonVariadicParams func < nArgs ->
  proflogueKey func nArgs
    = proflogueKey func (numNonVariadicParams func + 1)
  /\ proflogueTransId m_proflogueDB func nArgs
     = proflogueTransId m_proflogueDB func (numNonVariadicParams func + 1).
Proof.
  intros Hint Hpos Hgt.
  assert (proflogueKey func nArgs
          = proflogueKey func (numNonVariadicParams func + 1)) as Hkey.
  { rewrite !proflogueKey_clamps; unfold is_int32 in *; (done || lia). }
  split; [done|]. unfold proflogueTransId. by rewrite Hkey.
Qed.

End proflogue.

(** C10 at a function with two parameters called with five arguments,
    for either signedness of the parameter count. *)
Lemma proflogueTransId_oversaturated_witness :
  let func := {| getFuncId := 7; numNonVariadicParams := 2 |} in
  let db : gmap PrologueID TransID := {[ (7, 3) := 42 ]} in
  proflogueTransId true db func 5 = 42
  /\ proflogueTransId true db func 5 = proflogueTransId true db func 3
  /\ proflogueTransId false db func 5 = proflogueTransId false db func 3.
Proof.
  intros func db.
  assert (is_int32 5) as H5 by (unfold is_int32; lia).
  split; [reflexivity|]. split.
  - exact (proj2 (proflogueTransId_oversaturated true db func 5 H5
                    ltac:(simpl; lia) ltac:(simpl; lia))).
  - exact (proj2 (proflogueTransId_oversaturated false db func 5 H5
                    ltac:(simpl; lia) ltac:(simpl; lia))).
Defined.

(** ** [maybeResetCounters] *)

Section reset.

(** [ProfCounters<int64_t>] and its [resetAllCounters] are declared in
    prof-counters.h, which is not among the sources. *)
Variable Counters : Type.
Variable resetAllCounters : Z -> Counters -> Counters.

(** [Cfg::Jit::ResetProfCountersRequest] and [Cfg::Jit::PGOThreshold]. *)
Record Config : Type := {
  ResetProfCountersRequest : Z;
  PGOThreshold : Z
}.

(** The members of [ProfData] that [maybeResetCounters] touches;
    [m_transLock] is the thread that holds the lock, if one does. *)
Record ProfData : Type := {
  m_counters : Counters;
  m_countersReset : bool;
  m_transLock : option nat
}.

(** Where a thread is in [maybeResetCounters] (prof-data.cpp:293-301):
    outside a call, or about to do the shared-memory action of a line.
<<
  294  if (m_countersReset.load(std::memory_order_acquire)) return;
  295  if (requestCount() < Cfg::Jit::ResetProfCountersRequest) return;
  297  std::unique_lock lock{m_transLock};
  298  if (m_countersReset.load(std::memory_order_acquire)) return;
  299  m_counters.resetAllCounters(Cfg::Jit::PGOThreshold);
  300  m_countersReset.store(true, std::memory_order_release);
  301  }
>>
    [Unlock] is the destructor of [lock], which runs at the [return] of
    line 298 and at the end of the body. *)
Inductive Line : Type :=
| Idle
| LoadFlag
| ReadRequestCount
| Lock
| ReloadFlag
| Reset
| StoreFlag
| Unlock.

(** A thread: where it is, and what [requestCount()] returned to the
    call it is in. *)
Record Thread : Type := {
  at_line : Line;
  seen : option Z
}.

(** The threads of the process share one [ProfData]; a thread that has
    not run yet is outside a call. *)
Record Process : Type := {
  pd : ProfData;
  threads : gmap nat Thread
}.

Definition thread (p : Process) (t : nat) : Thread :=
  default {| at_line := Idle; seen := None |} (threads p !! t).

Definition goto (p : Process) (t : nat) (line : Line) : Process :=
  {| pd := pd p;
     threads := <[t := {| at_line := line; seen := seen (thread p t) |}]>
                  (threads p) |}.

Definition with_pd (p : Process) (pd' : ProfData) : Process :=
  {| pd := pd'; threads := threads p |}.

(** One turn of the scheduler: the thread that runs, what
    [requestCount()] returns if the thread calls it in this turn, and
    whether the load of line 294 reads the flag as it was before the
    store of line 300 (an acquire load that no lock orders after the
    store may do so).  The load of line 298 is ordered after every
    earlier store of line 300 by [m_transLock], and reads the flag as
    it is. *)
Record Turn : Type := {
  who : nat;
  requestCount : Z;
  stale : bool
}.

(** [ProfData::maybeResetCounters] (prof-data.cpp:293-301), one action
    of the thread [who turn] at a time, so that the calls of several
    threads interleave.  A thread outside a call enters one; a thread
    at line 297 waits while another thread holds the lock.  The [bool]
    of the result records whether [m_counters.resetAllCounters] was
    called. *)
Definition maybeResetCounters (cfg : Config) (turn : Turn) (p : Process)
    : Process * bool :=
  let t := who turn in
  match at_line (thread p t) with
  | Idle =>
      ({| pd := pd p;
          threads := <[t := {| at_line := LoadFlag; seen := None |}]>
                       (threads p) |}, false)
  | LoadFlag =>
      if m_countersReset (pd p) && negb (stale turn)
      then (goto p t Idle, false)
      else (goto p t ReadRequestCount, false)
  | ReadRequestCount =>
      let line :=
        if requestCount turn <? ResetProfCountersRequest cfg then Idle
        else Lock in
      ({| pd := pd p;
          threads := <[t := {| at_line := line;
                               seen := Some (requestCount turn) |}]>
                       (threads p) |}, false)
  | Lock =>
      match m_transLock (pd p) with
      | Some _ => (p, false)
      | None =>
          (goto (with_pd p {| m_counters := m_counters (pd p);
                              m_countersReset := m_countersReset (pd p);
                              m_transLock := Some t |}) t ReloadFlag,
           false)
      end
  | ReloadFlag =>
      if m_countersReset (pd p) then (goto p t Unlock, false)
      else (goto p t Reset, false)
  | Reset =>
      (goto (with_pd p {| m_counters :=
                            resetAllCounters (PGOThreshold cfg)
                              (m_counters (pd p));
                          m_countersReset := m_countersReset (pd p);
                          m_transLock := m_transLock (pd p) |}) t StoreFlag,
       true)
  | StoreFlag =>
      (goto (with_pd p {| m_counters := m_counters (pd p);
                          m_countersReset := true;
                          m_transLock := m_transLock (pd p) |}) t Unlock,
       false)
  | Unlock =>
      (goto (with_pd p {| m_counters := m_counters (pd p);
                          m_countersReset := m_countersReset (pd p);
                          m_transLock := None |}) t Idle,
       false)
  end.

(** One action of a run: the turn, the process before and after, and
    whether the action reset the counters. *)
Record Action : Type := {
  turn_of : Turn;
  before : Process;
  after : Process;
  did_reset : bool
}.

(** The run of a process under a schedule. *)
Fixpoint run (cfg : Config) (p : Process) (schedule : list Turn)
    : list Action :=
  match schedule with
  | [] => []
  | turn :: rest =>
      let '(p', reset) := maybeResetCounters cfg turn p in
      {| turn_of := turn; before := p; after := p'; did_reset := reset |}
        :: run cfg p' rest
  end.

(** The number of actions of a run that reset the counters. *)
Fixpoint resets (trace : list Action) : nat :=
  match trace with
  | [] => 0
  | a :: rest => (if did_reset a then 1 else 0) + resets rest
  end.

(** A process in which no thread has entered a call yet. *)
Definition started (counters : Counters) (flag : bool) : Process :=
  {| pd := {| m_counters := counters;
              m_countersReset := flag;
              m_transLock := None |};
     threads := ∅ |}.

(** The thread that runs in an action, as it was before the action. *)
Definition actor (a : Action) : Thread :=
  thread (before a) (who (turn_of a)).

(** *** What every interleaving keeps *)

(** The lines at which a thread holds [m_transLock], and the lines that
    lie behind the check of line 295. *)
Definition holds_lock (line : Line) : bool :=
  match line with
  | ReloadFlag | Reset | StoreFlag | Unlock => true
  | _ => false
  end.

Definition past_threshold (line : Line) : bool :=
  match line with
  | Lock | ReloadFlag | Reset | StoreFlag => true
  | _ => false
  end.

(** The lock is held by exactly the thread that is between lines 298
    and 301; the flag is clear in front of line 299 and set in front of
    the unlock; a thread behind line 295 has seen a request count that
    reached the threshold. *)
Definition inv (cfg : Config) (p : Process) : Prop :=
  (forall t, holds_lock (at_line (thread p t)) = true
             <-> m_transLock (pd p) = Some t)
  /\ (forall t, at_line (thread p t) = Reset ->
        m_countersReset (pd p) = false)
  /\ (forall t, at_line (thread p t) = Unlock ->
        m_countersReset (pd p) = true)
  /\ (forall t, past_threshold (at_line (thread p t)) = true ->
        exists rc, seen (thread p t) = Some rc
                   /\ ResetProfCountersRequest cfg <= rc).

(** How many resets a process can still do. *)
Definition budget (p : Process) : nat :=
  if m_countersReset (pd p) then 0
  else match m_transLock (pd p) with
       | Some t =>
           match at_line (thread p t) with
           | StoreFlag => 0
           | _ => 1
           end
       | None => 1
       end.

Lemma thread_insert (pd' : ProfData) (m : gmap nat Thread) t th t' :
  thread {| pd := pd'; threads := <[t := th]> m |} t'
  = if decide (t' = t) then th
    else thread {| pd := pd'; threads := m |} t'.
Proof.
  unfold thread. cbn [threads]. destruct (decide (t' = t)) as [->|Hne].
  - by rewrite lookup_insert_eq.
  - by rewrite lookup_insert_ne.
Qed.

Lemma thread_goto p t line t' :
  thread (goto p t line) t'
  = if decide (t' = t)
    then {| at_line := line; seen := seen (thread p t) |}
    else thread p t'.
Proof. unfold goto. by rewrite thread_insert. Qed.

Lemma thread_with_pd p pd' t : thread (with_pd p pd') t = thread p t.
Proof. done. Qed.

Lemma started_inv cfg counters flag : inv cfg (started counters flag).
Proof.
  unfold inv, started, thread. cbn [pd threads m_transLock].
  split; [|split; [|split]]; intros t; rewrite lookup_empty; cbn;
    [split|..]; done.
Qed.

Ltac case_thread t' t :=
  rewrite ?thread_goto, ?thread_insert, ?thread_with_pd;
  destruct (decide (t' = t)) as [->|?];
  cbn [at_line seen holds_lock past_threshold pd m_transLock
       m_countersReset m_counters goto with_pd].

Ltac split_inv := split; [|split; [|split]].

(** The invariant for a thread other than the one that moved. *)
Ltac bystander Hlock Hreset Hunlock Hseen t' :=
  first [ exact (Hlock t') | exact (Hreset t') | exact (Hunlock t')
        | exact (Hseen t') | done ].

Lemma maybeResetCounters_inv cfg turn p :
  inv cfg p -> inv cfg (maybeResetCounters cfg turn p).1.
Proof.
  intros Hinv. pose proof Hinv as (Hlock & Hreset & Hunlock & Hseen).
  unfold maybeResetCounters. set (t := who turn).
  pose proof (Hlock t) as Hlock_t. pose proof (Hseen t) as Hseen_t.
  destruct (at_line (thread p t)) eqn:Hline;
    cbn [holds_lock past_threshold] in Hlock_t, Hseen_t.
  - (* a call begins *)
    cbn [fst]. split_inv; intros t'; case_thread t' t;
      first [ bystander Hlock Hreset Hunlock Hseen t' | idtac ].
  - (* line 294 *)
    destruct (m_countersReset (pd p) && negb (stale turn)); cbn [fst];
      split_inv; intros t'; case_thread t' t;
      first [ bystander Hlock Hreset Hunlock Hseen t' | idtac ].
  - (* line 295 *)
    cbn [fst]. destruct (Z.ltb_spec (requestCount turn)
                           (ResetProfCountersRequest cfg));
      split_inv; intros t'; case_thread t' t;
      first [ bystander Hlock Hreset Hunlock Hseen t' | idtac ].
    intros _. eexists. split; [done|lia].
  - (* line 297 *)
    destruct (m_transLock (pd p)) as [holder|] eqn:Hholder; cbn [fst];
      [exact Hinv|].
    split_inv; intros t'; case_thread t' t;
      first [ bystander Hlock Hreset Hunlock Hseen t' | idtac ].
    split.
    + intros Hheld. apply Hlock in Hheld. congruence.
    + intros [= ->]. done.
  - (* line 298 *)
    destruct (m_countersReset (pd p)) eqn:Hflag; cbn [fst];
      split_inv; intros t'; case_thread t' t; rewrite ?Hflag;
      first [ bystander Hlock Hreset Hunlock Hseen t' | idtac ].
  - (* line 299 *)
    cbn [fst]. split_inv; intros t'; case_thread t' t;
      first [ bystander Hlock Hreset Hunlock Hseen t' | idtac ].
  - (* line 300 *)
    cbn [fst]. split_inv; intros t'; case_thread t' t;
      first [ bystander Hlock Hreset Hunlock Hseen t' | idtac ].
    intros Hline'. pose proof (proj1 (Hlock t')) as Hheld.
    rewrite Hline' in Hheld. specialize (Hheld eq_refl).
    pose proof (proj1 Hlock_t eq_refl). congruence.
  - (* the unlock *)
    cbn [fst]. split_inv; intros t'; case_thread t' t;
      first [ bystander Hlock Hreset Hunlock Hseen t' | idtac ].
    split; [|done]. intros Hheld. apply Hlock in Hheld.
    pose proof (proj1 Hlock_t eq_refl). congruence.
Qed.


Lemma maybeResetCounters_budget cfg turn p :
  inv cfg p ->
  ((if (maybeResetCounters cfg turn p).2 then 1 else 0)
   + budget (maybeResetCounters cfg turn p).1 <= budget p)%nat.
Proof.
  intros (Hlock & Hreset & Hunlock & Hseen).
  unfold maybeResetCounters. set (t := who turn).
  assert (Hbystander : forall th,
            holds_lock (at_line (thread p t)) = false ->
            budget {| pd := pd p; threads := <[t := th]> (threads p) |}
            = budget p).
  { intros th Hfree. unfold budget. cbn [pd].
    destruct (m_countersReset (pd p)); [done|].
    destruct (m_transLock (pd p)) as [holder|] eqn:Hholder; [|done].
    rewrite thread_insert, decide_False; [done|].
    intros Heq. subst holder.
    pose proof (proj2 (Hlock t) eq_refl) as Hheld. congruence. }
  pose proof (proj1 (Hlock t)) as Hmine.
  pose proof (Hreset t) as Hclear. pose proof (Hunlock t) as Hset.
  destruct (at_line (thread p t)) eqn:Hline; cbn [holds_lock] in *.
  - (* a call begins *)
    cbn [fst snd]. rewrite Hbystander by done. lia.
  - (* line 294 *)
    destruct (m_countersReset (pd p) && negb (stale turn));
      cbn [fst snd]; unfold goto; rewrite Hbystander by done; lia.
  - (* line 295 *)
    cbn [fst snd]. rewrite Hbystander by done. lia.
  - (* line 297 *)
    destruct (m_transLock (pd p)) as [holder|] eqn:Hholder;
      cbn [fst snd]; [lia|].
    unfold budget, goto, with_pd. cbn [pd m_countersReset m_transLock].
    rewrite Hholder, thread_insert, decide_True by done. cbn [at_line].
    destruct (m_countersReset (pd p)); lia.
  - (* line 298 *)
    specialize (Hmine eq_refl).
    destruct (m_countersReset (pd p)) eqn:Hflag; cbn [fst snd];
      unfold budget, goto; cbn [pd]; rewrite ?Hflag, ?Hmine; [lia|].
    rewrite thread_insert, decide_True, Hline by done. cbn [at_line]. lia.
  - (* line 299 *)
    specialize (Hmine eq_refl). specialize (Hclear eq_refl).
    cbn [fst snd]. unfold budget, goto, with_pd.
    cbn [pd m_countersReset m_transLock].
    rewrite Hclear, Hmine, thread_insert, decide_True, Hline by done.
    cbn [at_line]. lia.
  - (* line 300 *)
    cbn [fst snd]. unfold budget, goto, with_pd.
    cbn [pd m_countersReset]. lia.
  - (* the unlock *)
    specialize (Hset eq_refl). cbn [fst snd]. unfold budget, goto, with_pd.
    cbn [pd m_countersReset]. rewrite Hset. lia.
Qed.

Lemma maybeResetCounters_counters cfg turn p :
  m_counters (pd (maybeResetCounters cfg turn p).1)
  = if (maybeResetCounters cfg turn p).2
    then resetAllCounters (PGOThreshold cfg) (m_counters (pd p))
    else m_counters (pd p).
Proof.
  unfold maybeResetCounters.
  destruct (at_line (thread p (who turn))); try done.
  - by destruct (m_countersReset (pd p) && negb (stale turn)).
  - by destruct (m_transLock (pd p)).
  - by destruct (m_countersReset (pd p)).
Qed.

(** A reset is the action of line 299. *)
Lemma maybeResetCounters_reset cfg turn p :
  (maybeResetCounters cfg turn p).2 = true ->
  at_line (thread p (who turn)) = Reset.
Proof.
  unfold maybeResetCounters.
  destruct (at_line (thread p (who turn))); try done.
  - by destruct (m_countersReset (pd p) && negb (stale turn)).
  - by destruct (m_transLock (pd p)).
  - by destruct (m_countersReset (pd p)).
Qed.

Lemma elem_of_run cfg p schedule a :
  a ∈ run cfg p schedule ->
  maybeResetCounters cfg (turn_of a) (before a) = (after a, did_reset a).
Proof.
  revert p; induction schedule as [|turn rest IH]; intros p; cbn [run].
  - by intros ?%elem_of_nil.
  - destruct (maybeResetCounters cfg turn p) as [p' reset] eqn:Hstep.
    intros [->|Hin]%elem_of_cons; [done|by eapply IH].
Qed.

Lemma run_inv cfg p schedule a :
  inv cfg p -> a ∈ run cfg p schedule -> inv cfg (before a).
Proof.
  revert p; induction schedule as [|turn rest IH]; intros p Hinv;
    cbn [run].
  - by intros ?%elem_of_nil.
  - pose proof (maybeResetCounters_inv cfg turn p Hinv) as Hinv'.
    destruct (maybeResetCounters cfg turn p) as [p' reset].
    intros [->|Hin]%elem_of_cons; [done|by eapply IH].
Qed.

Lemma run_budget cfg p schedule :
  inv cfg p -> (resets (run cfg p schedule) <= budget p)%nat.
Proof.
  revert p; induction schedule as [|turn rest IH]; intros p Hinv;
    cbn [run resets]; [lia|].
  pose proof (maybeResetCounters_inv cfg turn p Hinv) as Hinv'.
  pose proof (maybeResetCounters_budget cfg turn p Hinv) as Hbudget.
  destruct (maybeResetCounters cfg turn p) as [p' reset].
  cbn [resets did_reset fst snd] in *. specialize (IH p' Hinv'). lia.
Qed.

(** Once no reset is left, no action resets or changes the counters. *)
Lemma run_quiet cfg p schedule a :
  inv cfg p -> budget p = 0%nat -> a ∈ run cfg p schedule ->
  did_reset a = false /\ m_counters (pd (after a)) = m_counters (pd p).
Proof.
  revert p; induction schedule as [|turn rest IH]; intros p Hinv Hzero;
    cbn [run].
  - by intros ?%elem_of_nil.
  - pose proof (maybeResetCounters_inv cfg turn p Hinv) as Hinv'.
    pose proof (maybeResetCounters_budget cfg turn p Hinv) as Hbudget.
    pose proof (maybeResetCounters_counters cfg turn p) as Hcounters.
    destruct (maybeResetCounters cfg turn p) as [p' reset].
    cbn [fst snd] in *.
    assert (reset = false) as -> by (destruct reset; [lia|done]).
    intros [->|Hin]%elem_of_cons; [done|].
    rewrite <- Hcounters. apply IH; [done|lia|done].
Qed.

Lemma run_after_reset cfg p schedule i j ai aj :
  inv cfg p ->
  run cfg p schedule !! i = Some ai -> run cfg p schedule !! j = Some aj ->
  (i < j)%nat -> did_reset ai = true ->
  did_reset aj = false
  /\ m_counters (pd (after aj)) = m_counters (pd (after ai)).
Proof.
  revert p i j; induction schedule as [|turn rest IH]; intros p i j Hinv;
    cbn [run]; [done|].
  pose proof (maybeResetCounters_inv cfg turn p Hinv) as Hinv'.
  pose proof (maybeResetCounters_budget cfg turn p Hinv) as Hbudget.
  destruct (maybeResetCounters cfg turn p) as [p' reset].
  cbn [fst snd] in *.
  destruct j as [|j]; [lia|]. destruct i as [|i]; cbn [lookup list_lookup].
  - intros [= <-] Hj _ Hreset. cbn [did_reset after] in *. subst reset.
    apply list_elem_of_lookup_2 in Hj.
    assert (budget p <= 1)%nat.
    { unfold budget. repeat case_match; lia. }
    apply (run_quiet cfg p' rest); [done|lia|done].
  - intros Hi Hj Hlt. apply (IH p' i j); [done|done|done|lia].
Qed.

(** C9.  Threads of one process call [maybeResetCounters] again and
    again, their actions interleaved in any order.  In every such run
    the counters are reset at most once, and not at all when the flag
    is set at the start; an action resets them only in a call that has
    seen a request count that reached [ResetProfCountersRequest]; a
    call that sees a smaller request count returns at line 295; every
    action that is not the reset leaves the counters as they are, and
    so does every action after the one that reset. *)
Theorem maybeResetCounters_resets_once (cfg : Config) (counters : Counters)
    (flag : bool) (schedule : list Turn) :
  let trace := run cfg (started counters flag) schedule in
  (resets trace <= if flag then 0 else 1)%nat
  /\ (forall a, a ∈ trace -> did_reset a = true ->
        exists rc, seen (actor a) = Some rc
                   /\ ResetProfCountersRequest cfg <= rc)
  /\ (forall a, a ∈ trace ->
        at_line (actor a) = ReadRequestCount ->
        requestCount (turn_of a) < ResetProfCountersRequest cfg ->
        did_reset a = false
        /\ at_line (thread (after a) (who (turn_of a))) = Idle)
  /\ (forall a, a ∈ trace -> did_reset a = false ->
        m_counters (pd (after a)) = m_counters (pd (before a)))
  /\ (forall i j ai aj,
        trace !! i = Some ai -> trace !! j = Some aj ->
        (i < j)%nat -> did_reset ai = true ->
        did_reset aj = false
        /\ m_counters (pd (after aj)) = m_counters (pd (after ai))).
Proof.
  intros trace. pose proof (started_inv cfg counters flag) as Hinv.
  split.
  { pose proof (run_budget cfg _ schedule Hinv) as Hbudget.
    unfold budget in Hbudget.
    cbn [started pd m_countersReset m_transLock] in Hbudget.
    by destruct flag. }
  split.
  { intros a Hin Hreset.
    pose proof (run_inv cfg _ _ _ Hinv Hin) as (_ & _ & _ & Hseen).
    apply elem_of_run in Hin.
    pose proof (maybeResetCounters_reset cfg (turn_of a) (before a)) as Hline.
    rewrite Hin in Hline. apply Hseen. unfold actor in *.
    by rewrite (Hline Hreset). }
  split.
  { intros a Hin Hline Hlt. apply elem_of_run in Hin.
    unfold actor in Hline. unfold maybeResetCounters in Hin.
    rewrite Hline in Hin. apply Z.ltb_lt in Hlt. rewrite Hlt in Hin.
    injection Hin as <- <-. split; [done|].
    rewrite thread_insert. by rewrite decide_True. }
  split.
  { intros a Hin Hreset. apply elem_of_run in Hin.
    pose proof (maybeResetCounters_counters cfg (turn_of a) (before a))
      as Hcounters.
    rewrite Hin in Hcounters. cbn [fst snd] in Hcounters.
    by rewrite Hreset in Hcounters. }
  intros i j ai aj. by apply run_after_reset.
Qed.

End reset.

(** Two threads race: both pass lines 294 and 295 before either takes
    the lock; the second one finds the flag set at line 298.  A third
    thread then reads a stale flag at line 294 and a request count
    below the threshold. *)
Definition race : list Turn :=
  let go t := {| who := t; requestCount := 0; stale := false |} in
  [ go 1%nat; go 2%nat; go 1%nat; go 2%nat;
    {| who := 1; requestCount := 10; stale := false |};
    {| who := 2; requestCount := 12; stale := false |};
    go 1%nat; go 2%nat; go 1%nat; go 1%nat; go 2%nat; go 1%nat; go 1%nat;
    go 2%nat; go 2%nat; go 2%nat;
    go 3%nat;
    {| who := 3; requestCount := 0; stale := true |};
    {| who := 3; requestCount := 3; stale := false |} ].

Lemma maybeResetCounters_resets_once_witness :
  let cfg := {| ResetProfCountersRequest := 10; PGOThreshold := 100 |} in
  let reset_all (v : Z) (cs : list Z) := (fun _ => v) <$> cs in
  let trace := run (list Z) reset_all cfg
                 (started (list Z) [3; 0; 7] false) race in
  did_reset (list Z) <$> trace
  = [false; false; false; false; false; false; false; false; false; true;
     false; false; false; false; false; false; false; false; false]
  /\ (m_counters (list Z) ∘ pd (list Z) ∘ after (list Z)) <$> last trace
     = Some [100; 100; 100]
  /\ (resets (list Z) trace <= 1)%nat.
Proof.
  intros cfg reset_all trace.
  split; [vm_compute; reflexivity|]. split; [vm_compute; reflexivity|].
  exact (proj1 (maybeResetCounters_resets_once (list Z) reset_all cfg
                  [3; 0; 7] false race)).
Defined.


(** ** The registry of profiling translations *)

(** [SrcKey] is declared in srckey.h, which is not among the sources:
    what the registry reads of one. *)
Record SrcKey : Type := {
  funcID : FuncId;
  funcEntry : bool;
  entryOffset : Z;
  toAtomicInt : Z
}.

(** What a call does: return, fail an assertion ([assertx] as a debug
    build checks it, [always_assert_flog] as every build does), or index
    [m_transRecs] out of its bounds. *)
Inductive outcome (T : Type) : Type :=
| Returns (v : T)
| Aborts
| OutOfBounds.
Arguments Returns {T} v.
Arguments Aborts {T}.
Arguments OutOfBounds {T}.

(** [map.emplace(k, v)]: no effect when the key is present. *)
Definition emplace `{Countable K} {V : Type} (k : K) (v : V)
    (m : gmap K V) : gmap K V :=
  match m !! k with
  | Some _ => m
  | None => <[k := v]> m
  end.

Section registry.

(** [RegionDesc], [PostConditions] and [TargetProfileInfo] are declared
    in region-selection.h and prof-data.h, which are not among the
    sources; so are the functions of a region that [addTransProfile]
    calls ([annotate] stands for [renumberBlock], [setProfTransID] and
    [setPostConds] together) and [Func::isDVEntry]. *)
Variable RegionDesc : Type.
Variable PostConditions : Type.
Variable TargetProfileInfo : Type.
Variable target_transId : TargetProfileInfo -> TransID.
Variable lastSrcKey : RegionDesc -> SrcKey.
Variable start : RegionDesc -> SrcKey.
Variable numBlocks : RegionDesc -> nat.
Variable annotate : RegionDesc -> TransID -> PostConditions -> RegionDesc.
Variable isDVEntry : FuncId -> Z -> bool.

(** [ProfTransRec], by its two constructors (prof-data.cpp:37-55). *)
Inductive ProfTransRec : Type :=
| Profile (lastSk sk : SrcKey) (region : RegionDesc) (asmSize : Z)
| ProfPrologue (sk : SrcKey) (prologueArgs : Z) (asmSize : Z).


(** The members of [ProfData] that record translations; a null
    [unique_ptr] of [m_transRecs] is [None]. *)
Record Registry : Type := {
  m_transRecs : list (option ProfTransRec);
  m_proflogueDB : gmap PrologueID TransID;
  m_dvFuncletDB : gmap Z TransID;
  m_funcProfTrans : gmap FuncId (list TransID);
  m_targetProfiles : gmap TransID (list TargetProfileInfo)
}.

Definition with_transRecs (pd : Registry)
    (recs : list (option ProfTransRec)) : Registry :=
  {| m_transRecs := recs;
     m_proflogueDB := m_proflogueDB pd;
     m_dvFuncletDB := m_dvFuncletDB pd;
     m_funcProfTrans := m_funcProfTrans pd;
     m_targetProfiles := m_targetProfiles pd |}.

Definition with_proflogueDB (pd : Registry)
    (db : gmap PrologueID TransID) : Registry :=
  {| m_transRecs := m_transRecs pd;
     m_proflogueDB := db;
     m_dvFuncletDB := m_dvFuncletDB pd;
     m_funcProfTrans := m_funcProfTrans pd;
     m_targetProfiles := m_targetProfiles pd |}.

Definition with_dvFuncletDB (pd : Registry) (db : gmap Z TransID)
    : Registry :=
  {| m_transRecs := m_transRecs pd;
     m_proflogueDB := m_proflogueDB pd;
     m_dvFuncletDB := db;
     m_funcProfTrans := m_funcProfTrans pd;
     m_targetProfiles := m_targetProfiles pd |}.

Definition with_funcProfTrans (pd : Registry)
    (m : gmap FuncId (list TransID)) : Registry :=
  {| m_transRecs := m_transRecs pd;
     m_proflogueDB := m_proflogueDB pd;
     m_dvFuncletDB := m_dvFuncletDB pd;
     m_funcProfTrans := m;
     m_targetProfiles := m_targetProfiles pd |}.

Definition with_targetProfiles (pd : Registry)
    (m : gmap TransID (list TargetProfileInfo)) : Registry :=
  {| m_transRecs := m_transRecs pd;
     m_proflogueDB := m_proflogueDB pd;
     m_dvFuncletDB := m_dvFuncletDB pd;
     m_funcProfTrans := m_funcProfTrans pd;
     m_targetProfiles := m |}.

(** [m_funcProfTrans[funcId].push_back(transID)]. *)
Definition push_funcProfTrans (funcId : FuncId) (transID : TransID)
    (pd : Registry) : Registry :=
  with_funcProfTrans pd
    (<[funcId := default [] (m_funcProfTrans pd !! funcId) ++ [transID]]>
       (m_funcProfTrans pd)).

(** [m_transRecs[transID].reset(rec)]. *)
Definition reset_transRec (transID : TransID) (rec : ProfTransRec)
    (pd : Registry) : outcome Registry :=
  if decide (0 <= transID < Z.of_nat (length (m_transRecs pd)))
  then Returns (with_transRecs pd
                  (<[Z.to_nat transID := Some rec]> (m_transRecs pd)))
  else OutOfBounds.

(** [ProfData::allocTransID] (prof-data.cpp:94-98): the registry
    afterwards and the id returned. *)
Definition allocTransID (pd : Registry) : Registry * TransID :=
  let recs := m_transRecs pd ++ [None] in
  (with_transRecs pd recs, Z.of_nat (length recs) - 1).

(** [ProfData::dvFuncletTransId] (prof-data.cpp:111-118). *)
Definition dvFuncletTransId (pd : Registry) (sk : SrcKey)
    : outcome TransID :=
  if funcEntry sk
  then Returns (default kInvalidTransID (m_dvFuncletDB pd !! toAtomicInt sk))
  else Aborts.

(** The DV funclet entry that [addTransProfile] and [addProfTrans]
    add for a translation that starts at a DV funclet. *)
Definition add_dvFunclet (sk : SrcKey) (transID : TransID) (pd : Registry)
    : outcome Registry :=
  if funcEntry sk && negb (entryOffset sk =? 0)
  then if isDVEntry (funcID sk) (entryOffset sk)
       then Returns (with_dvFuncletDB pd
                       (emplace (toAtomicInt sk) transID (m_dvFuncletDB pd)))
       else Aborts
  else Returns pd.

(** [ProfData::addTransProfile] (prof-data.cpp:120-159);
    [startSk.func()->getFuncId()] is [startSk.funcID()]. *)
Definition addTransProfile (transID : TransID) (region : RegionDesc)
    (pconds : PostConditions) (asmSize : Z) (pd : Registry)
    : outcome Registry :=
  let lastSk := lastSrcKey region in
  if decide (numBlocks region <> 1%nat) then Aborts
  else
    let region := annotate region transID pconds in
    let startSk := start region in
    match add_dvFunclet startSk transID pd with
    | Returns pd =>
        match reset_transRec transID
                (Profile lastSk startSk region asmSize) pd with
        | Returns pd =>
            Returns (push_funcProfTrans (funcID startSk) transID pd)
        | failure => failure
        end
    | failure => failure
    end.

(** [ProfData::addTransProfPrologue] (prof-data.cpp:161-174). *)
Definition addTransProfPrologue (transID : TransID) (sk : SrcKey)
    (nArgs asmSize : Z) (pd : Registry) : outcome Registry :=
  match m_proflogueDB pd !! (funcID sk, nArgs) with
  | Some _ => Aborts
  | None =>
      reset_transRec transID (ProfPrologue sk nArgs asmSize)
        (with_proflogueDB pd
           (<[(funcID sk, nArgs) := transID]> (m_proflogueDB pd)))
  end.


(** [ProfData::addTargetProfile] and [ProfData::getTargetProfiles]
    (prof-data.cpp:303-317). *)
Definition addTargetProfile (info : TargetProfileInfo) (pd : Registry)
    : Registry :=
  let transId := target_transId info in
  with_targetProfiles pd
    (<[transId := default [] (m_targetProfiles pd !! transId) ++ [info]]>
       (m_targetProfiles pd)).

Definition getTargetProfiles (pd : Registry) (transID : TransID)
    : list TargetProfileInfo :=
  match m_targetProfiles pd !! transID with
  | Some infos => infos
  | None => []
  end.

(** *** What the registry keeps *)

Lemma lookup_emplace `{Countable K} {V : Type} (k k' : K) (v : V)
    (m : gmap K V) :
  emplace k v m !! k'
  = if decide (k' = k) then Some (default v (m !! k)) else m !! k'.
Proof.
  unfold emplace. destruct (m !! k) as [x|] eqn:Hk; cbn [default].
  - destruct (decide (k' = k)) as [->|Hne]; done.
  - destruct (decide (k' = k)) as [->|Hne].
    + by rewrite lookup_insert_eq.
    + by rewrite lookup_insert_ne.
Qed.

Lemma getTargetProfiles_add info pd transID :
  getTargetProfiles (addTargetProfile info pd) transID
  = if decide (target_transId info = transID)
    then getTargetProfiles pd transID ++ [info]
    else getTargetProfiles pd transID.
Proof.
  unfold getTargetProfiles, addTargetProfile. cbn.
  destruct (decide (target_transId info = transID)) as [->|Hne].
  - rewrite lookup_insert_eq.
    by destruct (m_targetProfiles pd !! transID).
  - by rewrite lookup_insert_ne.
Qed.

(** The target profiles of a translation are exactly the ones that were
    added for its id, in the order of the calls; the profiles added for
    another id do not show, and an id nothing was added for has none. *)
Theorem getTargetProfiles_collects (infos : list TargetProfileInfo)
    (pd : Registry) (transID : TransID) :
  getTargetProfiles
    (foldl (fun pd info => addTargetProfile info pd) pd infos) transID
  = getTargetProfiles pd transID
    ++ filter (fun info => target_transId info = transID) infos.
Proof.
  revert pd. induction infos as [|info infos IH]; intros pd.
  - by rewrite app_nil_r.
  - cbn [foldl]. rewrite IH, getTargetProfiles_add.
    destruct (decide (target_transId info = transID)) as [Heq|Hne].
    + rewrite filter_cons_True by done. by rewrite <- app_assoc.
    + by rewrite filter_cons_False by done.
Qed.

(** A prologue registered under the id that [allocTransID] has just
    handed out: the call fails its assertion when the function already
    has a prologue for that argument count and otherwise fills the new
    slot; afterwards [proflogueTransId] answers the new id for every
    lookup that reaches the registered key and answers as before for
    every other. *)
Theorem addTransProfPrologue_then_lookup (params_unsigned : bool)
    (pd : Registry) (sk : SrcKey) (nArgs asmSize : Z) :
  let pd1 := (allocTransID pd).1 in
  let transID := (allocTransID pd).2 in
  transID = Z.of_nat (length (m_transRecs pd)) /\
  match m_proflogueDB pd !! (funcID sk, nArgs) with
  | Some _ => addTransProfPrologue transID sk nArgs asmSize pd1 = Aborts
  | None =>
      exists pd2,
        addTransProfPrologue transID sk nArgs asmSize pd1 = Returns pd2 /\
        m_transRecs pd2
        = m_transRecs pd ++ [Some (ProfPrologue sk nArgs asmSize)] /\
        forall func n,
          proflogueTransId params_unsigned (m_proflogueDB pd2) func n
          = if decide (proflogueKey params_unsigned func n
                       = (funcID sk, nArgs))
            then transID
            else proflogueTransId params_unsigned (m_proflogueDB pd) func n
  end.
Proof.
  cbn zeta. unfold allocTransID. cbn [fst snd].
  rewrite length_app. cbn [length].
  split; [lia|].
  unfold addTransProfPrologue. cbn [m_proflogueDB with_transRecs].
  destruct (m_proflogueDB pd !! (funcID sk, nArgs)) as [t|] eqn:Hdb;
    [done|].
  unfold reset_transRec. cbn [m_transRecs with_proflogueDB with_transRecs].
  rewrite length_app. cbn [length].
  rewrite decide_True by lia.
  eexists. split; [done|].
  cbn [m_transRecs m_proflogueDB with_transRecs with_proflogueDB].
  split.
  - replace (Z.to_nat (Z.of_nat (length (m_transRecs pd) + 1) - 1))
      with (length (m_transRecs pd) + 0)%nat by lia.
    by rewrite insert_app_r.
  - intros func n. unfold proflogueTransId.
    destruct (decide (proflogueKey params_unsigned func n
                      = (funcID sk, nArgs))) as [->|Hne].
    + by rewrite lookup_insert_eq.
    + by rewrite lookup_insert_ne.
Qed.



Lemma add_dvFunclet_Returns sk transID pd pd' :
  add_dvFunclet sk transID pd = Returns pd' ->
  m_transRecs pd' = m_transRecs pd /\
  m_proflogueDB pd' = m_proflogueDB pd /\
  m_funcProfTrans pd' = m_funcProfTrans pd /\
  m_targetProfiles pd' = m_targetProfiles pd /\
  m_dvFuncletDB pd'
  = if funcEntry sk && negb (entryOffset sk =? 0)
    then emplace (toAtomicInt sk) transID (m_dvFuncletDB pd)
    else m_dvFuncletDB pd.
Proof.
  unfold add_dvFunclet.
  destruct (funcEntry sk && negb (entryOffset sk =? 0)).
  - destruct (isDVEntry _ _); [|done]. by intros [= <-].
  - by intros [= <-].
Qed.




Lemma reset_transRec_Returns transID rec pd pd' :
  reset_transRec transID rec pd = Returns pd' ->
  0 <= transID < Z.of_nat (length (m_transRecs pd)) /\
  pd' = with_transRecs pd
          (<[Z.to_nat transID := Some rec]> (m_transRecs pd)).
Proof.
  unfold reset_transRec. destruct (decide _); [|done].
  by intros [= <-].
Qed.

Lemma addTransProfile_Returns transID region pconds asmSize pd pd' :
  addTransProfile transID region pconds asmSize pd = Returns pd' ->
  let region' := annotate region transID pconds in
  0 <= transID < Z.of_nat (length (m_transRecs pd)) /\
  m_transRecs pd'
  = <[Z.to_nat transID :=
        Some (Profile (lastSrcKey region) (start region') region' asmSize)]>
      (m_transRecs pd) /\
  m_funcProfTrans pd'
  = <[funcID (start region') :=
        default [] (m_funcProfTrans pd !! funcID (start region'))
        ++ [transID]]> (m_funcProfTrans pd) /\
  m_dvFuncletDB pd'
  = (if funcEntry (start region')
        && negb (entryOffset (start region') =? 0)
     then emplace (toAtomicInt (start region')) transID (m_dvFuncletDB pd)
     else m_dvFuncletDB pd).
Proof.
  unfold addTransProfile. destruct (decide _); [done|].
  destruct (add_dvFunclet _ _ _) as [pd1| |] eqn:Hdv; [|done..].
  apply add_dvFunclet_Returns in Hdv as (Hrecs & _ & Hfun & _ & Hdv).
  destruct (reset_transRec _ _ _) as [pd2| |] eqn:Hreset; [|done..].
  apply reset_transRec_Returns in Hreset as [Hin ->].
  intros [= <-]. cbn. by rewrite <- Hrecs, <- Hfun, <- Hdv.
Qed.

(** After a profiling translation is recorded, the DV funclet lookup of
    a function-entry source key answers the id of the first translation
    entered under that key: an entry the key had is kept, the new id is
    answered when the key had none and the translation starts at a DV
    funclet with that key, and the lookup stays invalid otherwise. *)
Theorem dvFuncletTransId_first_translation (transID : TransID)
    (region : RegionDesc) (pconds : PostConditions) (asmSize : Z)
    (pd pd' : Registry) (sk : SrcKey) :
  addTransProfile transID region pconds asmSize pd = Returns pd' ->
  funcEntry sk = true ->
  let startSk := start (annotate region transID pconds) in
  dvFuncletTransId pd' sk
  = Returns
      (match m_dvFuncletDB pd !! toAtomicInt sk with
       | Some first => first
       | None =>
           if decide (toAtomicInt startSk = toAtomicInt sk /\
                      funcEntry startSk = true /\ entryOffset startSk <> 0)
           then transID
           else kInvalidTransID
       end).
Proof.
  intros Hadd Hentry startSk.
  apply addTransProfile_Returns in Hadd as (_ & _ & _ & Hdv).
  fold startSk in Hdv.
  unfold dvFuncletTransId. rewrite Hentry, Hdv. f_equal.
  destruct (funcEntry startSk) eqn:Hstart; cbn [andb].
  - destruct (Z.eqb_spec (entryOffset startSk) 0) as [Hoff|Hoff];
      cbn [negb].
    + rewrite decide_False by tauto.
      by destruct (m_dvFuncletDB pd !! toAtomicInt sk).
    + rewrite lookup_emplace.
      destruct (decide (toAtomicInt sk = toAtomicInt startSk)) as [Heq|Hne].
      * rewrite <- Heq.
        destruct (m_dvFuncletDB pd !! toAtomicInt sk); [done|].
        by rewrite decide_True.
      * destruct (m_dvFuncletDB pd !! toAtomicInt sk); [done|].
        rewrite decide_False; [done|]. intros [Heq _]. by apply Hne.
  - rewrite decide_False by (intros (_ & [=] & _)).
    by destruct (m_dvFuncletDB pd !! toAtomicInt sk).
Qed.







End registry.


(** A registry whose regions are their start keys: one empty slot, and
    a DV funclet of function 7 at offset 12. *)
Definition funclet : SrcKey :=
  {| funcID := 7; funcEntry := true; entryOffset := 12; toAtomicInt := 7012 |}.

Definition one_slot : Registry SrcKey Z :=
  {| m_transRecs := [None];
     m_proflogueDB := ∅;
     m_dvFuncletDB := ∅;
     m_funcProfTrans := ∅;
     m_targetProfiles := ∅ |}.

Definition recorded : Registry SrcKey Z :=
  {| m_transRecs := [Some (Profile SrcKey funclet funclet funclet 64)];
     m_proflogueDB := ∅;
     m_dvFuncletDB := {[7012 := 0]};
     m_funcProfTrans := {[7 := [0]]};
     m_targetProfiles := ∅ |}.

Lemma dvFuncletTransId_first_translation_witness :
  let addTransProfile :=
    addTransProfile SrcKey unit Z (fun r => r) (fun r => r)
      (fun _ => 1%nat) (fun r _ _ => r) (fun _ _ => true) in
  addTransProfile 0 funclet tt 64 one_slot = Returns recorded
  /\ funcEntry funclet = true
  /\ dvFuncletTransId SrcKey Z recorded funclet = Returns 0.
Proof.
  intros addTransProfile.
  assert (Hadd : addTransProfile 0 funclet tt 64 one_slot = Returns recorded)
    by reflexivity.
  split; [exact Hadd|]. split; [reflexivity|].
  exact (dvFuncletTransId_first_translation SrcKey unit Z (fun r => r)
           (fun r => r) (fun _ => 1%nat) (fun r _ _ => r) (fun _ _ => true)
           0 funclet tt 64 one_slot recorded funclet Hadd eq_refl).
Defined.



End ProfData.

(* ===================================================================== *)
(** * fizz/protocol/ech/Encryption.cpp                                    *)
(* ===================================================================== *)

Module Ech.

Local Open Scope Z_scope.

(** ** Data *)

Definition byte : Type := Byte.byte.

#[local] Instance byte_eq_dec : EqDecision byte := Byte.byte_eq_dec.

(** The bytes of a [folly::IOBuf] chain. *)
Definition Buf : Type := list byte.

(** [n] zero bytes ([IOBuf::create(n)], [memset(.., 0, n)], [append(n)]). *)
Definition zeros (n : nat) : Buf := replicate n Byte.x00.

(** [ExtensionType] is a 16-bit enumeration declared in
    fizz/record/Types.h, which is not among the sources.  The enumerators
    used here carry their values of the TLS registry; the proofs use only
    that they are pairwise distinct. *)
Definition ExtensionType : Type := Z.
Definition server_name : ExtensionType := 0.
Definition pre_shared_key : ExtensionType := 41.
Definition ech_outer_extensions : ExtensionType := 64768.
Definition encrypted_client_hello : ExtensionType := 65037.

Record Extension : Type := {
  extension_type : ExtensionType;
  extension_data : Buf
}.

#[local] Instance Extension_eq_dec : EqDecision Extension.
Proof. solve_decision. Defined.

Record ClientHello : Type := {
  legacy_version : Z;
  random : Buf;
  legacy_session_id : Buf;
  cipher_suites : list Z;
  legacy_compression_methods : list Z;
  extensions : list Extension;
  originalEncoding : option Buf
}.

Record ServerName : Type := {
  name_type : Z;
  hostname : Buf
}.

Record ServerNameList : Type := {
  server_name_list : list ServerName
}.

(** What a call does: return, throw, or run into undefined behaviour
    (an access through an end iterator or past the end of a buffer). *)
Inductive exn : Type :=
| OuterExtensionsError (what : string)
| runtime_error (what : string)
| out_of_range
| callee_exception.   (* thrown by a codec or by HPKE, not among the sources *)

Inductive result (T : Type) : Type :=
| Returns (v : T)
| Throws (e : exn)
| Undefined.
Arguments Returns {T} v.
Arguments Throws {T} e.
Arguments Undefined {T}.

#[local] Instance result_ret : MRet result := fun _ v => Returns v.
#[local] Instance result_bind : MBind result := fun _ _ f m =>
  match m with
  | Returns v => f v
  | Throws e => Throws e
  | Undefined => Undefined
  end.

Lemma bind_Returns {S T : Type} (v : S) (f : S -> result T) :
  (Returns v ≫= f) = f v.
Proof. done. Qed.

(** ** Padding *)

(** [size_t] arithmetic: 64 bits, wrapping. *)
Definition size_t (z : Z) : Z := z mod 2 ^ 64.
Definition is_size_t (z : Z) : Prop := 0 <= z < 2 ^ 64.

Section padding.

(** [getExtension<ServerNameList>(extensions)] is defined in
    fizz/record, which is not among the sources: the SNI extension of
    the list, decoded, if there is one. *)
Variable getServerNameList : list Extension -> option ServerNameList.

(** The part of the padding that depends on the SNI
    (Encryption.cpp:454-466). *)
Definition sniPadding (chlo : ClientHello) (maxLen : Z) : result Z :=
  match getServerNameList (extensions chlo) with
  | Some sni =>
      match server_name_list sni !! 0%nat with
      | None => Throws out_of_range       (* [.at(0)] *)
      | Some sn =>
          let sniLen := Z.of_nat (length (hostname sn)) in
          if sniLen <? maxLen then Returns (size_t (maxLen - sniLen))
          else Returns 0
      end
  | None => Returns (size_t (maxLen + 9))
  end.

(** The final padding (Encryption.cpp:468-473):
<<
    size_t currentLen = encodedSize + padding;
    padding += 31 - ((currentLen - 1) % 32);
>> *)
Definition roundPadding (encodedSize padding : Z) : Z :=
  let currentLen := size_t (encodedSize + padding) in
  size_t (padding + size_t (31 - size_t (currentLen - 1) mod 32)).

(** [calculateECHPadding] (Encryption.cpp:450-474). *)
Definition calculateECHPadding (chlo : ClientHello) (encodedSize maxLen : Z)
    : result Z :=
  padding ← sniPadding chlo maxLen;
  Returns (roundPadding encodedSize padding).

Lemma size_t_range z : is_size_t (size_t z).
Proof. unfold is_size_t, size_t. apply Z.mod_pos_bound. lia. Qed.

Lemma size_t_id z : is_size_t z -> size_t z = z.
Proof. unfold is_size_t, size_t. intros Hz. by rewrite Z.mod_small. Qed.

Lemma size_t_mod32 z : size_t z mod 32 = z mod 32.
Proof.
  unfold size_t. apply Z.mod_mod_divide. by exists (2 ^ 59).
Qed.

(** The rounding step adds between 0 and 31 bytes and brings the padded
    length to a multiple of 32, in [size_t] and in unbounded arithmetic
    alike. *)
Lemma roundPadding_spec encodedSize padding :
  exists rounding,
    0 <= rounding <= 31
    /\ roundPadding encodedSize padding = size_t (padding + rounding)
    /\ (size_t (encodedSize + roundPadding encodedSize padding) - 1) mod 32
       = 31
    /\ (encodedSize + roundPadding encodedSize padding - 1) mod 32 = 31.
Proof.
  unfold roundPadding.
  set (currentLen := size_t (encodedSize + padding)).
  set (r := size_t (currentLen - 1) mod 32).
  assert (0 <= r < 32) as Hr by (apply Z.mod_pos_bound; lia).
  assert (r = (encodedSize + padding - 1) mod 32) as Hr'.
  { unfold r, currentLen. rewrite size_t_mod32.
    rewrite <- Zminus_mod_idemp_l, size_t_mod32, Zminus_mod_idemp_l. done. }
  exists (31 - r). rewrite (size_t_id (31 - r)) by (unfold is_size_t; lia).
  split; [lia|]. split; [done|].
  assert ((encodedSize + size_t (padding + (31 - r)) - 1) mod 32 = 31) as HL.
  { rewrite <- Zminus_mod_idemp_l, <- Zplus_mod_idemp_r, size_t_mod32.
    rewrite Zplus_mod_idemp_r, Zminus_mod_idemp_l.
    replace (encodedSize + (padding + (31 - r)) - 1)
      with ((encodedSize + padding - 1) + (31 - r)) by lia.
    rewrite <- Zplus_mod_idemp_l, <- Hr'.
    replace (r + (31 - r)) with 31 by lia. done. }
  split; [|done].
  rewrite <- Zminus_mod_idemp_l, size_t_mod32, Zminus_mod_idemp_l. done.
Qed.

(** [calculateECHPadding] returns [pre] plus a rounding of 0..31 bytes
    (in [size_t]), and the padded length [L] it leads to satisfies
    [(L - 1) mod 32 = 31]. *)
Definition pads_with (chlo : ClientHello) (encodedSize maxLen pre : Z)
    : Prop :=
  exists rounding,
    0 <= rounding <= 31
    /\ calculateECHPadding chlo encodedSize maxLen
       = Returns (size_t (pre + rounding))
    /\ (size_t (encodedSize + size_t (pre + rounding)) - 1) mod 32 = 31.

(** C3, amended.  For every ClientHello, encoded size and maximum name
    length (a [size_t]): when the hello has an SNI extension that lists a
    server name, the padding is [max(0, maxLen - |first host name|)] plus
    the rounding; when it has no SNI extension, it is [maxLen + 9]
    (computed in [size_t]) plus the rounding; in both cases the padded
    length [L] satisfies [(L - 1) mod 32 = 31].  When the SNI extension
    lists no server name, the call throws [std::out_of_range]. *)
Theorem calculateECHPadding_policy chlo encodedSize maxLen :
  is_size_t maxLen ->
  match getServerNameList (extensions chlo) with
  | Some sni =>
      match server_name_list sni with
      | [] => calculateECHPadding chlo encodedSize maxLen
              = Throws out_of_range
      | sn :: _ =>
          pads_with chlo encodedSize maxLen
            (Z.max 0 (maxLen - Z.of_nat (length (hostname sn))))
      end
  | None => pads_with chlo encodedSize maxLen (size_t (maxLen + 9))
  end.
Proof.
  intros Hmax. unfold pads_with, calculateECHPadding, sniPadding.
  assert (forall pre,
    exists rounding, 0 <= rounding <= 31
      /\ Returns (roundPadding encodedSize pre)
         = Returns (T:=Z) (size_t (pre + rounding))
      /\ (size_t (encodedSize + size_t (pre + rounding)) - 1) mod 32 = 31)
    as Hround.
  { intros pre.
    destruct (roundPadding_spec encodedSize pre) as (rd & Hrd & Heq & HL & _).
    exists rd. rewrite <- Heq. done. }
  destruct (getServerNameList (extensions chlo)) as [[[|sn names]]|]; simpl.
  - done.
  - unfold is_size_t in Hmax.
    destruct (Z.ltb_spec (Z.of_nat (length (hostname sn))) maxLen) as [Hlt|Hge].
    + rewrite size_t_id by (unfold is_size_t; lia).
      rewrite Z.max_r by lia. apply Hround.
    + rewrite Z.max_l by lia. apply Hround.
  - apply Hround.
Qed.

End padding.

(** ** Config negotiation *)

Definition KEMId : Type := Z.
Definition KDFId : Type := Z.
Definition AeadId : Type := Z.

Record HpkeSymmetricCipherSuite : Type := {
  kdf_id : KDFId;
  aead_id : AeadId
}.

(** [HpkeKeyConfig]; [key_cipher_suites] is its field [cipher_suites]. *)
Record HpkeKeyConfig : Type := {
  config_id : Z;
  kem_id : KEMId;
  public_key : Buf;
  key_cipher_suites : list HpkeSymmetricCipherSuite
}.

(** [ParsedECHConfig]; [config_extensions] is its field [extensions]. *)
Record ParsedECHConfig : Type := {
  key_config : HpkeKeyConfig;
  maximum_name_length : Z;
  public_name : string;
  config_extensions : list Extension
}.

Record NegotiatedECHConfig : Type := {
  config : ParsedECHConfig;
  configId : Z;
  maxLen : Z;
  cipherSuite : HpkeSymmetricCipherSuite
}.

(** [std::isalnum] in the "C" locale. *)
Definition isalnum (c : ascii) : bool :=
  let n := N_of_ascii c in
  ((48 <=? n) && (n <=? 57) || (65 <=? n) && (n <=? 90)
   || (97 <=? n) && (n <=? 122))%N.

(** [folly::split(delim, s, parts, false)]: the pieces between the
    delimiters, empty pieces kept. *)
Fixpoint split (delim : ascii) (s : list ascii) : list (list ascii) :=
  match s with
  | [] => [[]]
  | c :: s' =>
      if decide (c = delim) then [] :: split delim s'
      else match split delim s' with
           | part :: parts => (c :: part) :: parts
           | [] => [[c]]
           end
  end.

(** A valid LDH label: not empty, and no character outside
    [[a-zA-Z0-9-]] (Encryption.cpp:98-105). *)
Definition validPart (part : list ascii) : bool :=
  negb (bool_decide (part = []))
  && negb (existsb (fun c => negb (isalnum c)
                             && negb (bool_decide (c = "-"%char))) part).

(** [isValidPublicName] (Encryption.cpp:83-108). *)
Definition isValidPublicName (publicName : string) : bool :=
  let name := list_ascii_of_string publicName in
  if bool_decide (name = []) then false
  else if bool_decide (head name = Some "."%char)
          || bool_decide (last name = Some "."%char) then false
  else forallb validPart (split "."%char name).

(** A name of LDH labels is valid; the empty name, a leading or a
    trailing dot, an empty label and a character outside the LDH set are
    not. *)
Example isValidPublicName_examples :
  isValidPublicName "example.com" = true
  /\ isValidPublicName "xn--bcher-kva.example" = true
  /\ isValidPublicName EmptyString = false
  /\ isValidPublicName ".x" = false
  /\ isValidPublicName "x." = false
  /\ isValidPublicName "x..y" = false
  /\ isValidPublicName "x_y" = false.
Proof. repeat split; reflexivity. Qed.

(** *** What the valid public names are *)

(** The dot-separated concatenation of labels. *)
Fixpoint join (delim : ascii) (parts : list (list ascii)) : list ascii :=
  match parts with
  | [] => []
  | [part] => part
  | part :: parts => part ++ delim :: join delim parts
  end.

(** A non-empty label of letters, digits and hyphens. *)
Definition ldh (c : ascii) : Prop := isalnum c = true \/ c = "-"%char.
Definition label (part : list ascii) : Prop := part <> [] /\ Forall ldh part.

Lemma split_cons delim s : exists part parts, split delim s = part :: parts.
Proof.
  induction s as [|c s IH]; simpl; [by eexists _, _|].
  destruct (decide (c = delim)); [by eexists _, _|].
  destruct IH as (part & parts & ->). by eexists _, _.
Qed.

Lemma join_split delim s : join delim (split delim s) = s.
Proof.
  induction s as [|c s IH]; simpl; [done|].
  destruct (split_cons delim s) as (part & parts & Hs).
  rewrite Hs in *. rewrite <- IH.
  destruct (decide (c = delim)) as [->|Hne]; [done|]. by destruct parts.
Qed.

Lemma split_join delim part parts :
  Forall (fun p => delim ∉ p) (part :: parts) ->
  split delim (join delim (part :: parts)) = part :: parts.
Proof.
  revert part; induction parts as [|q parts IH]; intros part Hparts.
  - apply Forall_cons in Hparts as [Hpart _]. simpl.
    induction part as [|c part IHp]; simpl; [done|].
    apply not_elem_of_cons in Hpart as [Hc Hpart].
    rewrite decide_False by done. by rewrite IHp.
  - apply Forall_cons in Hparts as [Hpart Hparts].
    change (join delim (part :: q :: parts))
      with (part ++ delim :: join delim (q :: parts)).
    pose proof (IH q Hparts) as Hq.
    set (rest := join delim (q :: parts)) in *.
    induction part as [|c part IHp]; simpl.
    + rewrite decide_True by done. by rewrite Hq.
    + apply not_elem_of_cons in Hpart as [Hc Hpart].
      rewrite decide_False by done. by rewrite IHp.
Qed.

Lemma validPart_label part : validPart part = true <-> label part.
Proof.
  unfold validPart, label, ldh.
  rewrite andb_true_iff, !negb_true_iff, bool_decide_eq_false.
  apply and_iff_compat_l. split.
  - intros Hex. apply Forall_forall. intros c Hc.
    destruct (isalnum c) eqn:Hal; [by left|]. right.
    destruct (decide (c = "-"%char)) as [|Hne]; [done|].
    assert (existsb
              (fun c => negb (isalnum c) && negb (bool_decide (c = "-"%char)))
              part = true) as Ht; [|congruence].
    apply existsb_exists. exists c. split; [by apply list_elem_of_In|].
    by rewrite Hal, bool_decide_eq_false_2.
  - intros Hall. apply not_true_is_false.
    intros (c & Hc%list_elem_of_In & Hbad)%existsb_exists.
    apply andb_true_iff in Hbad as [Hal%negb_true_iff Hne%negb_true_iff].
    apply bool_decide_eq_false in Hne.
    destruct (proj1 (Forall_forall _ _) Hall c Hc); congruence.
Qed.

Lemma label_no_dot part : label part -> "."%char ∉ part.
Proof.
  intros [_ Hall] Hin.
  by destruct (proj1 (Forall_forall _ _) Hall _ Hin).
Qed.

Lemma split_head delim s :
  head s = Some delim -> exists parts, split delim s = [] :: parts.
Proof.
  destruct s as [|c s]; simpl; [done|]. intros [= ->].
  rewrite decide_True by done. by eexists.
Qed.

Lemma split_last delim s :
  last s = Some delim -> last (split delim s) = Some [].
Proof.
  induction s as [|c s IH]; simpl; [done|].
  destruct s as [|c' s].
  - simpl. intros [= ->]. by rewrite decide_True.
  - intros Hl. specialize (IH Hl).
    destruct (split_cons delim (c' :: s)) as (part & parts & Hs).
    pose proof (join_split delim (c' :: s)) as Hjoin.
    rewrite Hs in *. destruct (decide (c = delim)); [done|].
    destruct parts as [|q parts]; [|done].
    injection IH as ->. done.
Qed.

(** The checks for an empty name and for a leading or trailing dot are
    subsumed by the check of the labels. *)
Lemma isValidPublicName_labels publicName :
  isValidPublicName publicName
  = forallb validPart (split "."%char (list_ascii_of_string publicName)).
Proof.
  unfold isValidPublicName.
  set (name := list_ascii_of_string publicName).
  destruct (bool_decide (name = [])) eqn:Hempty.
  { apply bool_decide_eq_true in Hempty. by rewrite Hempty. }
  destruct (bool_decide (head name = Some "."%char)) eqn:Hhead.
  { apply bool_decide_eq_true, split_head in Hhead as [parts ->]. done. }
  destruct (bool_decide (last name = Some "."%char)) eqn:Hlast; [|done].
  apply bool_decide_eq_true, split_last in Hlast. simpl. symmetry.
  apply not_true_is_false. intros Hall.
  rewrite forallb_forall in Hall.
  assert ([] ∈ split "."%char name) as Hin by (by apply last_Some_elem_of).
  by specialize (Hall [] (proj1 (list_elem_of_In _ _) Hin)).
Qed.

(** [isValidPublicName] accepts exactly the names that are one or more
    non-empty labels of letters, digits and hyphens, joined by dots. *)
Theorem isValidPublicName_spec publicName :
  isValidPublicName publicName = true
  <-> exists part parts,
        Forall label (part :: parts)
        /\ list_ascii_of_string publicName = join "."%char (part :: parts).
Proof.
  rewrite isValidPublicName_labels.
  set (name := list_ascii_of_string publicName). split.
  - intros Hall.
    destruct (split_cons "."%char name) as (part & parts & Hs).
    exists part, parts. split; [|by rewrite <- Hs, join_split].
    rewrite <- Hs. apply Forall_forall. intros p Hp.
    apply validPart_label. rewrite forallb_forall in Hall.
    by apply Hall, list_elem_of_In.
  - intros (part & parts & Hlabels & ->).
    rewrite split_join
      by (eapply Forall_impl; [done|apply label_no_dot]).
    apply forallb_forall. intros p Hp%list_elem_of_In.
    apply validPart_label. by apply (proj1 (Forall_forall _ _) Hlabels).
Qed.

(** [echConfigHasMandatoryExtension] (Encryption.cpp:119-130). *)
Definition msb : Z := Z.shiftl 1 (2 * 8 - 1).

Definition echConfigHasMandatoryExtension (config : ParsedECHConfig) : bool :=
  existsb (fun echExt =>
             let extType := extension_type echExt mod 2 ^ 16 in
             negb (Z.land msb extType =? 0))
          (config_extensions config).

Lemma msb_land t :
  0 <= t < 65536 -> negb (Z.land msb t =? 0) = true <-> 32768 <= t.
Proof.
  intros Ht.
  assert (Z.land msb t = if Z.testbit t 15 then 2 ^ 15 else 0) as ->.
  { change msb with (2 ^ 15). apply Z.bits_inj'. intros n Hn.
    rewrite Z.land_spec, Z.pow2_bits_eqb by lia.
    destruct (Z.eqb_spec 15 n) as [<-|Hne].
    - rewrite andb_true_l.
      destruct (Z.testbit t 15);
        [by rewrite Z.pow2_bits_true|by rewrite Z.bits_0].
    - rewrite andb_false_l.
      destruct (Z.testbit t 15); [|by rewrite Z.bits_0].
      rewrite Z.pow2_bits_false; [done|lia]. }
  destruct (Z.testbit t 15) eqn:Hbit.
  - split; [intros _|done].
    apply Z.testbit_true in Hbit; [|lia].
    destruct (Z.le_gt_cases 32768 t) as [|Hlt]; [done|].
    rewrite Z.div_small in Hbit by lia. done.
  - split; [done|]. intros Hge.
    assert (Z.testbit t 15 = true); [|congruence].
    apply Z.testbit_true; [lia|].
    replace (t / 2 ^ 15) with 1; [done|].
    apply Z.div_unique with (r := t - 32768); lia.
Qed.

(** A config has a mandatory extension exactly when the type of one of
    its extensions, as a [uint16_t], is [0x8000] or more. *)
Theorem echConfigHasMandatoryExtension_high_bit config :
  echConfigHasMandatoryExtension config = true
  <-> exists echExt,
        echExt ∈ config_extensions config
        /\ 32768 <= extension_type echExt mod 2 ^ 16.
Proof.
  unfold echConfigHasMandatoryExtension. rewrite existsb_exists.
  pose proof msb_land as Hbit.
  split.
  - intros (e & He%list_elem_of_In & Hmsb). exists e. split; [done|].
    apply Hbit; [|done]. apply Z.mod_pos_bound. lia.
  - intros (e & He & Hhigh). exists e. split; [by apply list_elem_of_In|].
    apply Hbit; [|done]. apply Z.mod_pos_bound. lia.
Qed.

Section negotiate.

(** [hpke::getKDFId(getHashFunction(getCipherSuite(aead_id)))]: the three
    functions are defined in fizz/crypto/hpke, which is not among the
    sources. *)
Variable associatedCipherKdf : AeadId -> KDFId.

(** The loop over the cipher suites of one config
    (Encryption.cpp:162-178): the suite the [return] is reached with. *)
Fixpoint selectSuite (supportedAeads : list AeadId)
    (cipherSuites : list HpkeSymmetricCipherSuite)
    : option HpkeSymmetricCipherSuite :=
  match cipherSuites with
  | [] => None
  | suite :: rest =>
      let isCipherSupported := bool_decide (aead_id suite ∈ supportedAeads) in
      if isCipherSupported
         && bool_decide (kdf_id suite = associatedCipherKdf (aead_id suite))
      then Some suite
      else selectSuite supportedAeads rest
  end.

(** [negotiateECHConfig] (Encryption.cpp:132-181). *)
Fixpoint negotiateECHConfig (configs : list ParsedECHConfig)
    (supportedKEMs : list KEMId) (supportedAeads : list AeadId)
    : option NegotiatedECHConfig :=
  match configs with
  | [] => None
  | config :: rest =>
      if echConfigHasMandatoryExtension config
      then negotiateECHConfig rest supportedKEMs supportedAeads
      else if negb (isValidPublicName (public_name config))
      then negotiateECHConfig rest supportedKEMs supportedAeads
      else if negb (bool_decide (kem_id (key_config config) ∈ supportedKEMs))
      then negotiateECHConfig rest supportedKEMs supportedAeads
      else
        match selectSuite supportedAeads
                (key_cipher_suites (key_config config)) with
        | Some suite =>
            Some {| config := config;
                    configId := config_id (key_config config);
                    maxLen := maximum_name_length config;
                    cipherSuite := suite |}
        | None => negotiateECHConfig rest supportedKEMs supportedAeads
        end
  end.

(** The four predicates of the specification. *)
Definition suiteSupported (supportedAeads : list AeadId)
    (suite : HpkeSymmetricCipherSuite) : Prop :=
  aead_id suite ∈ supportedAeads
  /\ kdf_id suite = associatedCipherKdf (aead_id suite).

Definition acceptable (supportedKEMs : list KEMId)
    (supportedAeads : list AeadId) (config : ParsedECHConfig) : Prop :=
  echConfigHasMandatoryExtension config = false
  /\ isValidPublicName (public_name config) = true
  /\ kem_id (key_config config) ∈ supportedKEMs
  /\ exists suite, suite ∈ key_cipher_suites (key_config config)
                   /\ suiteSupported supportedAeads suite.

Lemma selectSuite_Some supportedAeads cipherSuites suite :
  selectSuite supportedAeads cipherSuites = Some suite ->
  exists skipped rest,
    cipherSuites = skipped ++ suite :: rest
    /\ Forall (fun s => ~ suiteSupported supportedAeads s) skipped
    /\ suiteSupported supportedAeads suite.
Proof.
  induction cipherSuites as [|s suites IH]; simpl; [done|].
  destruct (bool_decide (aead_id s ∈ supportedAeads)
            && bool_decide (kdf_id s = associatedCipherKdf (aead_id s)))
    eqn:Hs.
  - intros [= ->]. exists [], suites.
    apply andb_true_iff in Hs as [Ha%bool_decide_eq_true Hk%bool_decide_eq_true].
    by repeat split.
  - intros (skipped & rest & -> & Hskip & Hok)%IH.
    exists (s :: skipped), rest. split; [done|]. split; [|done].
    constructor; [|done]. intros [Ha Hk].
    apply andb_false_iff in Hs
      as [Hn%bool_decide_eq_false|Hn%bool_decide_eq_false]; done.
Qed.

Lemma selectSuite_None supportedAeads cipherSuites :
  selectSuite supportedAeads cipherSuites = None ->
  Forall (fun s => ~ suiteSupported supportedAeads s) cipherSuites.
Proof.
  induction cipherSuites as [|s suites IH]; simpl; [by constructor|].
  destruct (bool_decide (aead_id s ∈ supportedAeads)
            && bool_decide (kdf_id s = associatedCipherKdf (aead_id s)))
    eqn:Hs; [done|].
  intros Hn%IH. constructor; [|done]. intros [Ha Hk].
  apply andb_false_iff in Hs
    as [Hf%bool_decide_eq_false|Hf%bool_decide_eq_false]; done.
Qed.

(** What [negotiateECHConfig] returns: the first acceptable config with
    its own config id and maximum name length and its first supported
    suite, or nothing when no config is acceptable. *)
Definition negotiated (configs : list ParsedECHConfig)
    (supportedKEMs : list KEMId) (supportedAeads : list AeadId)
    (res : option NegotiatedECHConfig) : Prop :=
  match res with
  | Some n =>
      exists skipped rest suites_skipped suites_rest,
        configs = skipped ++ config n :: rest
        /\ Forall (fun c => ~ acceptable supportedKEMs supportedAeads c)
                  skipped
        /\ acceptable supportedKEMs supportedAeads (config n)
        /\ configId n = config_id (key_config (config n))
        /\ maxLen n = maximum_name_length (config n)
        /\ key_cipher_suites (key_config (config n))
           = suites_skipped ++ cipherSuite n :: suites_rest
        /\ Forall (fun s => ~ suiteSupported supportedAeads s) suites_skipped
        /\ suiteSupported supportedAeads (cipherSuite n)
  | None =>
      Forall (fun c => ~ acceptable supportedKEMs supportedAeads c) configs
  end.

Lemma negotiateECHConfig_negotiated configs supportedKEMs supportedAeads :
  negotiated configs supportedKEMs supportedAeads
    (negotiateECHConfig configs supportedKEMs supportedAeads).
Proof.
  induction configs as [|c configs IH]; simpl; [by constructor|].
  assert (~ acceptable supportedKEMs supportedAeads c ->
          negotiated (c :: configs) supportedKEMs supportedAeads
            (negotiateECHConfig configs supportedKEMs supportedAeads))
    as Hskip.
  { intros Hc. unfold negotiated in *.
    destruct (negotiateECHConfig configs supportedKEMs supportedAeads) as [n|].
    - destruct IH as (sk & rest & ssk & srest & -> & Hsk & Hrest).
      exists (c :: sk), rest, ssk, srest. split; [done|].
      split; [by constructor|done].
    - by constructor. }
  destruct (echConfigHasMandatoryExtension c) eqn:Hmand.
  { apply Hskip. intros (Hm & _). congruence. }
  destruct (isValidPublicName (public_name c)) eqn:Hname; simpl.
  2:{ apply Hskip. intros (_ & Hn & _). congruence. }
  destruct (bool_decide (kem_id (key_config c) ∈ supportedKEMs)) eqn:Hkem;
    simpl.
  2:{ apply Hskip. apply bool_decide_eq_false in Hkem.
      by intros (_ & _ & Hk & _). }
  apply bool_decide_eq_true in Hkem.
  destruct (selectSuite supportedAeads (key_cipher_suites (key_config c)))
    as [suite|] eqn:Hsel.
  - apply selectSuite_Some in Hsel as (ssk & srest & Hsuites & Hssk & Hok).
    exists [], configs, ssk, srest. simpl.
    assert (acceptable supportedKEMs supportedAeads c) as Hacc.
    { split_and!; try done. exists suite. split; [|done].
      rewrite Hsuites. set_solver. }
    by split_and!.
  - apply Hskip. apply selectSuite_None in Hsel.
    intros (_ & _ & _ & suite & Hin & Hok).
    by apply (proj1 (Forall_forall _ _) Hsel suite).
Qed.

(** C2.  [negotiateECHConfig] returns the first configuration of the
    list that has no mandatory extension, a valid public name, a
    supported KEM, and a cipher suite with a supported AEAD and the KDF
    of that AEAD's hash, together with its config id, its maximum name
    length and that suite (the first such suite); it returns none if and
    only if no configuration of the list satisfies the four
    predicates. *)
Theorem negotiateECHConfig_first_acceptable
    configs supportedKEMs supportedAeads :
  negotiated configs supportedKEMs supportedAeads
    (negotiateECHConfig configs supportedKEMs supportedAeads)
  /\ (negotiateECHConfig configs supportedKEMs supportedAeads = None
      <-> forall c, c ∈ configs ->
                    ~ acceptable supportedKEMs supportedAeads c).
Proof.
  pose proof (negotiateECHConfig_negotiated configs supportedKEMs
                supportedAeads) as Hn.
  split; [done|]. split.
  - intros Hnone. rewrite Hnone in Hn. by apply Forall_forall.
  - intros Hall.
    destruct (negotiateECHConfig configs supportedKEMs supportedAeads)
      as [n|]; [|done].
    destruct Hn as (sk & rest & _ & _ & -> & _ & Hacc & _).
    destruct (Hall (config n)); [set_solver|done].
Qed.

End negotiate.

(** ** Outer extensions *)

(** [OuterExtensions], the content of an [ech_outer_extensions]
    extension. *)
Record OuterExtensions : Type := {
  types : list ExtensionType
}.

Definition duplicate_extensions : exn :=
  OuterExtensionsError "inner client hello has duplicate extensions".
Definition malformed : exn :=
  OuterExtensionsError "ech_outer_extensions malformed".
Definition ech_not_allowed : exn :=
  OuterExtensionsError "ech is not allowed in outer extensions".
Definition missing_extension : exn :=
  OuterExtensionsError "ech outer extensions references a missing extension".

Definition isOuterExtensionsError (e : exn) : Prop :=
  exists what, e = OuterExtensionsError what.

Section substitute.

(** [getExtension<OuterExtensions>(cursor)] is defined in
    fizz/protocol/ech/ECHExtensions, which is not among the sources;
    [None] when it throws. *)
Variable getOuterExtensions : Buf -> option OuterExtensions.

(** The lambda [dupeCheck] (Encryption.cpp:701-706), on the set
    [seenTypes] it captures. *)
Definition dupeCheck (seenTypes : gset ExtensionType) (t : ExtensionType)
    : result (gset ExtensionType) :=
  if decide (t ∈ seenTypes) then Throws duplicate_extensions
  else Returns ({[ t ]} ∪ seenTypes).

(** The scan (Encryption.cpp:733-735); the list is the range
    [[outerIt, outerEnd)]:
<<
    while (outerIt != outerEnd && outerIt->extension_type != extType) {
      outerIt++;
    }
>> *)
Fixpoint scanOuter (outerIt : list Extension) (extType : ExtensionType)
    : list Extension :=
  match outerIt with
  | [] => []
  | e :: rest =>
      if decide (extension_type e = extType) then outerIt
      else scanOuter rest extType
  end.

(** The loop over the referenced types (Encryption.cpp:725-746). *)
Fixpoint expandOuter (extTypes : list ExtensionType)
    (outerIt : list Extension) (seenTypes : gset ExtensionType)
    (expandedInnerExt : list Extension)
    : result (gset ExtensionType * list Extension) :=
  match extTypes with
  | [] => Returns (seenTypes, expandedInnerExt)
  | extType :: rest =>
      seen ← dupeCheck seenTypes extType;
      if decide (extType = encrypted_client_hello)
      then Throws ech_not_allowed
      else
        match scanOuter outerIt extType with
        | [] => Throws missing_extension
        | found :: after =>
            expandOuter rest after seen (expandedInnerExt ++ [found])
        end
  end.

(** The loop over the inner extensions (Encryption.cpp:708-748). *)
Fixpoint substituteLoop (chloInnerExt chloOuterExt : list Extension)
    (seenTypes : gset ExtensionType) (expandedInnerExt : list Extension)
    : result (list Extension) :=
  match chloInnerExt with
  | [] => Returns expandedInnerExt
  | ext :: rest =>
      seen ← dupeCheck seenTypes (extension_type ext);
      if decide (ech_outer_extensions <> extension_type ext)
      then substituteLoop rest chloOuterExt seen (expandedInnerExt ++ [ext])
      else
        match getOuterExtensions (extension_data ext) with
        | None => Throws malformed
        | Some outerExtensions =>
            '(seen', expanded) ←
               expandOuter (types outerExtensions) chloOuterExt seen
                 expandedInnerExt;
            substituteLoop rest chloOuterExt seen' expanded
        end
  end.

(** [substituteOuterExtensions] (Encryption.cpp:693-751). *)
Definition substituteOuterExtensions
    (chloInnerExt chloOuterExt : list Extension) : result (list Extension) :=
  substituteLoop chloInnerExt chloOuterExt ∅ [].

(** *** What the expansion is, stated on the lists *)

(** The extensions a reference list names, found in the outer list by
    one in-order scan. *)
Fixpoint lookupOuter (extTypes : list ExtensionType)
    (outer : list Extension) : option (list Extension) :=
  match extTypes with
  | [] => Some []
  | t :: rest =>
      match scanOuter outer t with
      | [] => None
      | found :: after => (found ::.) <$> lookupOuter rest after
      end
  end.

(** The reference list of an inner extension: none for an ordinary
    extension; [None] when an [ech_outer_extensions] does not decode. *)
Definition references (ext : Extension) : option (list ExtensionType) :=
  if decide (ech_outer_extensions <> extension_type ext) then Some []
  else types <$> getOuterExtensions (extension_data ext).

(** The types [dupeCheck] is applied to, in order: the type of each
    inner extension, followed by the types it references. *)
Fixpoint visitedTypes (inner : list Extension)
    : option (list ExtensionType) :=
  match inner with
  | [] => Some []
  | ext :: rest =>
      refs ← references ext;
      visited ← visitedTypes rest;
      Some (extension_type ext :: refs ++ visited)
  end.

(** All the types the reference lists name. *)
Fixpoint referencedTypes (inner : list Extension)
    : option (list ExtensionType) :=
  match inner with
  | [] => Some []
  | ext :: rest =>
      refs ← references ext;
      referenced ← referencedTypes rest;
      Some (refs ++ referenced)
  end.

(** What one inner extension expands to: itself, or the outer
    extensions it references. *)
Definition expandOne (outer : list Extension) (ext : Extension)
    : option (list Extension) :=
  if decide (ech_outer_extensions <> extension_type ext) then Some [ext]
  else refs ← references ext; lookupOuter refs outer.

(** The inner list with each [ech_outer_extensions] replaced, in place,
    by the outer extensions it references. *)
Fixpoint expansion (inner outer : list Extension)
    : option (list Extension) :=
  match inner with
  | [] => Some []
  | ext :: rest =>
      here ← expandOne outer ext;
      there ← expansion rest outer;
      Some (here ++ there)
  end.

(** The inputs [substituteOuterExtensions] accepts. *)
Definition expandable (inner outer : list Extension) : Prop :=
  exists visited referenced,
    visitedTypes inner = Some visited
    /\ referencedTypes inner = Some referenced
    /\ NoDup visited
    /\ (encrypted_client_hello ∉ referenced)
    /\ is_Some (expansion inner outer).

(** [fresh seen ts]: [dupeCheck] accepts the types [ts] one after the
    other, starting from the set [seen]. *)
Definition fresh (seen : gset ExtensionType) (ts : list ExtensionType)
    : Prop :=
  NoDup ts /\ forall t, t ∈ ts -> t ∉ seen.

Lemma fresh_nil seen : fresh seen [].
Proof. split; [constructor|]. by intros t ?%elem_of_nil. Qed.

Lemma fresh_cons seen t ts :
  fresh seen (t :: ts) <-> (t ∉ seen) /\ fresh ({[ t ]} ∪ seen) ts.
Proof.
  unfold fresh. rewrite NoDup_cons. split.
  - intros [[Ht Hnd] Hall]. split; [apply Hall; set_solver|].
    split; [done|]. intros t' Ht'. specialize (Hall t'). set_solver.
  - intros [Ht [Hnd Hall]]. split; [split; [|done]|].
    + intros Hin. specialize (Hall t Hin). set_solver.
    + intros t' [->|Hin]%elem_of_cons; [done|].
      specialize (Hall t' Hin). set_solver.
Qed.

Lemma fresh_app seen ts1 ts2 :
  fresh seen (ts1 ++ ts2)
  <-> fresh seen ts1 /\ fresh (list_to_set ts1 ∪ seen) ts2.
Proof.
  revert seen; induction ts1 as [|t ts1 IH]; intros seen; simpl.
  - assert ((∅ : gset ExtensionType) ∪ seen = seen) as -> by set_solver.
    split; [intros ?; split; [apply fresh_nil|done]|by intros [_ ?]].
  - rewrite !fresh_cons, IH.
    assert (list_to_set ts1 ∪ ({[t]} ∪ seen)
            = {[t]} ∪ list_to_set ts1 ∪ seen) as -> by set_solver.
    tauto.
Qed.

Lemma expandOuter_spec extTypes outerIt seen acc :
  match expandOuter extTypes outerIt seen acc with
  | Returns (seen', acc') =>
      fresh seen extTypes
      /\ (encrypted_client_hello ∉ extTypes)
      /\ seen' = list_to_set extTypes ∪ seen
      /\ exists found,
           lookupOuter extTypes outerIt = Some found /\ acc' = acc ++ found
  | Throws e =>
      isOuterExtensionsError e
      /\ ~ (fresh seen extTypes
            /\ (encrypted_client_hello ∉ extTypes)
            /\ is_Some (lookupOuter extTypes outerIt))
  | Undefined => False
  end.
Proof.
  revert outerIt seen acc.
  induction extTypes as [|t ts IH]; intros outerIt seen acc; simpl.
  - split; [apply fresh_nil|]. split; [set_solver|]. split; [set_solver|].
    exists []. by rewrite app_nil_r.
  - unfold dupeCheck. destruct (decide (t ∈ seen)) as [Hin|Hnin]; simpl.
    { split; [by eexists|]. rewrite fresh_cons. tauto. }
    destruct (decide (t = encrypted_client_hello)) as [->|Hne].
    { split; [by eexists|]. set_solver. }
    destruct (scanOuter outerIt t) as [|found after] eqn:Hscan.
    { split; [by eexists|]. intros (_ & _ & [? ?]). done. }
    specialize (IH after ({[t]} ∪ seen) (acc ++ [found])).
    destruct (expandOuter ts after ({[t]} ∪ seen) (acc ++ [found]))
      as [[seen' acc']|e|]; [| |done].
    + destruct IH as (Hfresh & Hech & -> & found' & Hlook & ->).
      split; [by apply fresh_cons|]. split; [set_solver|].
      split; [set_solver|]. exists (found :: found').
      rewrite Hlook. simpl. by rewrite <- app_assoc.
    + destruct IH as [He Hnot]. split; [done|].
      intros (Hfresh%fresh_cons & Hech & Hsome). apply Hnot.
      split; [tauto|]. split; [set_solver|].
      destruct (lookupOuter ts after); [by eexists|].
      simpl in Hsome. by destruct Hsome.
Qed.

(** The conditions under which the loop runs to its end from the state
    [(seen, _)]. *)
Definition accepted (inner outer : list Extension)
    (seen : gset ExtensionType) : Prop :=
  exists visited referenced,
    visitedTypes inner = Some visited
    /\ referencedTypes inner = Some referenced
    /\ fresh seen visited
    /\ (encrypted_client_hello ∉ referenced)
    /\ is_Some (expansion inner outer).

Lemma accepted_nil outer seen : accepted [] outer seen.
Proof.
  exists [], []. simpl. split_and!; try done; [apply fresh_nil|set_solver].
Qed.

Lemma accepted_cons_plain ext rest outer seen :
  ech_outer_extensions <> extension_type ext ->
  accepted (ext :: rest) outer seen
  <-> (extension_type ext ∉ seen)
      /\ accepted rest outer ({[ extension_type ext ]} ∪ seen).
Proof.
  intros Hne. unfold accepted. simpl. unfold expandOne, references.
  rewrite !decide_True by done. simpl. split.
  - intros (vis & refd & Hvis & Hrefd & Hfresh & Hech & Hexp).
    destruct (visitedTypes rest) as [vis'|]; [|done].
    destruct (referencedTypes rest) as [refd'|]; [|done].
    simpl in *. injection Hvis as <-. injection Hrefd as <-.
    apply fresh_cons in Hfresh as [Hnin Hfresh]. split; [done|].
    exists vis', refd'. split_and!; try done.
    destruct (expansion rest outer); [by eexists|].
    simpl in Hexp. by destruct Hexp.
  - intros (Hnin & vis' & refd' & -> & -> & Hfresh & Hech & [exp ->]).
    simpl. eexists _, _.
    split_and!; try done; try (by apply fresh_cons); by eexists.
Qed.

Lemma accepted_cons_outer ext rest outer seen oe :
  ech_outer_extensions = extension_type ext ->
  getOuterExtensions (extension_data ext) = Some oe ->
  accepted (ext :: rest) outer seen
  <-> (extension_type ext ∉ seen)
      /\ fresh ({[ extension_type ext ]} ∪ seen) (types oe)
      /\ (encrypted_client_hello ∉ types oe)
      /\ is_Some (lookupOuter (types oe) outer)
      /\ accepted rest outer
           (list_to_set (types oe) ∪ ({[ extension_type ext ]} ∪ seen)).
Proof.
  intros Heq Hoe. unfold accepted. simpl. unfold expandOne, references.
  rewrite !decide_False by (intros ?; done). rewrite Hoe. simpl. split.
  - intros (vis & refd & Hvis & Hrefd & Hfresh & Hech & Hexp).
    destruct (visitedTypes rest) as [vis'|]; [|done].
    destruct (referencedTypes rest) as [refd'|]; [|done].
    simpl in *. injection Hvis as <-. injection Hrefd as <-.
    apply fresh_cons in Hfresh as [Hnin Hfresh].
    apply fresh_app in Hfresh as [Hfresh1 Hfresh2].
    destruct (lookupOuter (types oe) outer) as [found|];
      [|simpl in Hexp; by destruct Hexp].
    split; [done|]. split; [done|]. split; [set_solver|].
    split; [by eexists|].
    exists vis', refd'. split_and!; try done; [set_solver|].
    destruct (expansion rest outer); [by eexists|].
    simpl in Hexp. by destruct Hexp.
  - intros (Hnin & Hfresh1 & Hech1 & [found Hfound]
            & vis' & refd' & -> & -> & Hfresh & Hech & [exp ->]).
    rewrite Hfound. simpl. eexists _, _.
    split_and!; try done; try set_solver; try (by eexists).
    apply fresh_cons. split; [done|]. by apply fresh_app.
Qed.

Lemma accepted_cons_malformed ext rest outer seen :
  ech_outer_extensions = extension_type ext ->
  getOuterExtensions (extension_data ext) = None ->
  ~ accepted (ext :: rest) outer seen.
Proof.
  intros Heq Hoe (vis & refd & Hvis & _). simpl in Hvis.
  unfold references in Hvis.
  rewrite decide_False, Hoe in Hvis by (intros ?; done). done.
Qed.

Lemma substituteLoop_spec inner outer seen acc :
  match substituteLoop inner outer seen acc with
  | Returns res =>
      accepted inner outer seen
      /\ exists exp, expansion inner outer = Some exp /\ res = acc ++ exp
  | Throws e => isOuterExtensionsError e /\ ~ accepted inner outer seen
  | Undefined => False
  end.
Proof.
  revert seen acc. induction inner as [|ext rest IH]; intros seen acc; simpl.
  - split; [apply accepted_nil|]. exists []. by rewrite app_nil_r.
  - unfold dupeCheck.
    destruct (decide (extension_type ext ∈ seen)) as [Hin|Hnin]; simpl.
    { split; [by eexists|]. intros Hacc.
      destruct (decide (ech_outer_extensions <> extension_type ext))
        as [Hne|Heq%dec_stable].
      - apply accepted_cons_plain in Hacc; tauto.
      - destruct (getOuterExtensions (extension_data ext)) as [oe|] eqn:Hoe.
        + apply (accepted_cons_outer _ _ _ _ oe) in Hacc; tauto.
        + by apply accepted_cons_malformed in Hacc. }
    destruct (decide (ech_outer_extensions <> extension_type ext))
      as [Hne|Heq%dec_stable].
    + specialize (IH ({[extension_type ext]} ∪ seen) (acc ++ [ext])).
      unfold expandOne. rewrite decide_True by done. simpl.
      destruct (substituteLoop rest outer _ _) as [res|e|]; [| |done].
      * destruct IH as (Hacc & exp & -> & ->).
        split; [by apply accepted_cons_plain|].
        exists (ext :: exp). simpl. by rewrite <- app_assoc.
      * destruct IH as [He Hnot]. split; [done|].
        intros Hacc%accepted_cons_plain; tauto.
    + destruct (getOuterExtensions (extension_data ext)) as [oe|] eqn:Hoe.
      2:{ split; [by eexists|]. by apply accepted_cons_malformed. }
      pose proof (expandOuter_spec (types oe) outer
                    ({[extension_type ext]} ∪ seen) acc) as Hexp.
      destruct (expandOuter (types oe) outer _ acc)
        as [[seen' acc']|e|]; simpl; [| |done].
      * destruct Hexp as (Hfresh & Hech & -> & found & Hfound & ->).
        specialize (IH (list_to_set (types oe)
                        ∪ ({[extension_type ext]} ∪ seen)) (acc ++ found)).
        unfold expandOne, references.
        rewrite !decide_False by (intros ?; done). rewrite Hoe. simpl.
        rewrite Hfound. simpl.
        destruct (substituteLoop rest outer _ _) as [res|e|]; [| |done].
        -- destruct IH as (Hacc & exp & -> & ->). split.
           ++ by apply (accepted_cons_outer _ _ _ _ oe).
           ++ exists (found ++ exp). simpl. by rewrite <- app_assoc.
        -- destruct IH as [He Hnot]. split; [done|].
           intros Hacc%(accepted_cons_outer _ _ _ _ oe); tauto.
      * destruct Hexp as [He Hnot]. split; [done|].
        intros Hacc%(accepted_cons_outer _ _ _ _ oe); tauto.
Qed.

Lemma scanOuter_found outerIt t found after :
  scanOuter outerIt t = found :: after ->
  extension_type found = t
  /\ exists skipped,
       outerIt = skipped ++ found :: after
       /\ Forall (fun e => extension_type e <> t) skipped.
Proof.
  induction outerIt as [|e rest IH]; simpl; [done|].
  destruct (decide (extension_type e = t)) as [Heq|Hne].
  - intros [= -> ->]. split; [done|]. by exists [].
  - intros [Ht (skipped & -> & Hskip)]%IH. split; [done|].
    exists (e :: skipped). split; [done|]. by constructor.
Qed.

(** The in-order scan returns extensions of exactly the referenced types,
    in the order in which the outer list has them. *)
Lemma lookupOuter_found extTypes outer found :
  lookupOuter extTypes outer = Some found ->
  extension_type <$> found = extTypes /\ found `sublist_of` outer.
Proof.
  revert outer found.
  induction extTypes as [|t ts IH]; intros outer found; simpl.
  - intros [= <-]. split; [done|]. apply sublist_nil_l.
  - destruct (scanOuter outer t) as [|e after] eqn:Hscan; [done|].
    apply scanOuter_found in Hscan as [Ht (skipped & -> & _)].
    destruct (lookupOuter ts after) as [found'|] eqn:Hl; [|done].
    intros [= <-]. destruct (IH _ _ Hl) as [Htypes Hsub].
    split; [by rewrite fmap_cons, Ht, Htypes|].
    apply sublist_inserts_l. by constructor.
Qed.

Lemma visitedTypes_referencedTypes inner :
  is_Some (visitedTypes inner) <-> is_Some (referencedTypes inner).
Proof.
  induction inner as [|ext rest IH]; simpl; [done|].
  destruct (references ext); simpl; [|done].
  destruct (visitedTypes rest), (referencedTypes rest); simpl;
    split; intros [? ?]; try done; try (by eexists);
    destruct IH as [IH1 IH2];
    (by destruct IH1; [by eexists|]) || (by destruct IH2; [by eexists|]).
Qed.

(** The types of the expansion are among the visited types, in order. *)
Lemma expansion_types inner outer res visited :
  expansion inner outer = Some res ->
  visitedTypes inner = Some visited ->
  (extension_type <$> res) `sublist_of` visited.
Proof.
  revert res visited.
  induction inner as [|ext rest IH]; intros res visited; simpl.
  - by intros [= <-] [= <-].
  - unfold expandOne, references.
    destruct (decide (ech_outer_extensions <> extension_type ext)) as [Hne|Heq];
      simpl.
    + destruct (expansion rest outer) as [there|]; [|done].
      destruct (visitedTypes rest) as [vis|]; [|done]. simpl.
      intros [= <-] [= <-]. simpl. constructor. by apply IH.
    + destruct (getOuterExtensions (extension_data ext)) as [oe|]; [|done].
      simpl. destruct (lookupOuter (types oe) outer) as [here|] eqn:Hl;
        [|done]. simpl.
      destruct (expansion rest outer) as [there|]; [|done].
      destruct (visitedTypes rest) as [vis|]; [|done]. simpl.
      intros [= <-] [= <-]. rewrite fmap_app.
      apply lookupOuter_found in Hl as [-> _].
      apply sublist_cons, sublist_app; [done|by apply IH].
Qed.

(** The inputs [substituteOuterExtensions] rejects: an
    [ech_outer_extensions] that does not decode; a type visited twice
    (two inner extensions of one type, [ech_outer_extensions] included,
    or a referenced type that is the type of an inner extension or is
    referenced twice); a reference to [encrypted_client_hello]; a
    reference that the in-order scan of the outer list does not find. *)
Definition rejected (inner outer : list Extension) : Prop :=
  visitedTypes inner = None
  \/ (exists visited, visitedTypes inner = Some visited /\ ~ NoDup visited)
  \/ (exists referenced,
        referencedTypes inner = Some referenced
        /\ encrypted_client_hello ∈ referenced)
  \/ expansion inner outer = None.

Lemma accepted_empty inner outer :
  accepted inner outer ∅ <-> ~ rejected inner outer.
Proof.
  unfold accepted, rejected, fresh. split.
  - intros (vis & refd & Hvis & Hrefd & [Hnd _] & Hech & [exp Hexp]).
    rewrite Hvis, Hrefd, Hexp.
    intros [?|[(? & [= <-] & ?)|[(? & [= <-] & ?)|?]]]; done.
  - intros Hnot.
    destruct (visitedTypes inner) as [vis|] eqn:Hvis; [|tauto].
    destruct (proj1 (visitedTypes_referencedTypes inner)) as [refd Hrefd];
      [by rewrite Hvis|].
    exists vis, refd. rewrite Hrefd in *.
    assert (NoDup vis) as Hnd.
    { destruct (decide (NoDup vis)); [done|]. destruct Hnot. eauto. }
    assert (encrypted_client_hello ∉ refd) as Hech.
    { intros Hin. destruct Hnot. eauto 10. }
    assert (is_Some (expansion inner outer)) as Hexp.
    { destruct (expansion inner outer); [by eexists|]. tauto. }
    split_and!; try done; set_solver.
Qed.

(** C4, amended.  [substituteOuterExtensions] throws
    [OuterExtensionsError] exactly on the rejected inputs: when some
    [ech_outer_extensions] extension does not decode, when a type is
    visited twice (which covers every duplicate type of the expanded
    list, and also a second [ech_outer_extensions] and a reference to
    [ech_outer_extensions]), when a list references
    [encrypted_client_hello], and when a referenced type is not found by
    the in-order scan of the outer list.  Otherwise it returns the inner
    extensions with each [ech_outer_extensions] replaced, in place and in
    order, by the referenced outer extensions, and the types of the
    result are pairwise distinct. *)
Theorem substituteOuterExtensions_expands inner outer :
  match substituteOuterExtensions inner outer with
  | Returns res =>
      ~ rejected inner outer
      /\ expansion inner outer = Some res
      /\ NoDup (extension_type <$> res)
  | Throws e => isOuterExtensionsError e /\ rejected inner outer
  | Undefined => False
  end.
Proof.
  unfold substituteOuterExtensions.
  pose proof (substituteLoop_spec inner outer ∅ []) as Hspec.
  destruct (substituteLoop inner outer ∅ []) as [res|e|]; [| |done].
  - destruct Hspec as (Hacc & exp & Hexp & ->). simpl.
    split; [by apply accepted_empty|]. split; [done|].
    destruct Hacc as (vis & _ & Hvis & _ & [Hnd _] & _).
    eapply sublist_NoDup; [done|]. by eapply expansion_types.
  - destruct Hspec as [He Hnot]. split; [done|].
    rewrite accepted_empty in Hnot.
    unfold rejected in *.
    destruct (visitedTypes inner) as [vis|] eqn:Hvis; [|by left].
    destruct (decide (NoDup vis)); [|right; left; eauto].
    destruct (proj1 (visitedTypes_referencedTypes inner)) as [refd Hrefd];
      [by rewrite Hvis|].
    destruct (decide (encrypted_client_hello ∈ refd));
      [right; right; left; eauto|].
    destruct (expansion inner outer) eqn:Hexp; [|tauto].
    destruct Hnot. rewrite Hrefd.
    intros [?|[(? & [= <-] & ?)|[(? & [= <-] & ?)|?]]]; done.
Qed.

(** *** Expansion of one reference list between ordinary extensions *)

Lemma visitedTypes_app l1 l2 :
  visitedTypes (l1 ++ l2)
  = v1 ← visitedTypes l1; v2 ← visitedTypes l2; Some (v1 ++ v2).
Proof.
  induction l1 as [|e l1 IH]; simpl; [by destruct (visitedTypes l2)|].
  rewrite IH. destruct (references e); simpl; [|done].
  destruct (visitedTypes l1); simpl; [|done].
  destruct (visitedTypes l2); simpl; [|done].
  by rewrite <- app_assoc.
Qed.

Lemma referencedTypes_app l1 l2 :
  referencedTypes (l1 ++ l2)
  = r1 ← referencedTypes l1; r2 ← referencedTypes l2; Some (r1 ++ r2).
Proof.
  induction l1 as [|e l1 IH]; simpl; [by destruct (referencedTypes l2)|].
  rewrite IH. destruct (references e); simpl; [|done].
  destruct (referencedTypes l1); simpl; [|done].
  destruct (referencedTypes l2); simpl; [|done].
  by rewrite <- app_assoc.
Qed.

Lemma expansion_app l1 l2 outer :
  expansion (l1 ++ l2) outer
  = e1 ← expansion l1 outer; e2 ← expansion l2 outer; Some (e1 ++ e2).
Proof.
  induction l1 as [|e l1 IH]; simpl; [by destruct (expansion l2 outer)|].
  rewrite IH. destruct (expandOne outer e); simpl; [|done].
  destruct (expansion l1 outer); simpl; [|done].
  destruct (expansion l2 outer); simpl; [|done].
  by rewrite <- app_assoc.
Qed.

(** A list without [ech_outer_extensions] expands to itself. *)
Lemma plain_extensions l outer :
  Forall (fun e => ech_outer_extensions <> extension_type e) l ->
  visitedTypes l = Some (extension_type <$> l)
  /\ referencedTypes l = Some []
  /\ expansion l outer = Some l.
Proof.
  induction 1 as [|e l He Hl (IH1 & IH2 & IH3)]; simpl; [done|].
  unfold expandOne, references. rewrite !decide_True by done. simpl.
  by rewrite IH1, IH2, IH3.
Qed.

Lemma substituteOuterExtensions_Returns inner outer res :
  accepted inner outer ∅ -> expansion inner outer = Some res ->
  substituteOuterExtensions inner outer = Returns res.
Proof.
  intros Hacc Hexp. unfold substituteOuterExtensions.
  pose proof (substituteLoop_spec inner outer ∅ []) as Hspec.
  destruct (substituteLoop inner outer ∅ []) as [res'|e|]; [| |done].
  - destruct Hspec as (_ & exp & Hexp' & ->). simpl. congruence.
  - by destruct Hspec as [_ []].
Qed.

(** The inner list whose block [sel] was replaced by the reference list
    [outerExt] expands back to the original, when the types are pairwise
    distinct and the outer list has the block. *)
Lemma substituteOuterExtensions_block pre sel post outer outerExt :
  NoDup (extension_type <$> pre ++ sel ++ post) ->
  ech_outer_extensions ∉ extension_type <$> pre ++ sel ++ post ->
  encrypted_client_hello ∉ extension_type <$> sel ->
  extension_type outerExt = ech_outer_extensions ->
  getOuterExtensions (extension_data outerExt)
  = Some {| types := extension_type <$> sel |} ->
  lookupOuter (extension_type <$> sel) outer = Some sel ->
  substituteOuterExtensions (pre ++ outerExt :: post) outer
  = Returns (pre ++ sel ++ post).
Proof.
  intros Hnd Heoe Hech HX Hdec Hlook.
  rewrite !fmap_app in Hnd, Heoe.
  assert (Forall (fun e => ech_outer_extensions <> extension_type e) pre)
    as Hpre.
  { apply Forall_forall. intros e He Heq. apply Heoe.
    rewrite Heq. apply elem_of_app. left. by apply list_elem_of_fmap_2. }
  assert (Forall (fun e => ech_outer_extensions <> extension_type e) post)
    as Hpost.
  { apply Forall_forall. intros e He Heq. apply Heoe.
    rewrite Heq. apply elem_of_app. right. apply elem_of_app. right.
    by apply list_elem_of_fmap_2. }
  destruct (plain_extensions pre outer Hpre) as (Hv1 & Hr1 & He1).
  destruct (plain_extensions post outer Hpost) as (Hv2 & Hr2 & He2).
  assert (references outerExt = Some (extension_type <$> sel)) as Hrefs.
  { unfold references. rewrite decide_False by (intros ?; done).
    by rewrite Hdec. }
  assert (expandOne outer outerExt = Some sel) as Hone.
  { unfold expandOne. rewrite decide_False by (intros ?; done).
    rewrite Hrefs. done. }
  apply substituteOuterExtensions_Returns.
  - exists (extension_type <$> pre ++ outerExt :: sel ++ post),
           (extension_type <$> sel).
    split_and!.
    + rewrite visitedTypes_app, Hv1. simpl. rewrite Hrefs, Hv2. simpl.
      by rewrite !fmap_app, fmap_cons, !fmap_app.
    + rewrite referencedTypes_app, Hr1. simpl. rewrite Hrefs, Hr2. simpl.
      by rewrite app_nil_r.
    + split; [|set_solver]. rewrite fmap_app, fmap_cons, fmap_app, HX.
      apply NoDup_app in Hnd as (Hnd1 & Hdisj & Hnd2).
      apply NoDup_app. split; [done|]. split.
      * intros t Ht [->|Hin]%elem_of_cons; [|by apply (Hdisj t)].
        apply Heoe. apply elem_of_app. by left.
      * apply NoDup_cons. split; [|done]. intros Hin.
        apply Heoe. apply elem_of_app. by right.
    + done.
    + rewrite expansion_app, He1. simpl. rewrite Hone, He2. by eexists.
  - rewrite expansion_app, He1. simpl. by rewrite Hone, He2.
Qed.

Lemma substituteOuterExtensions_plain inner outer :
  NoDup (extension_type <$> inner) ->
  ech_outer_extensions ∉ extension_type <$> inner ->
  substituteOuterExtensions inner outer = Returns inner.
Proof.
  intros Hnd Heoe.
  assert (Forall (fun e => ech_outer_extensions <> extension_type e) inner)
    as Hplain.
  { apply Forall_forall. intros e He Heq. apply Heoe.
    rewrite Heq. by apply list_elem_of_fmap_2. }
  destruct (plain_extensions inner outer Hplain) as (Hv & Hr & He).
  apply substituteOuterExtensions_Returns; [|done].
  exists (extension_type <$> inner), [].
  assert (fresh ∅ (extension_type <$> inner)) by (split; [done|set_solver]).
  assert (is_Some (expansion inner outer)) by (by eexists).
  split_and!; try done; set_solver.
Qed.

(** *** Where the extensions of the result come from *)

Definition fromInnerOrOuter (inner outer : list Extension) (e : Extension)
    : Prop :=
  extension_type e <> ech_outer_extensions
  /\ (e ∈ inner
      \/ (e ∈ outer /\ extension_type e <> encrypted_client_hello)).

Lemma substituteLoop_provenance inner outer seen acc res :
  substituteLoop inner outer seen acc = Returns res ->
  exists added,
    res = acc ++ added /\ Forall (fromInnerOrOuter inner outer) added.
Proof.
  revert seen acc. induction inner as [|ext rest IH]; intros seen acc; simpl.
  { intros [= <-]. exists []. by rewrite app_nil_r. }
  assert (forall added,
            Forall (fromInnerOrOuter rest outer) added ->
            Forall (fromInnerOrOuter (ext :: rest) outer) added) as Hweaken.
  { intros added Hadded. eapply Forall_impl; [done|].
    intros e [Ht [Hin|Hout]].
    - split; [done|]. left. by right.
    - split; [done|]. by right. }
  unfold dupeCheck. destruct (decide (extension_type ext ∈ seen)); [done|].
  simpl.
  destruct (decide (ech_outer_extensions <> extension_type ext)) as [|Heoe].
  - intros (added & -> & Hadded)%IH. exists (ext :: added).
    split; [by rewrite <- app_assoc|]. constructor; [|by apply Hweaken].
    split; [done|]. left. by left.
  - destruct (getOuterExtensions (extension_data ext)) as [oe|]; [|done].
    pose proof (expandOuter_spec (types oe) outer
                  ({[extension_type ext]} ∪ seen) acc) as Hexp.
    destruct (expandOuter (types oe) outer
                ({[extension_type ext]} ∪ seen) acc)
      as [[seen' expanded]|e|]; [|done|done].
    destruct Hexp as ([_ Hfresh] & Hech & _ & found & Hfound & ->). simpl.
    intros (added & -> & Hadded)%IH. exists (found ++ added).
    split; [by rewrite <- app_assoc|].
    apply Forall_app. split; [|by apply Hweaken].
    apply lookupOuter_found in Hfound as [Htypes Hsub].
    apply Forall_forall. intros e He.
    assert (extension_type e ∈ types oe) as Ht
      by (rewrite <- Htypes; by apply list_elem_of_fmap_2).
    split.
    + intros Heq. apply (Hfresh _ Ht). rewrite Heq.
      destruct (decide (ech_outer_extensions = extension_type ext)) as [->|];
        [set_solver|done].
    + right. split; [by eapply elem_of_sublist|]. intros Heq. congruence.
Qed.


Lemma substituteOuterExtensions_fromInnerOrOuter inner outer res :
  substituteOuterExtensions inner outer = Returns res ->
  Forall (fromInnerOrOuter inner outer) res.
Proof.
  unfold substituteOuterExtensions.
  by intros (added & -> & Hadded)%substituteLoop_provenance.
Qed.

(** Every extension [substituteOuterExtensions] returns is an extension
    of the inner list or an extension of the outer list that is not the
    ECH extension, and none is an [ech_outer_extensions]. *)
Theorem substituteOuterExtensions_provenance inner outer res :
  substituteOuterExtensions inner outer = Returns res ->
  Forall (fromInnerOrOuter inner outer) res.
Proof. apply substituteOuterExtensions_fromInnerOrOuter. Qed.

End substitute.

(** ** Acceptance confirmation *)

(** [ServerHello]; [sh_legacy_version], [sh_random] and [sh_extensions]
    are its fields [legacy_version], [random] and [extensions]. *)
Record ServerHello : Type := {
  sh_legacy_version : Z;
  sh_random : Buf;
  legacy_session_id_echo : Buf;
  cipher_suite : Z;
  legacy_compression_method : Z;
  sh_extensions : list Extension
}.

(** Modelled from the spec: [kEchAcceptConfirmationSize] is declared in
    fizz/protocol/ech/Types.h, which is not among the sources; the
    acceptance signal is "the last 8 bytes of [ServerHello.random]". *)
Definition kEchAcceptConfirmationSize : nat := 8.

(** [memset] and [memcpy] into [dst + off], and a read of [n] bytes at
    [src + off] ([memcpy]'s and [memcmp]'s operands); [Undefined] when
    the bytes are not all inside the buffer. *)
Definition writeAt (dst : Buf) (off : Z) (src : Buf) : result Buf :=
  if decide (0 <= off /\ off + Z.of_nat (length src) <= Z.of_nat (length dst))
  then Returns (take (Z.to_nat off) dst ++ src
                ++ drop (Z.to_nat off + length src) dst)
  else Undefined.

Definition readAt (src : Buf) (off : Z) (n : nat) : result Buf :=
  if decide (0 <= off /\ off + Z.of_nat n <= Z.of_nat (length src))
  then Returns (take n (drop (Z.to_nat off) src))
  else Undefined.

(** [random.size() - kEchAcceptConfirmationSize], in [size_t]. *)
Definition confirmationOffset (random : Buf) : Z :=
  size_t (Z.of_nat (length random) - Z.of_nat kEchAcceptConfirmationSize).

Definition with_random (shlo : ServerHello) (random : Buf) : ServerHello :=
  {| sh_legacy_version := sh_legacy_version shlo;
     sh_random := random;
     legacy_session_id_echo := legacy_session_id_echo shlo;
     cipher_suite := cipher_suite shlo;
     legacy_compression_method := legacy_compression_method shlo;
     sh_extensions := sh_extensions shlo |}.

(** [makeDummyServerHello] (Encryption.cpp:237-256): a copy with the
    acceptance confirmation bytes zeroed. *)
Definition makeDummyServerHello (shlo : ServerHello) : result ServerHello :=
  random ← writeAt (sh_random shlo) (confirmationOffset (sh_random shlo))
             (zeros kEchAcceptConfirmationSize);
  Returns (with_random shlo random).

(** [EarlySecrets], the labels of [KeyScheduler::getSecret] used here. *)
Inductive EarlySecrets : Type :=
| ECHAcceptConfirmation
| HRRECHAcceptConfirmation.

Section acceptance.

(** [HandshakeContext], [KeyScheduler] and [encodeHandshake] are declared
    in fizz/protocol and fizz/record, which are not among the sources.
    The functions take the context and the scheduler by [unique_ptr];
    "the same transcript and scheduler" are equal values here. *)
Variable HandshakeContext : Type.
Variable KeyScheduler : Type.
Variable appendToTranscript : HandshakeContext -> Buf -> HandshakeContext.
Variable getHandshakeContext : HandshakeContext -> Buf.
Variable getSecret : KeyScheduler -> EarlySecrets -> Buf -> Buf.
Variable encodeHandshake : ServerHello -> Buf.

(** [calculateAcceptConfirmation] for a [ServerHello]
    (Encryption.cpp:288-302). *)
Definition calculateAcceptConfirmation (shlo : ServerHello)
    (context : HandshakeContext) (scheduler : KeyScheduler) : result Buf :=
  shloEch ← makeDummyServerHello shlo;
  let context := appendToTranscript context (encodeHandshake shloEch) in
  let hsc := getHandshakeContext context in
  Returns (getSecret scheduler ECHAcceptConfirmation hsc).

(** [checkECHAccepted] for a [ServerHello] (Encryption.cpp:327-339). *)
Definition checkECHAccepted (shlo : ServerHello)
    (context : HandshakeContext) (scheduler : KeyScheduler) : result bool :=
  acceptConfirmation ← calculateAcceptConfirmation shlo context scheduler;
  got ← readAt (sh_random shlo) (confirmationOffset (sh_random shlo))
          kEchAcceptConfirmationSize;
  expected ← readAt acceptConfirmation 0 kEchAcceptConfirmationSize;
  Returns (bool_decide (got = expected)).

(** [setAcceptConfirmation] for a [ServerHello]
    (Encryption.cpp:362-374). *)
Definition setAcceptConfirmation (shlo : ServerHello)
    (context : HandshakeContext) (scheduler : KeyScheduler)
    : result ServerHello :=
  acceptConfirmation ← calculateAcceptConfirmation shlo context scheduler;
  bytes ← readAt acceptConfirmation 0 kEchAcceptConfirmationSize;
  random ← writeAt (sh_random shlo) (confirmationOffset (sh_random shlo))
             bytes;
  Returns (with_random shlo random).

(** [Random] is a 32-byte array. *)
Definition isRandom (random : Buf) : Prop := length random = 32%nat.

Lemma confirmationOffset_random random :
  isRandom random -> confirmationOffset random = 24.
Proof. unfold isRandom, confirmationOffset. by intros ->. Qed.

Lemma writeAt_confirmation random bytes :
  isRandom random -> length bytes = 8%nat ->
  writeAt random 24 bytes = Returns (take 24 random ++ bytes).
Proof.
  unfold isRandom, writeAt. intros Hr Hb. rewrite decide_True by lia.
  rewrite drop_ge by lia. by rewrite app_nil_r.
Qed.

Lemma readAt_confirmation random :
  isRandom random ->
  readAt random 24 kEchAcceptConfirmationSize
  = Returns (drop 24 random).
Proof.
  unfold isRandom, readAt, kEchAcceptConfirmationSize. intros Hr.
  rewrite decide_True by lia. rewrite take_ge; [done|].
  rewrite length_drop. lia.
Qed.

Lemma readAt_secret secret :
  (8 <= length secret)%nat ->
  readAt secret 0 kEchAcceptConfirmationSize = Returns (take 8 secret).
Proof.
  unfold readAt, kEchAcceptConfirmationSize. intros Hs.
  by rewrite decide_True by lia.
Qed.

(** The dummy hello does not depend on the confirmation bytes. *)
Lemma makeDummyServerHello_with_random shlo random :
  isRandom (sh_random shlo) -> isRandom random ->
  take 24 random = take 24 (sh_random shlo) ->
  makeDummyServerHello (with_random shlo random) = makeDummyServerHello shlo.
Proof.
  intros Hr Hr' Htake. unfold makeDummyServerHello. simpl.
  rewrite !confirmationOffset_random by done.
  rewrite !writeAt_confirmation by done. simpl.
  unfold with_random. simpl. by rewrite Htake.
Qed.

Lemma makeDummyServerHello_returns shlo :
  isRandom (sh_random shlo) ->
  makeDummyServerHello shlo
  = Returns (with_random shlo (take 24 (sh_random shlo) ++ zeros 8)).
Proof.
  intros Hr. unfold makeDummyServerHello.
  rewrite confirmationOffset_random, writeAt_confirmation by done. done.
Qed.

(** C5.  For every ServerHello, handshake context and key scheduler
    (whose secrets have at least the 8 bytes that are copied):
    [setAcceptConfirmation] followed by [checkECHAccepted] with the same
    context and scheduler returns true, and changing any one of the 8
    confirmation bytes (the last 8 bytes of the random) to another value
    makes [checkECHAccepted] return false. *)
Theorem setAcceptConfirmation_then_check shlo context scheduler :
  isRandom (sh_random shlo) ->
  (forall hsc,
     (8 <= length (getSecret scheduler ECHAcceptConfirmation hsc))%nat) ->
  exists shlo',
    setAcceptConfirmation shlo context scheduler = Returns shlo'
    /\ checkECHAccepted shlo' context scheduler = Returns true
    /\ forall (k : nat) (b : byte),
         (k < 8)%nat ->
         sh_random shlo' !! (24 + k)%nat <> Some b ->
         checkECHAccepted
           (with_random shlo' (<[(24 + k)%nat := b]> (sh_random shlo')))
           context scheduler
         = Returns false.
Proof.
  intros Hr Hsecret.
  set (dummy := with_random shlo (take 24 (sh_random shlo) ++ zeros 8)).
  set (secret := getSecret scheduler ECHAcceptConfirmation
                   (getHandshakeContext
                      (appendToTranscript context (encodeHandshake dummy)))).
  assert (8 <= length secret)%nat as Hs by apply Hsecret.
  assert (forall s, isRandom (sh_random s) ->
            makeDummyServerHello s = makeDummyServerHello shlo ->
            calculateAcceptConfirmation s context scheduler = Returns secret)
    as Hcalc.
  { intros s Hrs Hd. unfold calculateAcceptConfirmation.
    rewrite Hd, makeDummyServerHello_returns by done. done. }
  set (random' := take 24 (sh_random shlo) ++ take 8 secret).
  assert (length (take 8 secret) = 8%nat) as Hlen8
    by (rewrite length_take; lia).
  assert (isRandom random') as Hr'.
  { unfold isRandom, random' in *.
    rewrite length_app, length_take, Hlen8. lia. }
  assert (take 24 random' = take 24 (sh_random shlo)) as Htake.
  { unfold random'. rewrite take_app_le by (rewrite length_take; unfold isRandom in Hr; lia).
    rewrite take_take. f_equal. }
  assert (drop 24 random' = take 8 secret) as Hdrop.
  { unfold random'. rewrite drop_app_length'; [done|].
    rewrite length_take. unfold isRandom in Hr. lia. }
  exists (with_random shlo random'). split; [|split].
  - unfold setAcceptConfirmation. rewrite Hcalc by done. simpl.
    rewrite readAt_secret by done. simpl.
    rewrite confirmationOffset_random, writeAt_confirmation by done. done.
  - unfold checkECHAccepted.
    rewrite Hcalc
      by (try apply makeDummyServerHello_with_random; done). simpl.
    rewrite confirmationOffset_random, readAt_confirmation by done. simpl.
    rewrite readAt_secret by done. simpl.
    by rewrite Hdrop, bool_decide_eq_true_2.
  - intros k b Hk Hne. cbn [sh_random with_random] in Hne |- *.
    set (flipped := <[(24 + k)%nat := b]> random').
    assert (isRandom flipped) as Hrf
      by (unfold isRandom, flipped; by rewrite length_insert).
    assert (take 24 flipped = take 24 (sh_random shlo)) as Htakef.
    { unfold flipped. rewrite take_insert_ge by lia. done. }
    unfold checkECHAccepted.
    rewrite Hcalc; simpl.
    + rewrite confirmationOffset_random, readAt_confirmation by done. simpl.
      rewrite readAt_secret by done. simpl.
      rewrite bool_decide_eq_false_2; [done|].
      intros Heq. change (drop 24 flipped = take 8 secret) in Heq.
      apply Hne.
      assert (drop 24 flipped !! k = Some b) as Hb.
      { rewrite lookup_drop. unfold flipped.
        apply list_lookup_insert_eq. unfold isRandom in Hr'. lia. }
      rewrite Heq in Hb. by rewrite <- Hdrop, lookup_drop in Hb.
    + done.
    + rewrite <- (makeDummyServerHello_with_random shlo flipped) by done.
      done.
Qed.

End acceptance.

(** *** The HelloRetryRequest variants *)

Record HelloRetryRequest : Type := {
  hrr_legacy_version : Z;
  hrr_legacy_session_id_echo : Buf;
  hrr_cipher_suite : Z;
  hrr_legacy_compression_method : Z;
  hrr_extensions : list Extension
}.

Definition with_hrr_extensions (hrr : HelloRetryRequest)
    (exts : list Extension) : HelloRetryRequest :=
  {| hrr_legacy_version := hrr_legacy_version hrr;
     hrr_legacy_session_id_echo := hrr_legacy_session_id_echo hrr;
     hrr_cipher_suite := hrr_cipher_suite hrr;
     hrr_legacy_compression_method := hrr_legacy_compression_method hrr;
     hrr_extensions := exts |}.

(** [makeDummyHRR] (Encryption.cpp:258-284): the ECH extensions replaced
    by one whose content is [kEchAcceptConfirmationSize] zero bytes. *)
Definition makeDummyHRR (hrr : HelloRetryRequest) : HelloRetryRequest :=
  with_hrr_extensions hrr
    ((fun ext =>
        if decide (extension_type ext <> encrypted_client_hello) then ext
        else {| extension_type := encrypted_client_hello;
                extension_data := zeros kEchAcceptConfirmationSize |})
       <$> hrr_extensions hrr).

Definition secret_too_small : exn :=
  runtime_error "ech acceptance secret too small".

Section acceptance_hrr.

Variable HandshakeContext : Type.
Variable KeyScheduler : Type.
Variable appendToTranscript : HandshakeContext -> Buf -> HandshakeContext.
Variable getHandshakeContext : HandshakeContext -> Buf.
Variable getSecret : KeyScheduler -> EarlySecrets -> Buf -> Buf.
Variable encodeHandshake : HelloRetryRequest -> Buf.

(** [getExtension<ECHHelloRetryRequest>(extensions)], the confirmation
    bytes of the ECH extension of the list if it has one, and
    [encodeExtension(ECHHelloRetryRequest())], the extension that is
    appended before the confirmation is computed, are defined with
    [ECHHelloRetryRequest] in fizz/protocol/ech, which is not among the
    sources. *)
Variable getECHHelloRetryRequest : list Extension -> option Buf.
Variable blankECHHelloRetryRequest : Extension.

(** [calculateAcceptConfirmation] for a [HelloRetryRequest]
    (Encryption.cpp:304-323). *)
Definition calculateAcceptConfirmationHRR (hrr : HelloRetryRequest)
    (context : HandshakeContext) (scheduler : KeyScheduler) : result Buf :=
  let hrrEch := makeDummyHRR hrr in
  let context := appendToTranscript context (encodeHandshake hrrEch) in
  let hsc := getHandshakeContext context in
  let secret := getSecret scheduler HRRECHAcceptConfirmation hsc in
  if decide (length secret < kEchAcceptConfirmationSize)%nat
  then Throws secret_too_small
  else Returns secret.

(** [checkECHAccepted] for a [HelloRetryRequest]
    (Encryption.cpp:341-360). *)
Definition checkECHAcceptedHRR (hrr : HelloRetryRequest)
    (context : HandshakeContext) (scheduler : KeyScheduler) : result bool :=
  acceptConfirmation ← calculateAcceptConfirmationHRR hrr context scheduler;
  match getECHHelloRetryRequest (hrr_extensions hrr) with
  | None => Returns false
  | Some confirmation =>
      got ← readAt confirmation 0 kEchAcceptConfirmationSize;
      expected ← readAt acceptConfirmation 0 kEchAcceptConfirmationSize;
      Returns (bool_decide (got = expected))
  end.

(** [setAcceptConfirmation] for a [HelloRetryRequest]
    (Encryption.cpp:376-393): the extension is appended, the confirmation
    is computed, and its first bytes are copied over the content of the
    last extension. *)
Definition setAcceptConfirmationHRR (hrr : HelloRetryRequest)
    (context : HandshakeContext) (scheduler : KeyScheduler)
    : result HelloRetryRequest :=
  let hrr :=
    with_hrr_extensions hrr
      (hrr_extensions hrr ++ [blankECHHelloRetryRequest]) in
  acceptConfirmation ← calculateAcceptConfirmationHRR hrr context scheduler;
  bytes ← readAt acceptConfirmation 0 kEchAcceptConfirmationSize;
  match last (hrr_extensions hrr) with
  | None => Undefined
  | Some back =>
      data ← writeAt (extension_data back) 0 bytes;
      Returns
        (with_hrr_extensions hrr
           (take (length (hrr_extensions hrr) - 1) (hrr_extensions hrr)
            ++ [ {| extension_type := extension_type back;
                    extension_data := data |} ]))
  end.




(** An acceptance secret of fewer than 8 bytes is refused: both
    HelloRetryRequest functions throw [std::runtime_error]. *)
Theorem acceptConfirmationHRR_secret_too_small hrr context scheduler :
  (forall hsc,
     (length (getSecret scheduler HRRECHAcceptConfirmation hsc) < 8)%nat) ->
  checkECHAcceptedHRR hrr context scheduler = Throws secret_too_small
  /\ setAcceptConfirmationHRR hrr context scheduler
     = Throws secret_too_small.
Proof.
  intros Hsmall.
  assert (forall h, calculateAcceptConfirmationHRR h context scheduler
                    = Throws secret_too_small) as Hcalc.
  { intros h. unfold calculateAcceptConfirmationHRR.
    by rewrite decide_True by apply Hsmall. }
  unfold checkECHAcceptedHRR, setAcceptConfirmationHRR.
  by rewrite !Hcalc.
Qed.

End acceptance_hrr.

(** ** Encryption and decryption of the inner hello *)

(** [OuterECHClientHello]; [ech_cipher_suite] and [ech_config_id] are its
    fields [cipher_suite] and [config_id]. *)
Record OuterECHClientHello : Type := {
  ech_cipher_suite : HpkeSymmetricCipherSuite;
  ech_config_id : Z;
  enc : Buf;
  payload : Buf
}.

Inductive ECHVersion : Type := Draft15.

Definition with_payload (e : OuterECHClientHello) (p : Buf)
    : OuterECHClientHello :=
  {| ech_cipher_suite := ech_cipher_suite e;
     ech_config_id := ech_config_id e;
     enc := enc e;
     payload := p |}.

Definition with_extensions (chlo : ClientHello) (exts : list Extension)
    : ClientHello :=
  {| legacy_version := legacy_version chlo;
     random := random chlo;
     legacy_session_id := legacy_session_id chlo;
     cipher_suites := cipher_suites chlo;
     legacy_compression_methods := legacy_compression_methods chlo;
     extensions := exts;
     originalEncoding := originalEncoding chlo |}.

Definition with_legacy_session_id (chlo : ClientHello) (id : Buf)
    : ClientHello :=
  {| legacy_version := legacy_version chlo;
     random := random chlo;
     legacy_session_id := id;
     cipher_suites := cipher_suites chlo;
     legacy_compression_methods := legacy_compression_methods chlo;
     extensions := extensions chlo;
     originalEncoding := originalEncoding chlo |}.

Definition with_originalEncoding (chlo : ClientHello) (e : option Buf)
    : ClientHello :=
  {| legacy_version := legacy_version chlo;
     random := random chlo;
     legacy_session_id := legacy_session_id chlo;
     cipher_suites := cipher_suites chlo;
     legacy_compression_methods := legacy_compression_methods chlo;
     extensions := extensions chlo;
     originalEncoding := e |}.

(** [Cursor::skipWhile]: what the cursor has left to read afterwards. *)
Fixpoint skipWhile (p : byte -> bool) (cursor : Buf) : Buf :=
  match cursor with
  | [] => []
  | b :: rest => if p b then skipWhile p rest else cursor
  end.

Section encryption.

(** The codecs of fizz/record and fizz/protocol/ech/ECHExtensions and the
    HPKE context of fizz/crypto/hpke are not among the sources.  A decoder
    is a partial function ([None] when it throws); [decodeClientHello]
    also returns what the cursor has not read.  [seal] and [open] are
    the operations of one [HpkeContext]; the sequence number they advance
    is not modelled, each context being used once. *)
Variable ClientPresharedKey : Type.
Variable HpkeContext : Type.
Variable encodeClientHello : ClientHello -> Buf.
Variable decodeClientHello : Buf -> option (ClientHello * Buf).
Variable encodeHandshake : ClientHello -> Buf.
Variable encodeOuterExtensions : OuterExtensions -> Extension.
Variable getOuterExtensions : Buf -> option OuterExtensions.
Variable encodeECH : OuterECHClientHello -> Extension.
Variable getECH : Buf -> option OuterECHClientHello.
Variable encodePsk : ClientPresharedKey -> Extension.
Variable getServerNameList : list Extension -> option ServerNameList.
Variable getCipherOverhead : AeadId -> nat.
Variable seal : HpkeContext -> Buf -> Buf -> Buf.
Variable open : HpkeContext -> Buf -> Buf -> option Buf.

(** [hpke::SetupResult]. *)
Record SetupResult : Type := {
  setup_enc : Buf;
  context : HpkeContext
}.

(** The types of the inner extensions that are also outer extension
    types, in the order of the inner hello (Encryption.cpp:479-487). *)
Definition chosenTypes (chloInnerExt : list Extension)
    (outerExtensionTypes : list ExtensionType) : list ExtensionType :=
  extension_type
    <$> filter (fun ext => extension_type ext ∈ outerExtensionTypes)
          chloInnerExt.

(** The loop that replaces the first chosen extension by the reference
    list and erases the others (Encryption.cpp:495-507).  [Undefined]
    is the use of [it] when [std::find_if] returned [end()]. *)
Fixpoint replaceLoop (extTypes : list ExtensionType)
    (chloInnerExt : list Extension) (outerExtensionsInserted : bool)
    (outerExt : Extension) : result (list Extension) :=
  match extTypes with
  | [] => Returns chloInnerExt
  | extType :: rest =>
      match list_find (fun ext => extension_type ext = extType)
              chloInnerExt with
      | None => Undefined
      | Some (it, _) =>
          if outerExtensionsInserted
          then replaceLoop rest (delete it chloInnerExt) true outerExt
          else replaceLoop rest (<[it := outerExt]> chloInnerExt) true
                 outerExt
      end
  end.

(** [generateAndReplaceOuterExtensions] (Encryption.cpp:476-510). *)
Definition generateAndReplaceOuterExtensions
    (chloInnerExt : list Extension)
    (outerExtensionTypes : list ExtensionType) : result (list Extension) :=
  let extTypes := chosenTypes chloInnerExt outerExtensionTypes in
  if decide (length extTypes = 0%nat) then Returns chloInnerExt
  else replaceLoop extTypes chloInnerExt false
         (encodeOuterExtensions {| types := extTypes |}).

(** The inner hello as it is serialized (Encryption.cpp:523-526). *)
Definition innerForEncoding (clientHelloInner : ClientHello)
    (outerExtensionTypes : list ExtensionType) : result ClientHello :=
  let chloInnerCopy := with_legacy_session_id clientHelloInner [] in
  exts ← generateAndReplaceOuterExtensions (extensions chloInnerCopy)
           outerExtensionTypes;
  Returns (with_extensions chloInnerCopy exts).

(** The padded encoding that is sealed (Encryption.cpp:527-538). *)
Definition paddedInner (clientHelloInner chloInnerCopy : ClientHello)
    (maxLen : Z) : result Buf :=
  let encodedClientHelloInner := encodeClientHello chloInnerCopy in
  padding ← calculateECHPadding getServerNameList clientHelloInner
              (Z.of_nat (length encodedClientHelloInner)) maxLen;
  Returns (if 0 <? padding
           then encodedClientHelloInner ++ zeros (Z.to_nat padding)
           else encodedClientHelloInner).

(** The outer hello with the ECH extension, and the grease PSK if there
    is one, appended (Encryption.cpp:541-556). *)
Definition attach (clientHelloOuter : ClientHello)
    (echExtension : OuterECHClientHello)
    (greasePsk : option ClientPresharedKey) : ClientHello :=
  with_extensions clientHelloOuter
    (extensions clientHelloOuter ++ [encodeECH echExtension]
     ++ match greasePsk with
        | Some psk => [encodePsk psk]
        | None => []
        end).

(** The AAD of the seal (Encryption.cpp:540-559). *)
Definition sealAad (echExtension : OuterECHClientHello)
    (clientHelloOuter : ClientHello) (encodedClientHelloInner : Buf)
    (greasePsk : option ClientPresharedKey) : Buf :=
  let dummyPayloadSize :=
    (length encodedClientHelloInner
     + getCipherOverhead (aead_id (ech_cipher_suite echExtension)))%nat in
  let echExtension := with_payload echExtension (zeros dummyPayloadSize) in
  encodeClientHello (attach clientHelloOuter echExtension greasePsk).

(** [encryptClientHelloImpl] (Encryption.cpp:514-564): the extension with
    its payload set. *)
Definition encryptClientHelloImpl (echExtension : OuterECHClientHello)
    (clientHelloInner clientHelloOuter : ClientHello)
    (setupResult : SetupResult) (greasePsk : option ClientPresharedKey)
    (maxLen : Z) (outerExtensionTypes : list ExtensionType)
    : result OuterECHClientHello :=
  chloInnerCopy ← innerForEncoding clientHelloInner outerExtensionTypes;
  encodedClientHelloInner ←
    paddedInner clientHelloInner chloInnerCopy maxLen;
  let clientHelloOuterAad :=
    sealAad echExtension clientHelloOuter encodedClientHelloInner greasePsk in
  Returns (with_payload echExtension
             (seal (context setupResult) clientHelloOuterAad
                encodedClientHelloInner)).

(** The extension [encryptClientHello] starts from
    (Encryption.cpp:600-604). *)
Definition newECH (negotiatedECHConfig : NegotiatedECHConfig)
    (setupResult : SetupResult) : OuterECHClientHello :=
  {| ech_cipher_suite := cipherSuite negotiatedECHConfig;
     ech_config_id := configId negotiatedECHConfig;
     enc := setup_enc setupResult;
     payload := [] |}.

(** [encryptClientHello] (Encryption.cpp:593-616). *)
Definition encryptClientHello (negotiatedECHConfig : NegotiatedECHConfig)
    (clientHelloInner clientHelloOuter : ClientHello)
    (setupResult : SetupResult) (greasePsk : option ClientPresharedKey)
    (outerExtensionTypes : list ExtensionType) : result OuterECHClientHello :=
  let echExtension := newECH negotiatedECHConfig setupResult in
  encryptClientHelloImpl echExtension clientHelloInner clientHelloOuter
    setupResult greasePsk (maxLen negotiatedECHConfig) outerExtensionTypes.

(** [makeClientHelloOuterForAad] (Encryption.cpp:25-50).  [Undefined] is
    the use of [it] when the outer hello has no ECH extension. *)
Definition makeClientHelloOuterForAad (clientHelloOuter : ClientHello)
    : result Buf :=
  let chloCopy := clientHelloOuter in
  match list_find
          (fun e => extension_type e = encrypted_client_hello)
          (extensions chloCopy) with
  | None => Undefined
  | Some (it, e) =>
      match getECH (extension_data e) with
      | None => Throws callee_exception
      | Some echExtension =>
          let payloadSize := length (payload echExtension) in
          let echExtension := with_payload echExtension (zeros payloadSize) in
          Returns (encodeClientHello
                     (with_extensions chloCopy
                        (<[it := encodeECH echExtension]>
                           (extensions chloCopy))))
      end
  end.

(** [extractEncodedClientHelloInner] (Encryption.cpp:52-66). *)
Definition extractEncodedClientHelloInner (version : ECHVersion)
    (encryptedCh : Buf) (ctx : HpkeContext)
    (clientHelloOuter : ClientHello) : result Buf :=
  match version with
  | Draft15 =>
      aadCH ← makeClientHelloOuterForAad clientHelloOuter;
      match open ctx aadCH encryptedCh with
      | Some encodedClientHelloInner => Returns encodedClientHelloInner
      | None => Throws callee_exception
      end
  end.

(** [decryptECHWithContext] (Encryption.cpp:618-652). *)
Definition decryptECHWithContext (clientHelloOuter : ClientHello)
    (encryptedCh : Buf) (version : ECHVersion) (ctx : HpkeContext)
    : result ClientHello :=
  encodedClientHelloInner ←
    extractEncodedClientHelloInner version encryptedCh ctx clientHelloOuter;
  match decodeClientHello encodedClientHelloInner with
  | None => Throws callee_exception
  | Some (decodedChlo, rest) =>
      (* skipWhile([](uint8_t b) { return b == 0; }); isAtEnd() *)
      if bool_decide
           (skipWhile (fun b => bool_decide (b = Byte.x00)) rest = [])
      then
        let decodedChlo :=
          with_legacy_session_id decodedChlo
            (legacy_session_id clientHelloOuter) in
        expandedExtensions ←
          substituteOuterExtensions getOuterExtensions
            (extensions decodedChlo) (extensions clientHelloOuter);
        let decodedChlo := with_extensions decodedChlo expandedExtensions in
        Returns (with_originalEncoding decodedChlo
                   (Some (encodeHandshake decodedChlo)))
      else Throws (runtime_error "ech padding contains nonzero byte")
  end.

(** *** Compression of a contiguous block, and its expansion *)

Lemma list_find_middle {T : Type} (P : T -> Prop) `{!forall x, Decision (P x)}
    (pre : list T) (x : T) (l : list T) :
  Forall (fun y => ~ P y) pre -> P x ->
  list_find P (pre ++ x :: l) = Some (length pre, x).
Proof.
  intros Hpre Hx. apply list_find_Some. split; [apply list_lookup_middle; done|].
  split; [done|]. intros j y Hj Hlt. rewrite lookup_app_l in Hj by done.
  apply list_elem_of_lookup_2 in Hj.
  by apply (proj1 (Forall_forall _ _) Hpre).
Qed.

Lemma insert_middle {T : Type} (pre : list T) (x y : T) (l : list T) :
  <[length pre := y]> (pre ++ x :: l) = pre ++ y :: l.
Proof. induction pre as [|z pre IH]; simpl; [done|]. by rewrite IH. Qed.

(** Once the reference list is in place, the loop erases the rest of the
    block, which starts right behind it. *)
Lemma replaceLoop_erases sel pre outerExt post :
  Forall (fun e => extension_type e ∉ extension_type <$> sel) pre ->
  extension_type outerExt ∉ extension_type <$> sel ->
  replaceLoop (extension_type <$> sel) (pre ++ outerExt :: sel ++ post)
    true outerExt
  = Returns (pre ++ outerExt :: post).
Proof.
  revert pre. induction sel as [|e sel IH]; intros pre Hpre HX; [done|].
  rewrite fmap_cons in *. simpl.
  replace (pre ++ outerExt :: e :: sel ++ post)
    with ((pre ++ [outerExt]) ++ e :: sel ++ post)
    by (by rewrite <- app_assoc).
  rewrite list_find_middle; [|apply Forall_app; split|done].
  - rewrite delete_middle, <- app_assoc. simpl. apply IH.
    + eapply Forall_impl; [exact Hpre|]. simpl. intros x Hx. set_solver.
    + set_solver.
  - eapply Forall_impl; [exact Hpre|]. simpl. intros x Hx. set_solver.
  - constructor; [|constructor]. set_solver.
Qed.

Lemma replaceLoop_block e sel pre outerExt post :
  Forall (fun x => extension_type x ∉ extension_type <$> e :: sel) pre ->
  extension_type outerExt ∉ extension_type <$> sel ->
  replaceLoop (extension_type <$> e :: sel) (pre ++ (e :: sel) ++ post)
    false outerExt
  = Returns (pre ++ outerExt :: post).
Proof.
  intros Hpre HX. rewrite fmap_cons in *. simpl.
  rewrite list_find_middle; [| |done].
  - rewrite insert_middle. apply replaceLoop_erases; [|done].
    eapply Forall_impl; [exact Hpre|]. simpl. intros x Hx. set_solver.
  - eapply Forall_impl; [exact Hpre|]. simpl. intros x Hx. set_solver.
Qed.

Lemma filter_none {T : Type} (P : T -> Prop) `{!forall x, Decision (P x)}
    (l : list T) :
  Forall (fun x => ~ P x) l -> filter P l = [].
Proof.
  induction 1 as [|x l Hx Hl IH]; [done|]. by rewrite filter_cons_False.
Qed.

Lemma filter_all {T : Type} (P : T -> Prop) `{!forall x, Decision (P x)}
    (l : list T) :
  Forall P l -> filter P l = l.
Proof.
  induction 1 as [|x l Hx Hl IH]; [done|].
  by rewrite filter_cons_True, IH.
Qed.

(** The inner extensions after compression: the block [sel] replaced by
    one reference list, or nothing changed when the block is empty. *)
Definition compressed (pre sel post : list Extension) : list Extension :=
  match sel with
  | [] => pre ++ post
  | _ :: _ =>
      pre ++ encodeOuterExtensions {| types := extension_type <$> sel |}
      :: post
  end.

Lemma generateAndReplaceOuterExtensions_block
    pre sel post outerExtensionTypes :
  Forall (fun e => extension_type e ∈ outerExtensionTypes) sel ->
  Forall (fun e => extension_type e ∉ outerExtensionTypes) (pre ++ post) ->
  extension_type
    (encodeOuterExtensions {| types := extension_type <$> sel |})
    ∉ extension_type <$> sel ->
  generateAndReplaceOuterExtensions (pre ++ sel ++ post) outerExtensionTypes
  = Returns (compressed pre sel post).
Proof.
  intros Hsel [Hpre Hpost]%Forall_app HX.
  unfold generateAndReplaceOuterExtensions, chosenTypes.
  rewrite !filter_app, (filter_none _ pre), (filter_none _ post),
    (filter_all _ sel), app_nil_r by done. simpl.
  assert (Forall (fun x => extension_type x ∉ extension_type <$> sel) pre)
    as Hpre'.
  { eapply Forall_impl; [exact Hpre|]. simpl. intros x Hx Hin.
    apply Hx. apply list_elem_of_fmap in Hin as (y & -> & Hy).
    by apply (proj1 (Forall_forall _ _) Hsel). }
  destruct sel as [|e sel]; [done|].
  rewrite decide_False by done. unfold compressed.
  apply replaceLoop_block; [done|]. rewrite fmap_cons in HX. set_solver.
Qed.

Lemma scanOuter_app outer more t found after :
  scanOuter outer t = found :: after ->
  scanOuter (outer ++ more) t = found :: after ++ more.
Proof.
  induction outer as [|e outer IH]; simpl; [done|].
  destruct (decide (extension_type e = t)); [by intros [= -> ->]|done].
Qed.

(** Extensions appended to the outer list do not change what the scan
    finds. *)
Lemma lookupOuter_app extTypes outer more found :
  lookupOuter extTypes outer = Some found ->
  lookupOuter extTypes (outer ++ more) = Some found.
Proof.
  revert outer found.
  induction extTypes as [|t ts IH]; intros outer found; simpl; [done|].
  destruct (scanOuter outer t) as [|e after] eqn:Hscan; [done|].
  rewrite (scanOuter_app _ more _ _ _ Hscan).
  destruct (lookupOuter ts after) as [found'|] eqn:Hl; [|done].
  by rewrite (IH _ _ Hl).
Qed.

(** On the hello that carries the extension, the AAD of the opening is
    the hello with the payload zeroed. *)
Lemma makeClientHelloOuterForAad_attach
    clientHelloOuter echExtension greasePsk :
  Forall (fun e => extension_type e <> encrypted_client_hello)
    (extensions clientHelloOuter) ->
  extension_type (encodeECH echExtension) = encrypted_client_hello ->
  getECH (extension_data (encodeECH echExtension)) = Some echExtension ->
  makeClientHelloOuterForAad
    (attach clientHelloOuter echExtension greasePsk)
  = Returns
      (encodeClientHello
         (attach clientHelloOuter
            (with_payload echExtension
               (zeros (length (payload echExtension))))
            greasePsk)).
Proof.
  intros Hnone Htype Hdec. unfold makeClientHelloOuterForAad, attach. simpl.
  rewrite list_find_middle by done. rewrite Hdec.
  by rewrite insert_middle.
Qed.

(** *** Compression in general *)

(** The list with the first extension of a type in
    [outerExtensionTypes] replaced by [outerExt] and the later ones
    removed; [inserted] says whether the first one has been passed. *)
Fixpoint collapse (outerExtensionTypes : list ExtensionType)
    (outerExt : Extension) (inserted : bool) (exts : list Extension)
    : list Extension :=
  match exts with
  | [] => []
  | e :: rest =>
      if decide (extension_type e ∈ outerExtensionTypes)
      then if inserted
           then collapse outerExtensionTypes outerExt true rest
           else outerExt :: collapse outerExtensionTypes outerExt true rest
      else e :: collapse outerExtensionTypes outerExt inserted rest
  end.

Lemma replaceLoop_collapse outerExtensionTypes outerExt pre rest inserted :
  extension_type outerExt ∉ outerExtensionTypes ->
  Forall (fun e => extension_type e ∉ outerExtensionTypes) pre ->
  replaceLoop (chosenTypes rest outerExtensionTypes) (pre ++ rest)
    inserted outerExt
  = Returns (pre ++ collapse outerExtensionTypes outerExt inserted rest).
Proof.
  intros HX. revert pre inserted.
  induction rest as [|e rest IH]; intros pre inserted Hpre; [done|].
  unfold chosenTypes in *. cbn [collapse].
  destruct (decide (extension_type e ∈ outerExtensionTypes)) as [He|He].
  - rewrite filter_cons_True, fmap_cons by done. cbn [replaceLoop].
    rewrite list_find_middle; [|by eapply Forall_impl; [done|];
      simpl; intros y Hy Heq; rewrite Heq in Hy|done].
    destruct inserted.
    + rewrite delete_middle. by apply IH.
    + rewrite insert_middle.
      replace (pre ++ outerExt :: rest) with ((pre ++ [outerExt]) ++ rest)
        by (by rewrite <- app_assoc).
      rewrite IH by (apply Forall_app; split; [done|by constructor]).
      by rewrite <- app_assoc.
  - rewrite filter_cons_False by done.
    replace (pre ++ e :: rest) with ((pre ++ [e]) ++ rest)
      by (by rewrite <- app_assoc).
    rewrite IH by (apply Forall_app; split; [done|by constructor]).
    by rewrite <- app_assoc.
Qed.

(** [generateAndReplaceOuterExtensions], when the reference list's own
    type is not one of the outer extension types: the reference list
    takes the place of the first extension that is compressed, the other
    compressed extensions are removed, and the extensions that are not
    compressed stay where they are, in order.  The [find_if] of the loop
    always finds the extension it looks for. *)
Theorem generateAndReplaceOuterExtensions_collapses
    chloInnerExt outerExtensionTypes :
  let outerExt :=
    encodeOuterExtensions
      {| types := chosenTypes chloInnerExt outerExtensionTypes |} in
  extension_type outerExt ∉ outerExtensionTypes ->
  generateAndReplaceOuterExtensions chloInnerExt outerExtensionTypes
  = Returns (collapse outerExtensionTypes outerExt false chloInnerExt).
Proof.
  intros outerExt HX.
  pose proof (replaceLoop_collapse outerExtensionTypes outerExt []
                chloInnerExt false HX ltac:(constructor)) as Hloop.
  unfold generateAndReplaceOuterExtensions. fold outerExt.
  destruct (decide _) as [Hnone|Hsome]; [|done].
  apply length_zero_iff_nil in Hnone. by rewrite Hnone in Hloop.
Qed.

(** *** What the AAD depends on, and what decryption can do *)

(** The AAD that is rebuilt from the outer hello does not depend on the
    bytes of the ECH payload, only on their number. *)
Theorem makeClientHelloOuterForAad_ignores_payload
    clientHelloOuter echExtension payload' greasePsk :
  let echExtension' := with_payload echExtension payload' in
  Forall (fun e => extension_type e <> encrypted_client_hello)
    (extensions clientHelloOuter) ->
  extension_type (encodeECH echExtension) = encrypted_client_hello ->
  getECH (extension_data (encodeECH echExtension)) = Some echExtension ->
  extension_type (encodeECH echExtension') = encrypted_client_hello ->
  getECH (extension_data (encodeECH echExtension')) = Some echExtension' ->
  length payload' = length (payload echExtension) ->
  makeClientHelloOuterForAad
    (attach clientHelloOuter echExtension' greasePsk)
  = makeClientHelloOuterForAad
      (attach clientHelloOuter echExtension greasePsk).
Proof.
  intros echExtension' Hnone Htype Hdec Htype' Hdec' Hlen.
  rewrite !makeClientHelloOuterForAad_attach by done.
  unfold echExtension', with_payload. simpl. by rewrite Hlen.
Qed.

Lemma skipWhile_nil (p : byte -> bool) cursor :
  skipWhile p cursor = [] <-> Forall (fun b => p b = true) cursor.
Proof.
  induction cursor as [|b rest IH]; simpl; [by split; [constructor|]|].
  destruct (p b) eqn:Hb.
  - rewrite IH. split; [by constructor|by intros [_ ?]%Forall_cons].
  - split; [done|]. intros [? _]%Forall_cons. congruence.
Qed.

Definition padding_error : exn :=
  runtime_error "ech padding contains nonzero byte".


(** A nonzero byte after the ClientHello in the plaintext is the padding
    error. *)
Theorem decryptECHWithContext_nonzero_padding
    clientHelloOuter encryptedCh ctx aad pt decoded rest :
  makeClientHelloOuterForAad clientHelloOuter = Returns aad ->
  open ctx aad encryptedCh = Some pt ->
  decodeClientHello pt = Some (decoded, rest) ->
  ~ Forall (fun b => b = Byte.x00) rest ->
  decryptECHWithContext clientHelloOuter encryptedCh Draft15 ctx
  = Throws padding_error.
Proof.
  intros Haad Hopen Hdecode Hrest.
  unfold decryptECHWithContext, extractEncodedClientHelloInner.
  rewrite Haad, bind_Returns, Hopen, bind_Returns, Hdecode.
  rewrite bool_decide_eq_false_2; [done|].
  intros Hskip%skipWhile_nil. apply Hrest.
  eapply Forall_impl; [done|]. simpl. intros b Hb.
  by apply bool_decide_eq_true in Hb.
Qed.

(** What decryption returns when all goes well: the inner hello with the
    legacy session id of the outer hello and its encoding recomputed. *)
Definition restored (clientHelloInner clientHelloOuter : ClientHello)
    : ClientHello :=
  let chlo :=
    with_originalEncoding
      (with_legacy_session_id clientHelloInner
         (legacy_session_id clientHelloOuter))
      None in
  with_originalEncoding chlo (Some (encodeHandshake chlo)).

(** C1, amended.  Let the extensions of the inner hello that are
    compressed (those whose type is an outer extension type) form one
    contiguous block [sel]; let the inner extension types be pairwise
    distinct, none of them [ech_outer_extensions], and
    [encrypted_client_hello] not in the block; let the outer hello have
    no ECH extension of its own and carry the block (the in-order scan
    finds exactly [sel]); let the padding be computed ([pt] is the padded
    encoding); and let the codecs and the HPKE contexts invert each other
    on this exchange.  Then [encryptClientHello] returns an extension
    [ech], and [decryptECHWithContext], on the outer hello that carries
    [ech] and on the payload of [ech], returns the inner hello with the
    legacy session id of the outer hello, the original extensions in the
    original order, and its encoding recomputed. *)
Theorem decrypt_encrypt_restores
    negotiatedECHConfig clientHelloInner clientHelloOuter setupResult
    greasePsk outerExtensionTypes ctx pre sel post pt rest :
  let ech0 := newECH negotiatedECHConfig setupResult in
  let chloInnerCopy :=
    with_extensions (with_legacy_session_id clientHelloInner [])
      (compressed pre sel post) in
  let aad := sealAad ech0 clientHelloOuter pt greasePsk in
  let ech := with_payload ech0 (seal (context setupResult) aad pt) in
  let outerExt :=
    encodeOuterExtensions {| types := extension_type <$> sel |} in
  (* the inner hello *)
  extensions clientHelloInner = pre ++ sel ++ post ->
  Forall (fun e => extension_type e ∈ outerExtensionTypes) sel ->
  Forall (fun e => extension_type e ∉ outerExtensionTypes) (pre ++ post) ->
  NoDup (extension_type <$> extensions clientHelloInner) ->
  ech_outer_extensions ∉ extension_type <$> extensions clientHelloInner ->
  encrypted_client_hello ∉ extension_type <$> sel ->
  (* the outer hello *)
  Forall (fun e => extension_type e <> encrypted_client_hello)
    (extensions clientHelloOuter) ->
  lookupOuter (extension_type <$> sel) (extensions clientHelloOuter)
  = Some sel ->
  (* the padding *)
  paddedInner clientHelloInner chloInnerCopy (maxLen negotiatedECHConfig)
  = Returns pt ->
  (* the codecs *)
  extension_type outerExt = ech_outer_extensions ->
  getOuterExtensions (extension_data outerExt)
  = Some {| types := extension_type <$> sel |} ->
  extension_type (encodeECH ech) = encrypted_client_hello ->
  getECH (extension_data (encodeECH ech)) = Some ech ->
  decodeClientHello pt = Some (with_originalEncoding chloInnerCopy None, rest) ->
  skipWhile (fun b => bool_decide (b = Byte.x00)) rest = [] ->
  (* HPKE *)
  open ctx aad (payload ech) = Some pt ->
  length (payload ech)
  = (length pt + getCipherOverhead (aead_id (ech_cipher_suite ech0)))%nat ->
  encryptClientHello negotiatedECHConfig clientHelloInner clientHelloOuter
    setupResult greasePsk outerExtensionTypes
  = Returns ech
  /\ decryptECHWithContext (attach clientHelloOuter ech greasePsk)
       (payload ech) Draft15 ctx
     = Returns (restored clientHelloInner clientHelloOuter).
Proof.
  intros ech0 chloInnerCopy aad ech outerExt
    Hsplit Hsel Hrest Hnd Heoe Hech Hnone Hlook Hpad HXtype HXdec
    Htype Hdec Hdecode Hskip Hopen Hlen.
  assert (innerForEncoding clientHelloInner outerExtensionTypes
          = Returns chloInnerCopy) as Hcopy.
  { unfold innerForEncoding. simpl. rewrite Hsplit.
    rewrite generateAndReplaceOuterExtensions_block; [done|done|done|].
    fold outerExt. rewrite HXtype. rewrite Hsplit, !fmap_app in Heoe.
    set_solver. }
  split.
  { unfold encryptClientHello, encryptClientHelloImpl. fold ech0.
    rewrite Hcopy. simpl. rewrite Hpad. done. }
  unfold decryptECHWithContext, extractEncodedClientHelloInner.
  rewrite makeClientHelloOuterForAad_attach by done.
  assert (encodeClientHello
            (attach clientHelloOuter
               (with_payload ech (zeros (length (payload ech)))) greasePsk)
          = aad) as ->.
  { unfold aad, sealAad. rewrite Hlen. done. }
  rewrite bind_Returns, Hopen, bind_Returns, Hdecode, Hskip.
  rewrite bool_decide_eq_true_2 by done.
  cbn [extensions with_legacy_session_id with_originalEncoding
       chloInnerCopy with_extensions attach].
  assert (substituteOuterExtensions getOuterExtensions
            (compressed pre sel post)
            (extensions clientHelloOuter ++ [encodeECH ech]
             ++ match greasePsk with
                | Some psk => [encodePsk psk]
                | None => []
                end)
          = Returns (extensions clientHelloInner)) as ->.
  { rewrite Hsplit in *. unfold compressed. destruct sel as [|e sel].
    - by apply substituteOuterExtensions_plain.
    - apply substituteOuterExtensions_block; try done.
      by apply lookupOuter_app. }
  simpl. unfold restored, with_originalEncoding, with_extensions,
    with_legacy_session_id. simpl. done.
Qed.

End encryption.

(** ** GREASE pre-shared keys *)

Record PskIdentity : Type := {
  psk_identity : Buf;
  (** the bytes of the [uint32_t] *)
  obfuscated_ticket_age : Buf
}.

Record PskBinder : Type := { binder : Buf }.

Record ClientPresharedKey : Type := {
  identities : list PskIdentity;
  binders : list PskBinder
}.

Definition kGreasePSKIdentitySize : nat := 16.

Section grease.

(** [Factory] is declared in fizz/protocol, which is not among the
    sources: the state of its random generator, and the two functions
    that draw from it. *)
Variable Factory : Type.
Variable makeRandomIOBuf : Factory -> nat -> Buf * Factory.
Variable makeRandomBytes : Factory -> nat -> Buf * Factory.

(** [getExtension<ClientPresharedKey>(extensions)], not among the
    sources. *)
Variable getClientPresharedKey : list Extension -> option ClientPresharedKey.

(** The body of the loop of [generateGreasePskCommon]
    (Encryption.cpp:405-425), for the identity at index [i]. *)
Definition greaseStep (source : ClientPresharedKey) (keepIdentity : bool)
    (i : nat) (identity : PskIdentity)
    (state : ClientPresharedKey * Factory)
    : result (ClientPresharedKey * Factory) :=
  let '(grease, factory) := state in
  let '(id, factory) :=
    if keepIdentity then (psk_identity identity, factory)
    else makeRandomIOBuf factory kGreasePSKIdentitySize in
  let '(age, factory) := makeRandomBytes factory 4 in
  let grease :=
    {| identities :=
         identities grease
         ++ [ {| psk_identity := id; obfuscated_ticket_age := age |} ];
       binders := binders grease |} in
  match binders source !! i with
  | None => Throws out_of_range          (* [source.binders.at(i)] *)
  | Some b =>
      let binderSize := length (binder b) in
      let '(gb, factory) := makeRandomIOBuf factory binderSize in
      Returns ({| identities := identities grease;
                  binders := binders grease ++ [ {| binder := gb |} ] |},
               factory)
  end.

Fixpoint greaseLoop (source : ClientPresharedKey) (keepIdentity : bool)
    (i : nat) (remaining : list PskIdentity)
    (state : ClientPresharedKey * Factory)
    : result (ClientPresharedKey * Factory) :=
  match remaining with
  | [] => Returns state
  | identity :: remaining =>
      state ← greaseStep source keepIdentity i identity state;
      greaseLoop source keepIdentity (S i) remaining state
  end.

(** [generateGreasePskCommon] (Encryption.cpp:400-427): the GREASE key,
    and the factory afterwards. *)
Definition generateGreasePskCommon (source : ClientPresharedKey)
    (factory : Factory) (keepIdentity : bool)
    : result (ClientPresharedKey * Factory) :=
  greaseLoop source keepIdentity 0 (identities source)
    ({| identities := []; binders := [] |}, factory).

(** [generateGreasePSK] (Encryption.cpp:430-440) and
    [generateGreasePSKForHRR] (Encryption.cpp:442-448). *)
Definition generateGreasePSK (chloInner : ClientHello) (factory : Factory)
    : result (option ClientPresharedKey * Factory) :=
  match getClientPresharedKey (extensions chloInner) with
  | None => Returns (None, factory)
  | Some innerPsk =>
      '(grease, factory) ← generateGreasePskCommon innerPsk factory false;
      Returns (Some grease, factory)
  end.

Definition generateGreasePSKForHRR (previousPsk : ClientPresharedKey)
    (factory : Factory) : result (ClientPresharedKey * Factory) :=
  generateGreasePskCommon previousPsk factory true.

(** The GREASE identity of an identity, and the GREASE binder of a
    binder. *)
Definition greaseOfIdentity (keepIdentity : bool) (identity g : PskIdentity)
    : Prop :=
  if keepIdentity then psk_identity g = psk_identity identity
  else length (psk_identity g) = kGreasePSKIdentitySize.

Definition greaseOfBinder (b g : PskBinder) : Prop :=
  length (binder g) = length (binder b).

Hypothesis makeRandomIOBuf_length :
  forall factory n, length (makeRandomIOBuf factory n).1 = n.

Lemma greaseLoop_spec source keepIdentity i remaining grease factory :
  (i <= length (binders source))%nat ->
  match greaseLoop source keepIdentity i remaining (grease, factory) with
  | Returns (grease', _) =>
      (i + length remaining <= length (binders source))%nat
      /\ exists ids bs,
           identities grease' = identities grease ++ ids
           /\ binders grease' = binders grease ++ bs
           /\ Forall2 (greaseOfIdentity keepIdentity) remaining ids
           /\ Forall2 greaseOfBinder
                (take (length remaining) (drop i (binders source))) bs
  | Throws e =>
      e = out_of_range
      /\ (length (binders source) < i + length remaining)%nat
  | Undefined => False
  end.
Proof.
  revert i grease factory.
  induction remaining as [|identity remaining IH];
    intros i grease factory Hi.
  { simpl. split; [lia|]. exists [], [].
    rewrite !app_nil_r. by repeat split; try constructor. }
  cbn [greaseLoop]. unfold greaseStep.
  set (drawn := if keepIdentity then (psk_identity identity, factory)
                else makeRandomIOBuf factory kGreasePSKIdentitySize).
  assert (greaseOfIdentity keepIdentity identity
            {| psk_identity := drawn.1;
               obfuscated_ticket_age := (makeRandomBytes drawn.2 4).1 |})
    as Hid.
  { unfold greaseOfIdentity, drawn. destruct keepIdentity; simpl; [done|].
    apply makeRandomIOBuf_length. }
  destruct drawn as [id factory1]. simpl in Hid.
  destruct (makeRandomBytes factory1 4) as [age factory2]. simpl in Hid.
  destruct (binders source !! i) as [b|] eqn:Hb.
  - pose proof (makeRandomIOBuf_length factory2 (length (binder b))) as Hgb.
    destruct (makeRandomIOBuf factory2 (length (binder b)))
      as [gb factory3]. simpl in Hgb.
    rewrite bind_Returns. specialize (IH (S i)).
    match goal with
    | |- context [greaseLoop _ _ _ _ (?g, ?f)] =>
        specialize (IH g f ltac:(by apply lookup_lt_Some in Hb))
    end.
    destruct (greaseLoop _ _ _ _ _) as [[grease' factory']|e|]; [| |done].
    + destruct IH as (Hfit & ids & bs & Hids & Hbs & Hfids & Hfbs).
      simpl in *. split; [lia|].
      exists ({| psk_identity := id; obfuscated_ticket_age := age |} :: ids),
             ({| binder := gb |} :: bs).
      rewrite Hids, Hbs, <- !app_assoc. split; [done|]. split; [done|].
      split; [by constructor|].
      rewrite (drop_S _ b) by done. simpl. by constructor.
    + destruct IH as [-> Hshort]. simpl. split; [done|lia].
  - simpl. split; [done|]. apply lookup_ge_None in Hb. lia.
Qed.

(** A GREASE key has the shape of its source: one identity per identity
    of the source, kept as it is ([generateGreasePSKForHRR]) or replaced
    by 16 random bytes ([generateGreasePSK]), and one binder per identity,
    as long as the binder of the source at that index.  A source with
    fewer binders than identities makes [binders.at(i)] throw. *)
Theorem generateGreasePskCommon_shape source factory keepIdentity :
  match generateGreasePskCommon source factory keepIdentity with
  | Returns (grease, _) =>
      (length (identities source) <= length (binders source))%nat
      /\ Forall2 (greaseOfIdentity keepIdentity)
           (identities source) (identities grease)
      /\ Forall2 greaseOfBinder
           (take (length (identities source)) (binders source))
           (binders grease)
  | Throws e =>
      e = out_of_range
      /\ (length (binders source) < length (identities source))%nat
  | Undefined => False
  end.
Proof.
  unfold generateGreasePskCommon.
  pose proof (greaseLoop_spec source keepIdentity 0 (identities source)
                {| identities := []; binders := [] |} factory
                ltac:(lia)) as Hspec.
  destruct (greaseLoop _ _ _ _ _) as [[grease factory']|e|]; [| |done].
  - destruct Hspec as (Hfit & ids & bs & Hids & Hbs & Hfids & Hfbs).
    simpl in *. rewrite drop_0 in Hfbs. by rewrite Hids, Hbs.
  - done.
Qed.

End grease.

(** ** An instance of the absent codecs and of HPKE

    Big-endian integers and length-prefixed vectors as on the TLS wire,
    and an HPKE context that appends a 16-byte tag computed from its key
    and the AAD.  The instance runs the model on concrete hellos; the
    general statements above do not depend on it. *)
Module Wire.

Definition u8 (n : Z) : Buf :=
  match Byte.of_N (Z.to_N (n mod 256)) with
  | Some b => [b]
  | None => []
  end.

Definition u16 (n : Z) : Buf := u8 (n / 256) ++ u8 n.

Definition vec8 (body : Buf) : Buf := u8 (Z.of_nat (length body)) ++ body.
Definition vec16 (body : Buf) : Buf := u16 (Z.of_nat (length body)) ++ body.

Definition read_u8 (b : Buf) : option (Z * Buf) :=
  match b with
  | x :: rest => Some (Z.of_N (Byte.to_N x), rest)
  | [] => None
  end.

Definition read_u16 (b : Buf) : option (Z * Buf) :=
  '(hi, rest) ← read_u8 b;
  '(lo, rest) ← read_u8 rest;
  Some (hi * 256 + lo, rest).

Definition read_bytes (n : nat) (b : Buf) : option (Buf * Buf) :=
  if decide (n <= length b)%nat then Some (take n b, drop n b) else None.

Definition read_vec8 (b : Buf) : option (Buf * Buf) :=
  '(n, rest) ← read_u8 b; read_bytes (Z.to_nat n) rest.

Definition read_vec16 (b : Buf) : option (Buf * Buf) :=
  '(n, rest) ← read_u16 b; read_bytes (Z.to_nat n) rest.

(** The elements of a vector body, read until the body is exhausted. *)
Fixpoint read_all {T : Type} (fuel : nat) (read : Buf -> option (T * Buf))
    (b : Buf) : option (list T) :=
  match b, fuel with
  | [], _ => Some []
  | _, O => None
  | _, S fuel =>
      '(x, rest) ← read b; xs ← read_all fuel read rest; Some (x :: xs)
  end.

Definition elements {T : Type} (read : Buf -> option (T * Buf)) (b : Buf)
    : option (list T) :=
  read_all (length b) read b.

Definition encodeExtension (e : Extension) : Buf :=
  u16 (extension_type e) ++ vec16 (extension_data e).

Definition read_extension (b : Buf) : option (Extension * Buf) :=
  '(t, rest) ← read_u16 b;
  '(data, rest) ← read_vec16 rest;
  Some ({| extension_type := t; extension_data := data |}, rest).

Definition encodeClientHello (c : ClientHello) : Buf :=
  u16 (legacy_version c) ++ vec8 (random c) ++ vec8 (legacy_session_id c)
  ++ vec16 (mjoin (u16 <$> cipher_suites c))
  ++ vec8 (mjoin (u8 <$> legacy_compression_methods c))
  ++ vec16 (mjoin (encodeExtension <$> extensions c)).

Definition decodeClientHello (b : Buf) : option (ClientHello * Buf) :=
  '(version, rest) ← read_u16 b;
  '(rnd, rest) ← read_vec8 rest;
  '(sid, rest) ← read_vec8 rest;
  '(suites, rest) ← read_vec16 rest;
  suites ← elements read_u16 suites;
  '(methods, rest) ← read_vec8 rest;
  methods ← elements read_u8 methods;
  '(exts, rest) ← read_vec16 rest;
  exts ← elements read_extension exts;
  Some ({| legacy_version := version; random := rnd;
           legacy_session_id := sid; cipher_suites := suites;
           legacy_compression_methods := methods; extensions := exts;
           originalEncoding := None |}, rest).

Definition encodeHandshake (c : ClientHello) : Buf :=
  u8 1 ++ vec16 (encodeClientHello c).

Definition encodeOuterExtensions (oe : OuterExtensions) : Extension :=
  {| extension_type := ech_outer_extensions;
     extension_data := vec8 (mjoin (u16 <$> types oe)) |}.

Definition getOuterExtensions (data : Buf) : option OuterExtensions :=
  '(body, rest) ← read_vec8 data;
  ts ← elements read_u16 body;
  if decide (rest = []) then Some {| types := ts |} else None.

Definition encodeECH (e : OuterECHClientHello) : Extension :=
  {| extension_type := encrypted_client_hello;
     extension_data :=
       u8 0 ++ u16 (kdf_id (ech_cipher_suite e))
       ++ u16 (aead_id (ech_cipher_suite e)) ++ u8 (ech_config_id e)
       ++ vec16 (enc e) ++ vec16 (payload e) |}.

Definition getECH (data : Buf) : option OuterECHClientHello :=
  '(_, rest) ← read_u8 data;
  '(kdf, rest) ← read_u16 rest;
  '(aead, rest) ← read_u16 rest;
  '(id, rest) ← read_u8 rest;
  '(e, rest) ← read_vec16 rest;
  '(p, rest) ← read_vec16 rest;
  Some {| ech_cipher_suite := {| kdf_id := kdf; aead_id := aead |};
          ech_config_id := id; enc := e; payload := p |}.

Definition read_server_name (b : Buf) : option (ServerName * Buf) :=
  '(t, rest) ← read_u8 b;
  '(host, rest) ← read_vec16 rest;
  Some ({| name_type := t; hostname := host |}, rest).

Definition encodeServerNameList (l : ServerNameList) : Extension :=
  {| extension_type := server_name;
     extension_data :=
       vec16 (mjoin ((fun sn => u8 (name_type sn) ++ vec16 (hostname sn))
                     <$> server_name_list l)) |}.

Definition getServerNameList (exts : list Extension)
    : option ServerNameList :=
  '(_, e) ← list_find (fun e => extension_type e = server_name) exts;
  '(body, _) ← read_vec16 (extension_data e);
  names ← elements read_server_name body;
  Some {| server_name_list := names |}.

(** The grease PSK, already serialized. *)
Definition encodePsk (psk : Buf) : Extension :=
  {| extension_type := pre_shared_key; extension_data := psk |}.

Definition getCipherOverhead (_ : AeadId) : nat := 16.

(** The tag: the length of the AAD, the sum of its bytes, and the key. *)
Definition tag (key aad : Buf) : Buf :=
  u16 (Z.of_nat (length aad))
  ++ u16 (foldr (fun b acc => Z.of_N (Byte.to_N b) + acc) 0 aad)
  ++ take 12 (key ++ zeros 12).

Definition seal (key aad pt : Buf) : Buf := pt ++ tag key aad.

Definition open (key aad ct : Buf) : option Buf :=
  let n := (length ct - 16)%nat in
  if decide (16 <= length ct)%nat
  then if decide (drop n ct = tag key aad) then Some (take n ct) else None
  else None.

Definition bytes (s : string) : Buf := list_byte_of_string s.

(** The model, instantiated. *)
Definition encrypt :=
  encryptClientHello Buf Buf encodeClientHello encodeOuterExtensions
    encodeECH encodePsk getServerNameList getCipherOverhead seal.

Definition decrypt :=
  decryptECHWithContext Buf encodeClientHello decodeClientHello
    encodeHandshake getOuterExtensions encodeECH getECH open.

Definition sent := attach Buf encodeECH encodePsk.

(** *** Two hellos *)

Definition ext (t : ExtensionType) (data : string) : Extension :=
  {| extension_type := t; extension_data := bytes data |}.

Definition sni (host : string) : Extension :=
  encodeServerNameList
    {| server_name_list := [ {| name_type := 0; hostname := bytes host |} ] |}.

Definition supported_versions : Extension := ext 43 "v13".
Definition key_share : Extension := ext 51 "share".
Definition signature_algorithms : Extension := ext 13 "sig".

Definition inner : ClientHello :=
  {| legacy_version := 771;
     random := bytes "inner random";
     legacy_session_id := bytes "sid";
     cipher_suites := [4865];
     legacy_compression_methods := [0];
     extensions := [sni "secret.example"; supported_versions; key_share;
                    signature_algorithms];
     originalEncoding := None |}.

Definition outer : ClientHello :=
  {| legacy_version := 771;
     random := bytes "outer random";
     legacy_session_id := bytes "sid";
     cipher_suites := [4865];
     legacy_compression_methods := [0];
     extensions := [sni "public.example"; supported_versions; key_share];
     originalEncoding := None |}.

Definition negotiatedConfig : NegotiatedECHConfig :=
  {| config :=
       {| key_config :=
            {| config_id := 7; kem_id := 32; public_key := bytes "pk";
               key_cipher_suites := [ {| kdf_id := 1; aead_id := 1 |} ] |};
          maximum_name_length := 20;
          public_name := "public.example";
          config_extensions := [] |};
     configId := 7;
     maxLen := 20;
     cipherSuite := {| kdf_id := 1; aead_id := 1 |} |}.

Definition setup : SetupResult Buf :=
  {| setup_enc := bytes "enc"; context := bytes "key" |}.

Definition grease : option Buf := Some (bytes "grease psk").

(** *** A round trip

    The inner hello compresses [supported_versions] and [key_share],
    which are adjacent in it and which the outer hello carries. *)

Definition compressedInner : ClientHello :=
  with_extensions (with_legacy_session_id inner [])
    (compressed encodeOuterExtensions [sni "secret.example"]
       [supported_versions; key_share] [signature_algorithms]).

Definition padded : Buf :=
  match
    paddedInner encodeClientHello getServerNameList inner compressedInner
      (maxLen negotiatedConfig)
  with
  | Returns pt => pt
  | _ => []
  end.

Definition trailing : Buf :=
  match decodeClientHello padded with
  | Some (_, rest) => rest
  | None => []
  end.

Lemma decrypt_encrypt_restores_witness :
  exists ech,
    encrypt negotiatedConfig inner outer setup grease [43; 51] = Returns ech
    /\ decrypt (sent outer ech grease) (payload ech) Draft15 (bytes "key")
       = Returns (restored encodeHandshake inner outer).
Proof.
  eexists.
  apply (decrypt_encrypt_restores Buf Buf encodeClientHello
           decodeClientHello encodeHandshake encodeOuterExtensions
           getOuterExtensions encodeECH getECH encodePsk getServerNameList
           getCipherOverhead seal open negotiatedConfig inner outer setup
           grease [43; 51] (bytes "key") [sni "secret.example"]
           [supported_versions; key_share] [signature_algorithms]
           padded trailing);
    first [ vm_compute; reflexivity | compute_done ].
Defined.

(** When the compressed extensions are not adjacent in the inner hello,
    the reference list takes the place of the first and the others are
    erased, so that decryption puts the whole block where the first was:
    the extensions come back in another order. *)

Definition outer' : ClientHello :=
  with_extensions outer
    [sni "public.example"; supported_versions; signature_algorithms].

Lemma decrypt_encrypt_reorders :
  exists ech decoded,
    encrypt negotiatedConfig inner outer' setup grease [43; 13] = Returns ech
    /\ decrypt (sent outer' ech grease) (payload ech) Draft15 (bytes "key")
       = Returns decoded
    /\ extension_type <$> extensions inner = [0; 43; 51; 13]
    /\ extension_type <$> extensions decoded = [0; 43; 13; 51]
    /\ legacy_session_id decoded = legacy_session_id outer'
    /\ extensions decoded <> extensions inner.
Proof.
  eexists. eexists.
  split; [vm_compute; reflexivity|].
  split; [vm_compute; reflexivity|].
  split; [reflexivity|].
  split; [vm_compute; reflexivity|].
  split; [vm_compute; reflexivity|].
  vm_compute. discriminate.
Qed.

(** *** Padding *)

(** With the 14-byte host name of [inner] and a maximum name length of
    20: 6 bytes, then 22 more to bring 106 to 128. *)
Example calculateECHPadding_sni :
  calculateECHPadding getServerNameList inner 100 20 = Returns 28.
Proof. reflexivity. Qed.

(** Without SNI: 29 bytes, then 31 more to bring 129 to 160. *)
Example calculateECHPadding_no_sni :
  calculateECHPadding getServerNameList
    (with_extensions inner [supported_versions]) 100 20
  = Returns 60.
Proof. reflexivity. Qed.

Lemma calculateECHPadding_policy_witness :
  pads_with getServerNameList inner 100 20 6.
Proof.
  assert (is_size_t 20) as Hmax by (unfold is_size_t; lia).
  exact (calculateECHPadding_policy getServerNameList inner 100 20 Hmax).
Defined.

(** An SNI extension that lists no server name. *)
Definition unnamed : ClientHello :=
  with_extensions inner
    [encodeServerNameList {| server_name_list := [] |}; supported_versions].

(** The call throws on it; and without SNI, at the largest maximum name
    length, [maxLen + 9] wraps to 8. *)
Lemma calculateECHPadding_empty_server_name_list :
  (getServerNameList (extensions unnamed) = Some {| server_name_list := [] |}
   /\ calculateECHPadding getServerNameList unnamed 100 20
      = Throws out_of_range)
  /\ (getServerNameList [supported_versions] = None
      /\ calculateECHPadding getServerNameList
           (with_extensions inner [supported_versions]) 100 (2 ^ 64 - 1)
         = Returns 28).
Proof. repeat split; reflexivity. Qed.

(** *** Outer extensions *)

(** Two reference lists in one inner hello: the expansion exists and has
    no duplicate type, no list references [encrypted_client_hello], every
    referent is found, and yet the second [ech_outer_extensions] is a
    duplicate for [dupeCheck].  And a reference list that does not
    decode. *)
Definition twoLists : list Extension :=
  [encodeOuterExtensions {| types := [43] |};
   encodeOuterExtensions {| types := [51] |}].

Definition undecodable : list Extension :=
  [sni "secret.example"; ext ech_outer_extensions "x"].

Lemma substituteOuterExtensions_rejects_more :
  (substituteOuterExtensions getOuterExtensions twoLists (extensions outer)
   = Throws duplicate_extensions
   /\ expansion getOuterExtensions twoLists (extensions outer)
      = Some [supported_versions; key_share]
   /\ referencedTypes getOuterExtensions twoLists = Some [43; 51])
  /\ (substituteOuterExtensions getOuterExtensions undecodable
        (extensions outer)
      = Throws malformed
      /\ getOuterExtensions (bytes "x") = None
      /\ extension_type <$> undecodable = [server_name; ech_outer_extensions]).
Proof. repeat split; vm_compute; reflexivity. Qed.

Example substituteOuterExtensions_example :
  substituteOuterExtensions getOuterExtensions
    [sni "secret.example"; encodeOuterExtensions {| types := [43; 51] |};
     signature_algorithms]
    (extensions outer)
  = Returns (extensions inner).
Proof. vm_compute. reflexivity. Qed.

(** *** Negotiation *)

(** The KDF of the hash of each AEAD's cipher suite: SHA-384 for
    AES-256-GCM (2), SHA-256 for AES-128-GCM (1) and ChaCha20 (3). *)
Definition associatedCipherKdf (aead : AeadId) : KDFId :=
  if aead =? 2 then 2 else 1.

Definition echConfig (id : Z) (name : string) (kem : KEMId)
    (suites : list HpkeSymmetricCipherSuite) (exts : list Extension)
    : ParsedECHConfig :=
  {| key_config := {| config_id := id; kem_id := kem;
                      public_key := bytes "pk";
                      key_cipher_suites := suites |};
     maximum_name_length := 20 + id;
     public_name := name;
     config_extensions := exts |}.

Definition aes128 : HpkeSymmetricCipherSuite := {| kdf_id := 1; aead_id := 1 |}.
Definition aes256 : HpkeSymmetricCipherSuite := {| kdf_id := 2; aead_id := 2 |}.
Definition mismatched : HpkeSymmetricCipherSuite :=
  {| kdf_id := 2; aead_id := 1 |}.

Definition offered : list ParsedECHConfig :=
  [echConfig 1 "public.example" 32 [aes128] [ext 32769 "must"];
   echConfig 2 "public..example" 32 [aes128] [];
   echConfig 3 "public.example" 16 [aes128] [];
   echConfig 4 "public.example" 32 [aes256; mismatched] [];
   echConfig 5 "public.example" 32 [aes256; mismatched; aes128] [ext 7 "may"];
   echConfig 6 "public.example" 32 [aes128] []].

Lemma negotiateECHConfig_first_acceptable_witness :
  negotiateECHConfig associatedCipherKdf offered [32] [1; 3]
  = Some {| config := echConfig 5 "public.example" 32
                        [aes256; mismatched; aes128] [ext 7 "may"];
            configId := 5; maxLen := 25; cipherSuite := aes128 |}
  /\ negotiated associatedCipherKdf offered [32] [1; 3]
       (negotiateECHConfig associatedCipherKdf offered [32] [1; 3])
  /\ negotiateECHConfig associatedCipherKdf offered [16] [2] = None.
Proof.
  split; [reflexivity|]. split.
  - exact (proj1 (negotiateECHConfig_first_acceptable associatedCipherKdf
                    offered [32] [1; 3])).
  - reflexivity.
Defined.

(** *** Acceptance

    A transcript that is the concatenation of its messages, and a
    scheduler that derives 32 bytes from its key, the label and the
    transcript. *)

Definition encodeServerHello (s : ServerHello) : Buf :=
  u8 2
  ++ vec16 (u16 (sh_legacy_version s) ++ sh_random s
            ++ vec8 (legacy_session_id_echo s) ++ u16 (cipher_suite s)
            ++ u8 (legacy_compression_method s)
            ++ vec16 (mjoin (encodeExtension <$> sh_extensions s))).

Definition getSecret (key : Buf) (label : EarlySecrets) (hsc : Buf) : Buf :=
  take 32
    (tag key hsc
     ++ match label with
        | ECHAcceptConfirmation => bytes "ech accept confirmation"
        | HRRECHAcceptConfirmation => bytes "hrr ech accept confirmation"
        end
     ++ zeros 32).

Definition serverHello : ServerHello :=
  {| sh_legacy_version := 771;
     sh_random := bytes "0123456789abcdef0123456789abcdef";
     legacy_session_id_echo := bytes "sid";
     cipher_suite := 4865;
     legacy_compression_method := 0;
     sh_extensions := [supported_versions] |}.

Lemma setAcceptConfirmation_then_check_witness :
  exists shlo',
    setAcceptConfirmation Buf Buf app id getSecret encodeServerHello
      serverHello (bytes "transcript") (bytes "key")
    = Returns shlo'
    /\ checkECHAccepted Buf Buf app id getSecret encodeServerHello
         shlo' (bytes "transcript") (bytes "key")
       = Returns true
    /\ forall (k : nat) (b : byte),
         (k < 8)%nat ->
         sh_random shlo' !! (24 + k)%nat <> Some b ->
         checkECHAccepted Buf Buf app id getSecret encodeServerHello
           (with_random shlo' (<[(24 + k)%nat := b]> (sh_random shlo')))
           (bytes "transcript") (bytes "key")
         = Returns false.
Proof.
  apply (setAcceptConfirmation_then_check Buf Buf app id getSecret
           encodeServerHello serverHello (bytes "transcript") (bytes "key")).
  - reflexivity.
  - intros hsc. unfold getSecret, zeros.
    rewrite length_take, !length_app, length_replicate. lia.
Defined.

(** *** More runs of the instance *)

Lemma substituteOuterExtensions_provenance_witness :
  exists res,
    substituteOuterExtensions getOuterExtensions
      (extensions compressedInner) (extensions outer) = Returns res
    /\ Forall (fromInnerOrOuter (extensions compressedInner)
                 (extensions outer)) res.
Proof.
  eexists. split; [vm_compute; reflexivity|].
  apply (substituteOuterExtensions_provenance getOuterExtensions).
  vm_compute; reflexivity.
Defined.

Lemma generateAndReplaceOuterExtensions_collapses_witness :
  let outerExt := encodeOuterExtensions {| types := [43; 13] |} in
  generateAndReplaceOuterExtensions encodeOuterExtensions
    (extensions inner) [43; 13]
  = Returns (collapse [43; 13] outerExt false (extensions inner))
  /\ collapse [43; 13] outerExt false (extensions inner)
     = [sni "secret.example"; outerExt; key_share].
Proof.
  split; [|vm_compute; reflexivity].
  apply (generateAndReplaceOuterExtensions_collapses encodeOuterExtensions
           (extensions inner) [43; 13]).
  compute_done.
Defined.

Definition offeredECH : OuterECHClientHello :=
  {| ech_cipher_suite := {| kdf_id := 1; aead_id := 1 |};
     ech_config_id := 7;
     enc := bytes "enc";
     payload := bytes "payload one" |}.

Lemma makeClientHelloOuterForAad_ignores_payload_witness :
  makeClientHelloOuterForAad encodeClientHello encodeECH getECH
    (sent outer (with_payload offeredECH (bytes "payload two")) grease)
  = makeClientHelloOuterForAad encodeClientHello encodeECH getECH
      (sent outer offeredECH grease).
Proof.
  apply (makeClientHelloOuterForAad_ignores_payload Buf encodeClientHello
           encodeECH getECH encodePsk outer offeredECH
           (bytes "payload two") grease);
    first [ vm_compute; reflexivity | compute_done ].
Defined.

(** The padded inner hello with a nonzero byte after it, sealed under
    the AAD of the outer hello that carries it. *)
Definition tamperedPlaintext : Buf := padded ++ bytes "!".

Definition tamperedAad : Buf :=
  match
    makeClientHelloOuterForAad encodeClientHello encodeECH getECH
      (sent outer
         (with_payload offeredECH
            (zeros (length tamperedPlaintext + 16))) grease)
  with
  | Returns aad => aad
  | _ => []
  end.

Definition tampered : OuterECHClientHello :=
  with_payload offeredECH (seal (bytes "key") tamperedAad tamperedPlaintext).

Lemma decryptECHWithContext_nonzero_padding_witness :
  decrypt (sent outer tampered grease) (payload tampered) Draft15
    (bytes "key")
  = Throws padding_error.
Proof.
  eapply (decryptECHWithContext_nonzero_padding Buf encodeClientHello
            decodeClientHello encodeHandshake getOuterExtensions encodeECH
            getECH open (sent outer tampered grease) (payload tampered)
            (bytes "key") tamperedAad tamperedPlaintext);
    first [ vm_compute; reflexivity | compute_done ].
Defined.

(** *** The HelloRetryRequest confirmation *)

Definition encodeHelloRetryRequest (h : HelloRetryRequest) : Buf :=
  u8 2
  ++ vec16 (u16 (hrr_legacy_version h)
            ++ vec8 (hrr_legacy_session_id_echo h)
            ++ u16 (hrr_cipher_suite h)
            ++ u8 (hrr_legacy_compression_method h)
            ++ vec16 (mjoin (encodeExtension <$> hrr_extensions h))).

Definition getECHHelloRetryRequest (exts : list Extension) : option Buf :=
  '(_, e) ← list_find
              (fun e => extension_type e = encrypted_client_hello) exts;
  Some (extension_data e).

Definition blankECHHelloRetryRequest : Extension :=
  {| extension_type := encrypted_client_hello;
     extension_data := zeros kEchAcceptConfirmationSize |}.

Definition helloRetryRequest : HelloRetryRequest :=
  {| hrr_legacy_version := 771;
     hrr_legacy_session_id_echo := bytes "sid";
     hrr_cipher_suite := 4865;
     hrr_legacy_compression_method := 0;
     hrr_extensions := [supported_versions; key_share] |}.


(** A scheduler whose secrets have 4 bytes. *)
Definition shortSecret (key : Buf) (label : EarlySecrets) (hsc : Buf)
    : Buf :=
  take 4 (getSecret key label hsc).

Lemma acceptConfirmationHRR_secret_too_small_witness :
  checkECHAcceptedHRR Buf Buf app id shortSecret encodeHelloRetryRequest
    getECHHelloRetryRequest helloRetryRequest (bytes "transcript")
    (bytes "key")
  = Throws secret_too_small
  /\ setAcceptConfirmationHRR Buf Buf app id shortSecret
       encodeHelloRetryRequest blankECHHelloRetryRequest helloRetryRequest
       (bytes "transcript") (bytes "key")
     = Throws secret_too_small.
Proof.
  apply (acceptConfirmationHRR_secret_too_small Buf Buf app id shortSecret
           encodeHelloRetryRequest getECHHelloRetryRequest
           blankECHHelloRetryRequest helloRetryRequest
           (bytes "transcript") (bytes "key")).
  intros hsc. unfold shortSecret, getSecret, zeros.
  rewrite !length_take, !length_app, length_replicate. lia.
Defined.

(** *** A GREASE pre-shared key *)

(** A factory that counts its draws and fills with one byte. *)
Definition fill (factory n : nat) : Buf * nat :=
  (replicate n Byte.x2a, S factory).

Definition offeredPsk : ClientPresharedKey :=
  {| identities :=
       [ {| psk_identity := bytes "ticket";
            obfuscated_ticket_age := bytes "0005" |} ];
     binders := [ {| binder := bytes "binder one" |};
                  {| binder := bytes "binder two!" |} ] |}.

Lemma generateGreasePskCommon_shape_witness :
  (forall factory n, length (fill factory n).1 = n)
  /\ match generateGreasePskCommon nat fill fill offeredPsk 0%nat false with
     | Returns (grease, _) =>
         (length (identities offeredPsk) <= length (binders offeredPsk))%nat
         /\ Forall2 (greaseOfIdentity false)
              (identities offeredPsk) (identities grease)
         /\ Forall2 greaseOfBinder
              (take (length (identities offeredPsk)) (binders offeredPsk))
              (binders grease)
     | Throws e =>
         e = out_of_range
         /\ (length (binders offeredPsk)
             < length (identities offeredPsk))%nat
     | Undefined => False
     end.
Proof.
  assert (Hfill : forall factory n, length (fill factory n).1 = n)
    by (intros factory n; apply length_replicate).
  split; [exact Hfill|].
  exact (generateGreasePskCommon_shape nat fill fill Hfill offeredPsk
           0%nat false).
Defined.

End Wire.

End Ech.
